(** * Martian pipeline runtime: semantic checker and pipestance management

    A shallow embedding of [syntax] (the MRO semantic checker and include
    resolver) and of [core] (pipestance management), with the properties
    of the specification stated over it. *)

From Stdlib Require Import ZArith Lia.
From stdpp Require Import gmap strings list fin_maps.

Open Scope Z_scope.
Open Scope nat_scope.

#[global] Set Warnings "-clear-no-such-hyp".

(* ===================================================================== *)
(** ** Package syntax: the compiler driver                                *)
(* ===================================================================== *)

Module Syntax.

(** The six semantic passes, in the order in which [Ast.compile] names
    them. *)
Inductive Pass : Type :=
| PassTypes
| PassCallables
| PassStages
| PassPipelineDecs
| PassPipelineArgs
| PassCall.

#[global] Instance Pass_eq_dec : EqDecision Pass.
Proof. solve_decision. Defined.

Definition passOrder : list Pass :=
  [PassTypes; PassCallables; PassStages; PassPipelineDecs; PassPipelineArgs;
   PassCall].

Section Compile.

(** [Ast] is the tree the passes work on (they fill in tables of the
    receiver [global] in place); [error] is Go's [error] interface, with
    [None] for [nil]. *)
Context {Ast error : Type}.

(** The bodies of [compileTypes], [Callables.compile], [compileStages],
    [compilePipelineDecs], [compilePipelineArgs] and [compileCall] are
    defined elsewhere in the package: each is a function of the tree that
    yields the updated tree and an error or [nil]. *)
Variable passBody : Pass -> Ast -> Ast * option error.

(** The state threaded through [compile]: the tree, and the record of
    the passes called so far with what each returned. *)
Record CompileState : Type := mkCompileState {
  global : Ast;
  called : list (Pass * option error)
}.

Definition M (A : Type) : Type := CompileState -> A * CompileState.

Definition ret {A} (a : A) : M A := fun s => (a, s).

Definition bind {A B} (m : M A) (k : A -> M B) : M B :=
  fun s => let '(a, s') := m s in k a s'.

(** One call [global.compileX()]. *)
Definition call (p : Pass) : M (option error) :=
  fun s =>
    let '(g, e) := passBody p (global s) in
    (e, mkCompileState g (called s ++ [(p, e)])).

(** [if err := m; err != nil { return err }; k] *)
Definition orReturn (m : M (option error)) (k : M (option error))
  : M (option error) :=
  bind m (fun err => match err with
                     | Some e => ret (Some e)
                     | None => k
                     end).

Notation "m >>? k" := (orReturn m k) (at level 60, right associativity).

Definition compile : M (option error) :=
  call PassTypes >>?
  call PassCallables >>?
  call PassStages >>?
  call PassPipelineDecs >>?
  call PassPipelineArgs >>?
  call PassCall >>?
  ret None.

(** Running [compile] on a tree, nothing called yet. *)
Definition runCompile (g : Ast) : option error * CompileState :=
  compile (mkCompileState g []).

(** The tree that the first [i] passes of the order leave, each run on
    the tree its predecessor left. *)
Definition treeAfter (g : Ast) (i : nat) : Ast :=
  foldl (fun g p => (passBody p g).1) g (take i passOrder).

(** What the body of the pass [p], at place [i] of the order, returns on
    that tree. *)
Definition returned (g : Ast) (i : nat) (p : Pass) : option error :=
  (passBody p (treeAfter g i)).2.

(** C2. [compile] runs the semantic passes in the fixed order types,
    callables, stages, pipeline declarations, pipeline arguments,
    top-level call, each on the tree its predecessor left, and stops at
    the first whose body returns an error: for some [k] from 1 to 6 the
    passes called are the first [k] of the order, each recorded with what
    its body returned, the tree is as the [k]-th left it, the bodies of
    the passes before the [k]-th returned nil, [compile] returns what the
    body of the [k]-th returned, and that is an error when [k] is
    less than 6.  It returns nil exactly when the body of each of the six
    passes returns nil. *)
Theorem compile_six_passes_fail_fast (g : Ast) :
  let r := (runCompile g).1 in
  let s := (runCompile g).2 in
  exists k, 1 <= k <= 6 /\
    called s = imap (fun i p => (p, returned g i p)) (take k passOrder) /\
    global s = treeAfter g k /\
    (forall i p, passOrder !! i = Some p -> S i < k -> returned g i p = None) /\
    (exists p, passOrder !! (k - 1) = Some p /\ r = returned g (k - 1) p) /\
    (k < 6 -> r <> None) /\
    (r = None <->
     forall i p, passOrder !! i = Some p -> returned g i p = None).
Proof.
  cbv zeta.
  unfold runCompile, compile, orReturn, bind, call, ret, returned, treeAfter,
    passOrder.
  simpl.
  destruct (passBody PassTypes g) as [g1 e1] eqn:H1.
  destruct (passBody PassCallables g1) as [g2 e2] eqn:H2.
  destruct (passBody PassStages g2) as [g3 e3] eqn:H3.
  destruct (passBody PassPipelineDecs g3) as [g4 e4] eqn:H4.
  destruct (passBody PassPipelineArgs g4) as [g5 e5] eqn:H5.
  destruct (passBody PassCall g5) as [g6 e6] eqn:H6.
  assert (Hat : forall (P : nat -> Pass -> Prop),
            (forall i p,
               [PassTypes; PassCallables; PassStages; PassPipelineDecs;
                PassPipelineArgs; PassCall] !! i = Some p -> P i p) <->
            P 0 PassTypes /\ P 1 PassCallables /\ P 2 PassStages /\
            P 3 PassPipelineDecs /\ P 4 PassPipelineArgs /\ P 5 PassCall).
  { intros P. split.
    - intros HP. repeat split; by apply HP.
    - intros (? & ? & ? & ? & ? & ?) i p.
      do 6 (destruct i as [|i]; [by intros [= <-]|]). done. }
  assert (Hbelow : forall (k : nat) (P : nat -> Pass -> Prop),
            (forall i p,
               [PassTypes; PassCallables; PassStages; PassPipelineDecs;
                PassPipelineArgs; PassCall] !! i = Some p -> S i < k ->
               P i p) <->
            (1 < k -> P 0 PassTypes) /\ (2 < k -> P 1 PassCallables) /\
            (3 < k -> P 2 PassStages) /\ (4 < k -> P 3 PassPipelineDecs) /\
            (5 < k -> P 4 PassPipelineArgs) /\ (6 < k -> P 5 PassCall)).
  { intros k P. split.
    - intros HP. repeat split; intros ?; by apply HP.
    - intros (? & ? & ? & ? & ? & ?) i p.
      do 6 (destruct i as [|i]; [intros [= <-]; auto|]). done. }
  destruct e1 as [e1|];
    [exists 1|destruct e2 as [e2|];
      [exists 2|destruct e3 as [e3|];
        [exists 3|destruct e4 as [e4|];
          [exists 4|destruct e5 as [e5|];
            [exists 5|destruct e6 as [e6|]; exists 6]]]]].
  all: split; [lia|].
  all: split; [repeat (progress (simpl; rewrite ?H1, ?H2, ?H3, ?H4, ?H5, ?H6));
               done|].
  all: split; [repeat (progress (simpl; rewrite ?H1, ?H2, ?H3, ?H4, ?H5, ?H6));
               done|].
  all: split; [apply Hbelow;
               repeat (progress (simpl; rewrite ?H1, ?H2, ?H3, ?H4, ?H5, ?H6));
               repeat split; intros; first [lia|done]|].
  all: split; [eexists; split; [reflexivity|];
               repeat (progress (simpl; rewrite ?H1, ?H2, ?H3, ?H4, ?H5, ?H6));
               done|].
  all: split; [intros; try lia;
               repeat (progress (simpl; rewrite ?H1, ?H2, ?H3, ?H4, ?H5, ?H6));
               done|].
  all: split; [intros Hnil; apply Hat; revert Hnil
              |intros Hall; apply Hat in Hall; revert Hall].
  all: repeat (progress (simpl; rewrite ?H1, ?H2, ?H3, ?H4, ?H5, ?H6)).
  all: first [done | by intros (? & ? & ? & ? & ? & ?) | by intros [=]
             | by intros ->].
Qed.



End Compile.

(* ===================================================================== *)
(** ** Package syntax: include resolution                                 *)
(* ===================================================================== *)

(** A [*SourceFile] is represented by the full path of the file: every
    [SourceFile] that exists is registered in [processedIncludes] under its
    [FullPath], and at most one is created per path.  Dereferencing is a
    lookup in that map, so an [IncludedFrom] appended through one alias is
    seen through all of them. *)
Abbreviation SourceFilePtr := string (only parsing).

Record SourceLoc : Type := mkSourceLoc {
  Line : nat;
  File : SourceFilePtr
}.

Record SourceFile : Type := mkSourceFile {
  FileName : string;
  FullPath : string;
  IncludedFrom : list SourceLoc
}.

(** An [@include] directive: [inc.Value] and [inc.Node.Loc]. *)
Record Include : Type := mkInclude {
  Value : string;
  Loc : SourceLoc
}.

#[global] Instance SourceLoc_eq_dec : EqDecision SourceLoc.
Proof. solve_decision. Defined.

#[global] Instance Include_eq_dec : EqDecision Include.
Proof. solve_decision. Defined.

(** The errors of include resolution.  [IncludedMultipleTimes],
    [IncludesItself], [IncludeCycle] and [ReadError] are the four
    [wrapError]s of [getIncludes] and [checkIncludes], told apart by their
    message. *)
Inductive IncludeError : Type :=
| FileNotFoundError (name : string) (loc : SourceLoc)
| IncludedMultipleTimes (name : string) (loc : SourceLoc)
| IncludesItself (path : string) (loc : SourceLoc)
| IncludeCycle (path : string) (loc : SourceLoc)
| ReadError (path : string) (loc : SourceLoc)
| ParseError (path : string).

(** Modelled from the spec: [ErrorList] and its [If] are not among the
    sources ("errors are first-class values collected in a list", with an
    "if-any combinator that returns null when empty").  An [error] value
    is kept as the list of the errors it collects, [nil] being the empty
    list; appending an error value to an [ErrorList] appends what it
    collects, and [If] hands the collected errors back. *)
Abbreviation ErrorList := (list IncludeError).

Definition If (errs : ErrorList) : ErrorList := errs.

Definition isIncludedMultipleTimes (e : IncludeError) : bool :=
  match e with
  | IncludedMultipleTimes _ _ => true
  | _ => false
  end.

(** The number of duplicate-include errors an error value holds. *)
Definition duplicateErrors (errs : ErrorList) : nat :=
  length (filter (fun e => isIncludedMultipleTimes e = true) errs).

Section Includes.

(** The tree: only its include directives and [merge] matter here. *)
Context {Ast : Type}.
Variable Includes : Ast -> list Include.

(** [x.merge(y)] "puts y's stuff before x's", and yields [x]. *)
Variable merge : Ast -> Ast -> Ast.

(** The environment: [util.SearchPaths], [filepath.Abs], [filepath.Dir],
    [ioutil.ReadFile] ([None] when it fails) and the generated parser
    [yaccParse] ([None] when it reports a syntax error). *)
Variable SearchPaths : string -> list string -> option string.
Variable Abs : string -> string.
Variable Dir : string -> string.
Variable Base : string -> string.
Variable ReadFile : string -> option string.
Variable yaccParse : string -> SourceFilePtr -> option Ast.

(** [src.checkIncludes(fullPath, inc)]: walk up [IncludedFrom] from [src]
    looking for [fullPath].  The recursion follows pointers of a graph
    that may have cycles; [fuel] bounds its depth, and [None] stands for a
    walk that does not come back (or for a pointer to no file, which the
    program never holds). *)
Fixpoint checkIncludes (fuel : nat) (files : gmap string SourceFile)
    (src : SourceFilePtr) (fullPath : string) (inc : SourceLoc)
  : option ErrorList :=
  match fuel with
  | 0 => None
  | S fuel' =>
      sf ← files !! src;
      if decide (fullPath = FullPath sf) then
        Some (If [IncludeCycle (FullPath sf) inc])
      else
        errs ← foldl (fun acc parent =>
                        errs ← acc;
                        err ← checkIncludes fuel' files (File parent)
                                fullPath inc;
                        Some (errs ++ err))
                     (Some []) (IncludedFrom sf);
        Some (If errs)
  end.

(** The variables of the loop of [getIncludes]. *)
Record LoopState : Type := mkLoopState {
  errs : ErrorList;
  iasts : option Ast;
  seen : gset string;
  processedIncludes : gmap string SourceFile
}.

(** The result of [parseSource]: the tree ([None] for a nil [*Ast]), the
    error, and the map of processed includes as the call leaves it. *)
Definition ParseResult : Type :=
  (option Ast * ErrorList * gmap string SourceFile)%type.

(** One iteration of [for _, inc := range includes].  [recParse] is the
    recursive call of [parseSource], [fuel] the depth left for
    [checkIncludes]. *)
Definition includeStep
    (recParse : string -> SourceFilePtr -> list string ->
                gmap string SourceFile -> option ParseResult)
    (fuel : nat) (srcFile : SourceFilePtr) (srcFullPath : string)
    (incPaths : list string) (st : LoopState) (inc : Include)
  : option LoopState :=
  match SearchPaths (Value inc) incPaths with
  | None =>
      Some (mkLoopState (errs st ++ [FileNotFoundError (Value inc) (Loc inc)])
              (iasts st) (seen st) (processedIncludes st))
  | Some ifpath =>
      let absPath := Abs ifpath in
      let errs1 :=
        if decide (absPath ∈ seen st)
        then errs st ++ [IncludedMultipleTimes (Value inc) (Loc inc)]
        else errs st in
      let seen1 := {[absPath]} ∪ seen st in
      if decide (absPath = srcFullPath) then
        Some (mkLoopState (errs1 ++ [IncludesItself srcFullPath (Loc inc)])
                (iasts st) seen1 (processedIncludes st))
      else
        match processedIncludes st !! absPath with
        | Some iSrcFile =>
            let iSrcFile' :=
              mkSourceFile (FileName iSrcFile) (FullPath iSrcFile)
                (IncludedFrom iSrcFile ++ [Loc inc]) in
            let processed1 := <[absPath := iSrcFile']> (processedIncludes st) in
            err ← checkIncludes fuel processed1 srcFile absPath (Loc inc);
            Some (mkLoopState (errs1 ++ err) (iasts st) seen1 processed1)
        | None =>
            let iSrcFile := mkSourceFile (Value inc) absPath [Loc inc] in
            let processed1 := <[absPath := iSrcFile]> (processedIncludes st) in
            match ReadFile (FullPath iSrcFile) with
            | None =>
                Some (mkLoopState (errs1 ++ [ReadError absPath (Loc inc)])
                        (iasts st) seen1 processed1)
            | Some b =>
                '(iast, err, processed2) ←
                  recParse b absPath (tail incPaths) processed1;
                let iasts' :=
                  match iast with
                  | None => iasts st
                  | Some iast =>
                      match iasts st with
                      | None => Some iast
                      | Some prev => Some (merge iast prev)
                      end
                  end in
                Some (mkLoopState (errs1 ++ err) iasts' seen1 processed2)
            end
        end
  end.

(** The loop of [getIncludes] over the directives that remain. *)
Fixpoint includeLoop
    (recParse : string -> SourceFilePtr -> list string ->
                gmap string SourceFile -> option ParseResult)
    (fuel : nat) (srcFile : SourceFilePtr) (srcFullPath : string)
    (incPaths : list string) (st : LoopState) (includes : list Include)
  : option LoopState :=
  match includes with
  | [] => Some st
  | inc :: rest =>
      st' ← includeStep recParse fuel srcFile srcFullPath incPaths st inc;
      includeLoop recParse fuel srcFile srcFullPath incPaths st' rest
  end.

Definition getIncludesWith
    (recParse : string -> SourceFilePtr -> list string ->
                gmap string SourceFile -> option ParseResult)
    (fuel : nat) (srcFile : SourceFilePtr) (includes : list Include)
    (incPaths : list string) (processed : gmap string SourceFile)
  : option ParseResult :=
  sf ← processed !! srcFile;
  st ← includeLoop recParse fuel srcFile (FullPath sf) incPaths
         (mkLoopState [] None ∅ processed) includes;
  Some (iasts st, If (errs st), processedIncludes st).

(** [parseSource]; [fuel] bounds the depth of nested includes. *)
Fixpoint parseSource (fuel : nat) (src : string) (srcFile : SourceFilePtr)
    (incPaths : list string) (processed : gmap string SourceFile)
  : option ParseResult :=
  match fuel with
  | 0 => None
  | S fuel' =>
      sf ← processed !! srcFile;
      let incPaths := Dir (FullPath sf) :: incPaths in
      match yaccParse src srcFile with
      | None => Some (None, [ParseError (FullPath sf)], processed)
      | Some ast =>
          '(iasts, err, processed') ←
            getIncludesWith (parseSource fuel') fuel' srcFile (Includes ast)
              incPaths processed;
          Some (Some match iasts with
                     | Some i => merge ast i
                     | None => ast
                     end, err, processed')
      end
  end.

Definition getIncludes (fuel : nat) :=
  getIncludesWith (parseSource fuel) fuel.

(** The part of [Parser.ParseSourceBytes] that sets up the top file and
    parses it with its includes. *)
Definition ParseSourceBytes_parse (fuel : nat) (src srcPath : string)
    (incPaths : list string) : option ParseResult :=
  let fname := Base srcPath in
  let absPath := Abs srcPath in
  let srcFile := mkSourceFile fname absPath [] in
  parseSource fuel src absPath incPaths {[absPath := srcFile]}.

(** *** What the resolver is expected to report *)

(** The duplicate-include error of a directive: its name and its
    location. *)
Definition duplicateError (inc : Include) : IncludeError :=
  IncludedMultipleTimes (Value inc) (Loc inc).

(** The duplicate-include errors that an error value holds, in order. *)
Definition duplicates (errs : ErrorList) : ErrorList :=
  filter (fun e => isIncludedMultipleTimes e = true) errs.

(** The directives of one list that resolve to a file which an earlier
    directive of the same list resolved to; [seen] holds the files
    resolved so far. *)
Fixpoint repeated (incPaths : list string) (seen : gset string)
    (includes : list Include) : list Include :=
  match includes with
  | [] => []
  | inc :: rest =>
      match SearchPaths (Value inc) incPaths with
      | None => repeated incPaths seen rest
      | Some ifpath =>
          (if decide (Abs ifpath ∈ seen) then [inc] else []) ++
          repeated incPaths ({[Abs ifpath]} ∪ seen) rest
      end
  end.

(** The same for the directives of the source [src] of [srcFile]. *)
Definition sourceRepeated (incPaths : list string) (src : string)
    (srcFile : SourceFilePtr) : list Include :=
  match yaccParse src srcFile with
  | Some ast => repeated (Dir srcFile :: incPaths) ∅ (Includes ast)
  | None => []
  end.

(** The same for the file at [path], when it can be read. *)
Definition fileRepeated (incPaths : list string) (path : string)
  : list Include :=
  match ReadFile path with
  | Some b => sourceRepeated incPaths b path
  | None => []
  end.

(** Every file is registered under its own full path. *)
Definition keyed (processed : gmap string SourceFile) : Prop :=
  forall p sf, processed !! p = Some sf -> FullPath sf = p.

(** [new] lists, once each, the files that [processed'] registers and
    [processed] does not. *)
Definition registered (processed processed' : gmap string SourceFile)
    (new : list string) : Prop :=
  NoDup new /\
  forall p, p ∈ new <-> p ∈ dom processed' /\ p ∉ dom processed.

Lemma duplicates_app (e1 e2 : ErrorList) :
  duplicates (e1 ++ e2) = duplicates e1 ++ duplicates e2.
Proof. unfold duplicates. by rewrite filter_app. Qed.

Lemma foldl_checkIncludes_None fuel files fullPath inc parents :
  foldl (fun acc parent =>
           errs ← acc;
           err ← checkIncludes fuel files (File parent) fullPath inc;
           Some (errs ++ err)) None parents = None.
Proof. induction parents as [|x l IH]; simpl; done. Qed.

(** [checkIncludes] returns include-cycle errors only, each for
    [fullPath] at [inc]. *)
Lemma checkIncludes_only_cycles fuel files src fullPath inc err :
  checkIncludes fuel files src fullPath inc = Some err ->
  Forall (fun e => e = IncludeCycle fullPath inc) err.
Proof.
  revert src err; induction fuel as [|fuel IH]; intros src err; simpl;
    [done|].
  destruct (files !! src) as [sf|]; simpl; [|done].
  case_decide as Hpath; [intros [= <-]; rewrite Hpath; by repeat constructor|].
  assert (Hfold : forall parents acc out,
    Forall (fun e => e = IncludeCycle fullPath inc) acc ->
    foldl (fun acc parent =>
             errs ← acc;
             err ← checkIncludes fuel files (File parent) fullPath inc;
             Some (errs ++ err)) (Some acc) parents = Some out ->
    Forall (fun e => e = IncludeCycle fullPath inc) out).
  { induction parents as [|x l IHl]; simpl; intros acc out Hacc.
    - by intros [= <-].
    - destruct (checkIncludes fuel files (File x) fullPath inc) as [e|] eqn:He;
        simpl.
      + apply IHl. apply Forall_app. split; [done|]. by apply (IH (File x)).
      + by rewrite foldl_checkIncludes_None. }
  destruct (foldl _ _ _) as [out|] eqn:Hout; simpl; [|done].
  intros [= <-]. by apply (Hfold (IncludedFrom sf) [] out).
Qed.

Lemma duplicates_only_cycles fullPath inc (err : ErrorList) :
  Forall (fun e => e = IncludeCycle fullPath inc) err -> duplicates err = [].
Proof.
  induction 1 as [|e err -> _ IH]; [done|].
  unfold duplicates. rewrite filter_cons, decide_False by done. exact IH.
Qed.

Lemma keyed_insert processed p sf :
  keyed processed -> FullPath sf = p -> keyed (<[p := sf]> processed).
Proof.
  intros Hk Hp q sf'. rewrite lookup_insert. case_decide; [|apply Hk].
  by intros [= <-]; subst.
Qed.

Lemma registered_refl processed : registered processed processed [].
Proof.
  split; [constructor|]. intros p. split; [by intros ?%elem_of_nil|].
  by intros [? ?].
Qed.

Lemma registered_same_dom processed processed' processed'' new :
  dom processed' = dom processed ->
  registered processed' processed'' new ->
  registered processed processed'' new.
Proof. intros Hd [Hn Hi]. split; [done|]. intros p. by rewrite Hi, Hd. Qed.

Lemma registered_step processed processed'' p sf new :
  processed !! p = None ->
  dom (<[p := sf]> processed) ⊆ dom processed'' ->
  registered (<[p := sf]> processed) processed'' new ->
  registered processed processed'' (p :: new).
Proof.
  intros Hp Hsub [Hn Hi]. split.
  - constructor; [|done]. rewrite Hi. intros [_ []].
    rewrite dom_insert. set_solver.
  - intros q. rewrite elem_of_cons, Hi, dom_insert.
    apply not_elem_of_dom in Hp. rewrite dom_insert in Hsub.
    destruct (decide (q = p)) as [->|Hne]; set_solver.
Qed.

Lemma registered_app processed processed' processed'' new1 new2 :
  dom processed ⊆ dom processed' ->
  dom processed' ⊆ dom processed'' ->
  registered processed processed' new1 ->
  registered processed' processed'' new2 ->
  registered processed processed'' (new1 ++ new2).
Proof.
  intros H1 H2 [Hn1 Hi1] [Hn2 Hi2]. split.
  - apply NoDup_app. split; [done|]. split; [|done].
    intros q Hq1 Hq2. apply Hi1 in Hq1. apply Hi2 in Hq2. tauto.
  - intros q. rewrite elem_of_app, Hi1, Hi2.
    destruct (decide (q ∈ dom processed')); set_solver.
Qed.


(** What the loop lemmas ask of the recursive call of [parseSource]. *)
Definition reportsRepeated (incPaths : list string)
    (recParse : string -> SourceFilePtr -> list string ->
                gmap string SourceFile -> option ParseResult) : Prop :=
  forall src srcFile processed ast err processed',
    keyed processed ->
    recParse src srcFile incPaths processed = Some (ast, err, processed') ->
    keyed processed' /\ dom processed ⊆ dom processed' /\
    exists new, registered processed processed' new /\
      duplicates err ≡ₚ
        duplicateError <$> (sourceRepeated incPaths src srcFile ++
                            mjoin (fileRepeated incPaths <$> new)).

(** A directive that resolves to a registered file other than the
    including one: what the iteration leaves does not depend on the
    parser; no tree is added and no file registered, and the errors added
    are the duplicate-include error of the directive, when an earlier
    directive of the list resolved to the same file, and include-cycle
    errors. *)
Lemma includeStep_registered_file recParse fuel srcFile srcFullPath incPaths
    st inc ifpath iSrcFile st' :
  SearchPaths (Value inc) incPaths = Some ifpath ->
  Abs ifpath <> srcFullPath ->
  processedIncludes st !! Abs ifpath = Some iSrcFile ->
  includeStep recParse fuel srcFile srcFullPath incPaths st inc = Some st' ->
  (forall recParse',
     includeStep recParse' fuel srcFile srcFullPath incPaths st inc
       = Some st') /\
  iasts st' = iasts st /\
  dom (processedIncludes st') = dom (processedIncludes st) /\
  exists cycles,
    Forall (fun e => e = IncludeCycle (Abs ifpath) (Loc inc)) cycles /\
    errs st' =
      errs st ++
      (if decide (Abs ifpath ∈ seen st) then [duplicateError inc] else []) ++
      cycles.
Proof.
  intros Hfound Hother Hlook. unfold includeStep. rewrite Hfound. cbv zeta.
  destruct (decide (Abs ifpath = srcFullPath)) as [|_]; [done|].
  rewrite Hlook.
  destruct (checkIncludes _ _ _ _ _) as [cycles|] eqn:Hcheck; simpl; [|done].
  intros [= <-]; simpl. split; [done|]. split; [done|]. split.
  { rewrite dom_insert_L. apply elem_of_dom_2 in Hlook. set_solver. }
  exists cycles. split; [by eapply checkIncludes_only_cycles|].
  unfold duplicateError. case_decide; by rewrite <- ?app_assoc.
Qed.

Lemma includeStep_duplicates recParse fuel srcFile srcFullPath d incPaths st
    inc st' :
  reportsRepeated incPaths recParse ->
  keyed (processedIncludes st) ->
  includeStep recParse fuel srcFile srcFullPath (d :: incPaths) st inc
    = Some st' ->
  keyed (processedIncludes st') /\
  dom (processedIncludes st) ⊆ dom (processedIncludes st') /\
  exists new, registered (processedIncludes st) (processedIncludes st') new /\
    forall rest,
      duplicates (errs st') ++
      (duplicateError <$> repeated (d :: incPaths) (seen st') rest) ≡ₚ
      duplicates (errs st) ++
      (duplicateError <$> repeated (d :: incPaths) (seen st) (inc :: rest)) ++
      (duplicateError <$> mjoin (fileRepeated incPaths <$> new)).
Proof.
  intros Hrec Hkeyed. unfold includeStep.
  cbn [repeated].
  destruct (SearchPaths (Value inc) (d :: incPaths)) as [ifpath|]; simpl.
  2:{ intros [= <-]; simpl. split; [done|]. split; [done|].
      exists []. split; [apply registered_refl|]. intros rest.
      rewrite duplicates_app. simpl. by rewrite !app_nil_r. }
  set (absPath := Abs ifpath).
  set (own := if decide (absPath ∈ seen st) then [inc] else []).
  set (errs1 := if decide (absPath ∈ seen st) then _ else _).
  assert (Herrs1 : duplicates errs1 =
                   duplicates (errs st) ++ (duplicateError <$> own)).
  { subst errs1 own. case_decide; [|by rewrite app_nil_r].
    by rewrite duplicates_app. }
  clearbody errs1.
  assert (Hperm : forall (extra files : ErrorList) rest,
            duplicates extra ≡ₚ files ->
            duplicates (errs1 ++ extra) ++
            (duplicateError <$>
               repeated (d :: incPaths) ({[absPath]} ∪ seen st) rest) ≡ₚ
            duplicates (errs st) ++
            (duplicateError <$>
               own ++ repeated (d :: incPaths) ({[absPath]} ∪ seen st) rest) ++
            files).
  { intros extra files rest Hextra.
    rewrite duplicates_app, Herrs1, Hextra, fmap_app, <- !app_assoc.
    do 2 apply Permutation_app_head. apply Permutation_app_comm. }
  clearbody own.
  destruct (decide (absPath = srcFullPath)) as [Hself|Hself].
  { intros [= <-]; simpl. split; [done|]. split; [done|].
    exists []. split; [apply registered_refl|]. intros rest.
    by apply Hperm. }
  destruct (processedIncludes st !! absPath) as [iSrcFile|] eqn:Hlook.
  - destruct (checkIncludes _ _ _ _ _) as [err|] eqn:Hcheck; simpl; [|done].
    intros [= <-]; simpl.
    assert (Hdom : dom (<[absPath:=mkSourceFile (FileName iSrcFile)
                            (FullPath iSrcFile)
                            (IncludedFrom iSrcFile ++ [Loc inc])]>
                         (processedIncludes st)) = dom (processedIncludes st)).
    { rewrite dom_insert_L. apply elem_of_dom_2 in Hlook. set_solver. }
    split; [apply keyed_insert; [done|]; simpl; by apply Hkeyed|].
    split; [by rewrite Hdom|].
    exists []. split.
    { eapply registered_same_dom; [exact Hdom|].
      apply registered_refl. }
    intros rest. apply Hperm.
    by rewrite (duplicates_only_cycles _ _ _
                  (checkIncludes_only_cycles _ _ _ _ _ _ Hcheck)).
  - simpl. destruct (ReadFile absPath) as [b|] eqn:Hread.
    + destruct (recParse b absPath incPaths _) as [[[iast err] processed2]|]
        eqn:Hparse; simpl; [|done].
      intros [= <-]; simpl.
      apply Hrec in Hparse as (Hk2 & Hsub & new & Hreg & Hcount);
        [|by apply keyed_insert].
      split; [done|]. split.
      { etrans; [|exact Hsub]. rewrite dom_insert. set_solver. }
      exists (absPath :: new).
      split; [exact (registered_step _ _ _ _ _ Hlook Hsub Hreg)|].
      intros rest. apply Hperm. rewrite Hcount. simpl.
      unfold fileRepeated at 2. by rewrite Hread.
    + intros [= <-]; simpl.
      split; [by apply keyed_insert|]. split; [rewrite dom_insert; set_solver|].
      exists [absPath]. split.
      { eapply registered_step; [exact Hlook|reflexivity|apply registered_refl]. }
      intros rest. apply Hperm. simpl. unfold fileRepeated. by rewrite Hread.
Qed.


Lemma includeLoop_duplicates recParse fuel srcFile srcFullPath d incPaths :
  reportsRepeated incPaths recParse ->
  forall includes st st',
  keyed (processedIncludes st) ->
  includeLoop recParse fuel srcFile srcFullPath (d :: incPaths) st includes
    = Some st' ->
  keyed (processedIncludes st') /\
  dom (processedIncludes st) ⊆ dom (processedIncludes st') /\
  exists new, registered (processedIncludes st) (processedIncludes st') new /\
    duplicates (errs st') ≡ₚ
      duplicates (errs st) ++
      (duplicateError <$> repeated (d :: incPaths) (seen st) includes) ++
      (duplicateError <$> mjoin (fileRepeated incPaths <$> new)).
Proof.
  intros Hrec. induction includes as [|inc rest IH]; intros st st' Hkeyed.
  - simpl. intros [= <-]. split; [done|]. split; [done|].
    exists []. split; [apply registered_refl|]. simpl. by rewrite app_nil_r.
  - cbn [includeLoop].
    destruct (includeStep _ _ _ _ _ st inc) as [st1|] eqn:Hstep; simpl;
      [|done].
    intros Hloop.
    apply includeStep_duplicates in Hstep
      as (Hk1 & Hsub1 & new1 & Hreg1 & Hcount1); [|done|done].
    apply IH in Hloop as (Hk2 & Hsub2 & new2 & Hreg2 & Hcount2); [|done].
    split; [done|]. split; [by etrans|].
    exists (new1 ++ new2). split; [by eapply registered_app|].
    rewrite Hcount2, fmap_app, join_app, fmap_app.
    rewrite (assoc (++) (duplicates (errs st1))), (Hcount1 rest).
    by rewrite <- !app_assoc.
Qed.

Lemma parseSource_duplicates fuel incPaths :
  reportsRepeated incPaths (parseSource fuel).
Proof.
  induction fuel as [|fuel IH];
    intros src srcFile processed ast err processed' Hkeyed; simpl; [done|].
  destruct (processed !! srcFile) as [sf|] eqn:Hsf; simpl; [|done].
  rewrite (Hkeyed _ _ Hsf). unfold sourceRepeated.
  destruct (yaccParse src srcFile) as [tree|].
  - unfold getIncludesWith. rewrite Hsf; simpl.
    destruct (includeLoop _ _ _ _ _ _ _) as [st|] eqn:Hloop; simpl; [|done].
    intros [= <- <- <-].
    apply includeLoop_duplicates in Hloop
      as (Hk & Hsub & new & Hreg & Hcount); [|done|done].
    split; [done|]. split; [done|]. exists new. split; [done|].
    unfold If. rewrite Hcount. simpl. by rewrite fmap_app.
  - intros [= <- <- <-]. split; [done|]. split; [done|].
    exists []. split; [apply registered_refl|]. reflexivity.
Qed.

Lemma keyed_singleton p sf :
  FullPath sf = p -> keyed ({[p := sf]} : gmap string SourceFile).
Proof.
  intros Hp q sf'. rewrite lookup_singleton. case_decide; [|done].
  by intros [= <-]; subst.
Qed.


(** *** Termination on include graphs without cycles *)

Section Acyclic.

(** The search paths given to the parser, a rank that decreases along
    every include directive, and a bound on the ranks in play. *)
Variable incPaths : list string.
Variable rank : string -> nat.
Variable R : nat.

(** The parser attributes each directive to the file it parses. *)
Hypothesis located : forall b sf ast inc,
  yaccParse b sf = Some ast -> inc ∈ Includes ast -> File (Loc inc) = sf.

(** An included file ranks below the file that includes it. *)
Hypothesis ranked : forall path b ast inc ifpath,
  ReadFile path = Some b -> yaccParse b path = Some ast ->
  inc ∈ Includes ast ->
  SearchPaths (Value inc) (Dir path :: incPaths) = Some ifpath ->
  rank (Abs ifpath) < rank path.

(** The registered files are keyed by their path, each [IncludedFrom]
    points at a registered file of higher rank, and no rank exceeds [R]. *)
Definition ancestry (processed : gmap string SourceFile) : Prop :=
  keyed processed /\
  (forall p sf loc, processed !! p = Some sf -> loc ∈ IncludedFrom sf ->
     File loc ∈ dom processed /\ rank p < rank (File loc)) /\
  (forall p, p ∈ dom processed -> rank p <= R).

Lemma checkIncludes_total files fullPath inc :
  ancestry files ->
  forall fuel src, src ∈ dom files -> R - rank src < fuel ->
  is_Some (checkIncludes fuel files src fullPath inc).
Proof.
  intros (Hk & Hanc & HR). induction fuel as [|fuel IH];
    intros src Hsrc Hfuel; [lia|].
  simpl. pose proof (HR _ Hsrc) as HRsrc.
  apply elem_of_dom in Hsrc as [sf Hsf]. rewrite Hsf. simpl.
  case_decide; [done|].
  assert (Hfold : forall parents acc,
    (forall loc, loc ∈ parents -> loc ∈ IncludedFrom sf) ->
    is_Some (foldl (fun acc parent =>
                      errs ← acc;
                      err ← checkIncludes fuel files (File parent)
                              fullPath inc;
                      Some (errs ++ err)) (Some acc) parents)).
  { induction parents as [|x l IHl]; simpl; intros acc Hin; [done|].
    destruct (Hanc src sf x Hsf) as [Hx Hlt]; [apply Hin; by left|].
    destruct (IH (File x) Hx) as [e He].
    { specialize (HR _ Hx). lia. }
    rewrite He. simpl. apply IHl. intros loc Hloc. apply Hin. by right. }
  destruct (Hfold (IncludedFrom sf) []) as [out Hout]; [done|].
  rewrite Hout. done.
Qed.

(** What the loop lemmas ask of the recursive call: it returns on the
    files that rank below [bound]. *)
Definition totalBelow (bound : nat)
    (recParse : string -> SourceFilePtr -> list string ->
                gmap string SourceFile -> option ParseResult) : Prop :=
  forall src srcFile processed,
    ancestry processed -> srcFile ∈ dom processed ->
    ReadFile srcFile = Some src -> rank srcFile < bound ->
    exists ast err processed',
      recParse src srcFile incPaths processed = Some (ast, err, processed') /\
      ancestry processed' /\ dom processed ⊆ dom processed'.

Lemma ancestry_insert_new processed absPath name loc :
  ancestry processed ->
  processed !! absPath = None ->
  File loc ∈ dom processed -> rank absPath < rank (File loc) ->
  ancestry (<[absPath := mkSourceFile name absPath [loc]]> processed).
Proof.
  intros (Hk & Hanc & HR) Hnone Hloc Hlt. split; [|split].
  - by apply keyed_insert.
  - intros p sf l. rewrite lookup_insert, dom_insert. case_decide.
    + intros [= <-]; simpl. subst p. intros ->%list_elem_of_singleton.
      split; [set_solver|done].
    + intros Hp Hl. destruct (Hanc p sf l Hp Hl). split; [set_solver|done].
  - intros p. rewrite dom_insert, elem_of_union, elem_of_singleton.
    intros [->|Hp]; [|by apply HR]. specialize (HR _ Hloc). lia.
Qed.

Lemma ancestry_insert_old processed absPath iSrcFile loc :
  ancestry processed ->
  processed !! absPath = Some iSrcFile ->
  File loc ∈ dom processed -> rank absPath < rank (File loc) ->
  ancestry (<[absPath := mkSourceFile (FileName iSrcFile) (FullPath iSrcFile)
                           (IncludedFrom iSrcFile ++ [loc])]> processed).
Proof.
  intros (Hk & Hanc & HR) Hsome Hloc Hlt.
  assert (Hdom : dom (<[absPath := mkSourceFile (FileName iSrcFile)
                          (FullPath iSrcFile) (IncludedFrom iSrcFile ++ [loc])]>
                        processed) = dom processed).
  { rewrite dom_insert_L. apply elem_of_dom_2 in Hsome. set_solver. }
  split; [|split].
  - apply keyed_insert; [done|]. simpl. by apply Hk.
  - intros p sf l. rewrite Hdom, lookup_insert. case_decide.
    + intros [= <-]; simpl. subst p.
      intros [Hl| ->%list_elem_of_singleton]%elem_of_app; [|done].
      by apply (Hanc absPath iSrcFile).
    + apply Hanc.
  - intros p. rewrite Hdom. apply HR.
Qed.


Lemma includeStep_total recParse fuel srcFile st inc :
  totalBelow (rank srcFile) recParse ->
  ancestry (processedIncludes st) ->
  srcFile ∈ dom (processedIncludes st) ->
  R - rank srcFile < fuel ->
  File (Loc inc) = srcFile ->
  (forall ifpath,
     SearchPaths (Value inc) (Dir srcFile :: incPaths) = Some ifpath ->
     rank (Abs ifpath) < rank srcFile) ->
  exists st',
    includeStep recParse fuel srcFile srcFile (Dir srcFile :: incPaths) st inc
      = Some st' /\
    ancestry (processedIncludes st') /\
    dom (processedIncludes st) ⊆ dom (processedIncludes st').
Proof.
  intros Hrec Hanc Hsrc Hfuel Hfile Hlt. unfold includeStep.
  destruct (SearchPaths (Value inc) (Dir srcFile :: incPaths)) as [ifpath|];
    [|by eexists].
  specialize (Hlt ifpath eq_refl).
  set (absPath := Abs ifpath) in *. cbv zeta.
  set (errs1 := if decide (absPath ∈ seen st) then _ else _). clearbody errs1.
  destruct (decide (absPath = srcFile)) as [Hself|Hself]; [by eexists|].
  destruct (processedIncludes st !! absPath) as [iSrcFile|] eqn:Hlook.
  - assert (Hanc1 := ancestry_insert_old _ _ _ (Loc inc) Hanc Hlook).
    rewrite Hfile in Hanc1. specialize (Hanc1 Hsrc Hlt).
    assert (Hdom : dom (<[absPath := mkSourceFile (FileName iSrcFile)
                            (FullPath iSrcFile)
                            (IncludedFrom iSrcFile ++ [Loc inc])]>
                          (processedIncludes st)) = dom (processedIncludes st)).
    { rewrite dom_insert_L. apply elem_of_dom_2 in Hlook. set_solver. }
    destruct (checkIncludes_total _ absPath (Loc inc) Hanc1 fuel srcFile)
      as [err Herr]; [by rewrite Hdom|done|].
    rewrite Herr. simpl. eexists. split; [reflexivity|]. simpl.
    split; [done|]. by rewrite Hdom.
  - assert (Hanc1 := ancestry_insert_new _ _ (Value inc) (Loc inc) Hanc Hlook).
    rewrite Hfile in Hanc1. specialize (Hanc1 Hsrc Hlt).
    simpl. destruct (ReadFile absPath) as [b|] eqn:Hread.
    + destruct (Hrec b absPath _ Hanc1) as (ast & err & processed2 & -> & Hanc2 & Hsub);
        [rewrite dom_insert; set_solver|done|done|].
      simpl. eexists. split; [reflexivity|]. simpl. split; [done|].
      etrans; [|exact Hsub]. rewrite dom_insert. set_solver.
    + eexists. split; [reflexivity|]. simpl. split; [done|].
      rewrite dom_insert. set_solver.
Qed.

Lemma includeLoop_total recParse fuel srcFile :
  totalBelow (rank srcFile) recParse ->
  R - rank srcFile < fuel ->
  forall includes st,
  ancestry (processedIncludes st) ->
  srcFile ∈ dom (processedIncludes st) ->
  (forall inc, inc ∈ includes ->
     File (Loc inc) = srcFile /\
     forall ifpath,
       SearchPaths (Value inc) (Dir srcFile :: incPaths) = Some ifpath ->
       rank (Abs ifpath) < rank srcFile) ->
  exists st',
    includeLoop recParse fuel srcFile srcFile (Dir srcFile :: incPaths) st
      includes = Some st' /\
    ancestry (processedIncludes st') /\
    dom (processedIncludes st) ⊆ dom (processedIncludes st').
Proof.
  intros Hrec Hfuel. induction includes as [|inc rest IH];
    intros st Hanc Hsrc Hincs.
  - exists st. done.
  - cbn [includeLoop].
    destruct (Hincs inc) as [Hfile Hlt]; [by left|].
    destruct (includeStep_total recParse fuel srcFile st inc)
      as (st1 & -> & Hanc1 & Hsub1); try done.
    simpl.
    destruct (IH st1) as (st' & Hloop & Hanc' & Hsub'); [done|set_solver| |].
    { intros i Hi. apply Hincs. by right. }
    exists st'. split; [done|]. split; [done|]. by etrans.
Qed.

Lemma parseSource_total fuel :
  forall src srcFile processed,
  ancestry processed -> srcFile ∈ dom processed ->
  ReadFile srcFile = Some src ->
  rank srcFile + R + 2 <= fuel ->
  exists ast err processed',
    parseSource fuel src srcFile incPaths processed
      = Some (ast, err, processed') /\
    ancestry processed' /\ dom processed ⊆ dom processed'.
Proof.
  induction fuel as [|fuel IH]; intros src srcFile processed Hanc Hsrc Hread Hfuel;
    [lia|].
  simpl. pose proof Hsrc as Hsrc'.
  apply elem_of_dom in Hsrc' as [sf Hsf]. rewrite Hsf. simpl.
  destruct Hanc as (Hk & Hanc). rewrite (Hk _ _ Hsf).
  destruct (yaccParse src srcFile) as [tree|] eqn:Hparse.
  2:{ eexists _, _, _. split; [reflexivity|]. split; [by split|done]. }
  unfold getIncludesWith. rewrite Hsf. simpl. rewrite (Hk _ _ Hsf).
  destruct (includeLoop_total (parseSource fuel) fuel srcFile) with
    (includes := Includes tree) (st := mkLoopState [] None ∅ processed)
    as (st' & -> & Hanc' & Hsub'); simpl.
  - intros b q processed0 Hanc0 Hq Hb Hlt. apply IH; try done. lia.
  - lia.
  - by split.
  - done.
  - intros inc Hinc. split; [by eapply located|].
    intros ifpath Hfound. by eapply ranked.
  - eexists _, _, _. split; [reflexivity|]. done.
Qed.


(** The same for a source that is given, not read: the top file of
    [ParseSourceBytes]. *)
Lemma parseSource_total_given fuel src srcFile processed :
  ancestry processed -> srcFile ∈ dom processed ->
  (forall ast inc ifpath,
     yaccParse src srcFile = Some ast -> inc ∈ Includes ast ->
     SearchPaths (Value inc) (Dir srcFile :: incPaths) = Some ifpath ->
     rank (Abs ifpath) < rank srcFile) ->
  rank srcFile + R + 2 <= fuel ->
  exists ast err processed',
    parseSource fuel src srcFile incPaths processed
      = Some (ast, err, processed') /\
    ancestry processed' /\ dom processed ⊆ dom processed'.
Proof.
  intros Hanc Hsrc Htop Hfuel. destruct fuel as [|fuel]; [lia|].
  simpl. pose proof Hsrc as Hsrc'.
  apply elem_of_dom in Hsrc' as [sf Hsf]. rewrite Hsf. simpl.
  destruct Hanc as (Hk & Hanc). rewrite (Hk _ _ Hsf).
  destruct (yaccParse src srcFile) as [tree|] eqn:Hparse.
  2:{ eexists _, _, _. split; [reflexivity|]. split; [by split|done]. }
  unfold getIncludesWith. rewrite Hsf. simpl. rewrite (Hk _ _ Hsf).
  destruct (includeLoop_total (parseSource fuel) fuel srcFile) with
    (includes := Includes tree) (st := mkLoopState [] None ∅ processed)
    as (st' & -> & Hanc' & Hsub'); simpl.
  - intros b q processed0 Hanc0 Hq Hb Hlt. apply parseSource_total; try done.
    lia.
  - lia.
  - by split.
  - done.
  - intros inc Hinc. split; [by eapply located|].
    intros ifpath Hfound. by eapply Htop.
  - eexists _, _, _. split; [reflexivity|]. done.
Qed.


End Acyclic.

(** C3 (amended). On an include graph without cycles the parser returns,
    and the duplicate-include errors it reports are, each with the name
    and the location of its directive, those of the directives of the top
    file and of every file registered during the run (each file taken
    once, through however many files it is reached) which resolve to a
    file that an earlier directive of the same file resolved to: one
    error for each such directive and no other.  A directive that
    resolves to a file registered already, through whichever file, adds
    no tree and registers nothing, whatever the parser would do: it adds
    its own duplicate-include error when an earlier directive of the same
    list resolved to that file, and include-cycle errors, nothing else. *)
Theorem duplicate_include_once_per_repeated_listing
    (incPaths : list string) (rank : string -> nat) (fuel : nat)
    (src srcPath : string) :
  (forall b sf ast inc,
     yaccParse b sf = Some ast -> inc ∈ Includes ast -> File (Loc inc) = sf) ->
  (forall path b ast inc ifpath,
     ReadFile path = Some b -> yaccParse b path = Some ast ->
     inc ∈ Includes ast ->
     SearchPaths (Value inc) (Dir path :: incPaths) = Some ifpath ->
     rank (Abs ifpath) < rank path) ->
  (forall ast inc ifpath,
     yaccParse src (Abs srcPath) = Some ast -> inc ∈ Includes ast ->
     SearchPaths (Value inc) (Dir (Abs srcPath) :: incPaths) = Some ifpath ->
     rank (Abs ifpath) < rank (Abs srcPath)) ->
  2 * rank (Abs srcPath) + 2 <= fuel ->
  (exists ast err processed' new,
     ParseSourceBytes_parse fuel src srcPath incPaths
       = Some (ast, err, processed') /\
     registered {[Abs srcPath := mkSourceFile (Base srcPath) (Abs srcPath) []]}
       processed' new /\
     duplicates err ≡ₚ
       duplicateError <$> (sourceRepeated incPaths src (Abs srcPath) ++
                           mjoin (fileRepeated incPaths <$> new))) /\
  (forall recParse fuel' srcFile srcFullPath paths st inc ifpath iSrcFile st',
     SearchPaths (Value inc) paths = Some ifpath ->
     Abs ifpath <> srcFullPath ->
     processedIncludes st !! Abs ifpath = Some iSrcFile ->
     includeStep recParse fuel' srcFile srcFullPath paths st inc = Some st' ->
     (forall recParse',
        includeStep recParse' fuel' srcFile srcFullPath paths st inc
          = Some st') /\
     iasts st' = iasts st /\
     dom (processedIncludes st') = dom (processedIncludes st) /\
     exists cycles,
       Forall (fun e => e = IncludeCycle (Abs ifpath) (Loc inc)) cycles /\
       errs st' =
         errs st ++
         (if decide (Abs ifpath ∈ seen st) then [duplicateError inc] else []) ++
         cycles).
Proof.
  intros Hloc Hrank Htop Hfuel. split; [|apply includeStep_registered_file].
  unfold ParseSourceBytes_parse. cbv zeta.
  set (top := {[Abs srcPath := mkSourceFile (Base srcPath) (Abs srcPath) []]}
              : gmap string SourceFile).
  assert (Hkeyed : keyed top) by by apply keyed_singleton.
  destruct (parseSource_total_given incPaths rank (rank (Abs srcPath)) Hloc
              Hrank fuel src (Abs srcPath) top)
    as (ast & err & processed' & Hparse & _ & _).
  - split; [done|]. split.
    + intros p sf loc. subst top. rewrite lookup_singleton.
      case_decide; [|done]. intros [= <-]. simpl. by intros ?%elem_of_nil.
    + intros p. subst top. rewrite dom_singleton, elem_of_singleton.
      by intros ->.
  - subst top. rewrite dom_singleton. set_solver.
  - done.
  - lia.
  - exists ast, err, processed'.
    destruct (parseSource_duplicates fuel incPaths src (Abs srcPath) top ast
                err processed' Hkeyed Hparse) as (_ & _ & new & Hreg & Hcount).
    exists new. done.
Qed.


End Includes.


(** *** A concrete environment: files of one directory

    A file system given as a table from full paths to the names each file
    includes, one directive per line.  The bytes of a file are its own
    path, which the parser looks up in the table. *)
Module World.

Definition root : string := "/r".

Definition join (dir name : string) : string := dir +:+ "/" +:+ name.

Section Table.

Variable table : list (string * list string).

Definition lookupFile (path : string) : option (list string) :=
  snd <$> find (fun e => bool_decide (e.1 = path)) table.

Definition ReadFile (path : string) : option string :=
  _ ← lookupFile path; Some path.

Definition yaccParse (src : string) (srcFile : string)
  : option (list Include) :=
  names ← lookupFile src;
  Some (imap (fun i name => mkInclude name (mkSourceLoc (S i) srcFile)) names).

Fixpoint SearchPaths (fname : string) (searchPaths : list string)
  : option string :=
  match searchPaths with
  | [] => None
  | dir :: rest =>
      match lookupFile (join dir fname) with
      | Some _ => Some (join dir fname)
      | None => SearchPaths fname rest
      end
  end.

Definition Abs (path : string) : string := path.
Definition Dir (path : string) : string := root.
Definition Base (path : string) : string := path.

Definition Includes (ast : list Include) : list Include := ast.
Definition merge (x y : list Include) : list Include := y ++ x.

Definition parse (fuel : nat) (srcPath : string) : option ParseResult :=
  ParseSourceBytes_parse Includes merge SearchPaths Abs Dir Base ReadFile
    yaccParse fuel srcPath srcPath [].

End Table.

(** [top] includes [b] and [c], and each of them includes [d]. *)
Definition diamond : list (string * list string) :=
  [ ("/r/top.mro", ["b.mro"; "c.mro"]);
    ("/r/b.mro", ["d.mro"]);
    ("/r/c.mro", ["d.mro"]);
    ("/r/d.mro", []) ].

(** [top] names [b] twice. *)
Definition twice : list (string * list string) :=
  [ ("/r/top.mro", ["b.mro"; "b.mro"]);
    ("/r/b.mro", []) ].

End World.


Module WorldFacts.

Import World.

Lemma yaccParse_located table b sf ast inc :
  yaccParse table b sf = Some ast -> inc ∈ Includes ast -> File (Loc inc) = sf.
Proof.
  unfold yaccParse, Includes. destruct (lookupFile table b) as [names|];
    simpl; [|done].
  intros [= <-] Hin. apply list_elem_of_lookup in Hin as [i Hi].
  rewrite list_lookup_imap in Hi.
  destruct (names !! i); simpl in Hi; [|done]. by injection Hi as <-.
Qed.

(** In [twice] and in [diamond] the top file ranks highest and [d]
    lowest. *)
Definition rank (path : string) : nat :=
  if decide (path = "/r/top.mro") then 2
  else if decide (path = "/r/d.mro") then 0
  else 1.

Ltac by_file Hread :=
  unfold ReadFile, lookupFile in Hread; simpl in Hread;
  repeat (case_bool_decide; simpl in Hread);
  [ simplify_eq .. | discriminate Hread ].

Ltac by_directive Hparse Hin Hsearch :=
  vm_compute in Hparse; simplify_eq;
  unfold Includes in Hin;
  repeat (apply elem_of_cons in Hin as [->|Hin]);
  try (by apply elem_of_nil in Hin);
  vm_compute in Hsearch; simplify_eq; vm_compute; lia.

Lemma twice_ranked path b ast inc ifpath :
  ReadFile twice path = Some b -> yaccParse twice b path = Some ast ->
  inc ∈ Includes ast ->
  SearchPaths twice (Value inc) (Dir path :: []) = Some ifpath ->
  rank (Abs ifpath) < rank path.
Proof.
  intros Hread Hparse Hin Hsearch.
  by_file Hread; by_directive Hparse Hin Hsearch.
Qed.

Lemma diamond_ranked path b ast inc ifpath :
  ReadFile diamond path = Some b -> yaccParse diamond b path = Some ast ->
  inc ∈ Includes ast ->
  SearchPaths diamond (Value inc) (Dir path :: []) = Some ifpath ->
  rank (Abs ifpath) < rank path.
Proof.
  intros Hread Hparse Hin Hsearch.
  by_file Hread; by_directive Hparse Hin Hsearch.
Qed.

(** C3 (counterexample). In [diamond] the file [d] is included twice, once
    through [b] and once through [c], two different including files of the
    subtree of [top]; the parser returns the merged tree and a nil error:
    no duplicate-include error is reported. *)
Lemma diamond_reports_no_duplicate_include :
  SearchPaths diamond "b.mro" [Dir "/r/top.mro"] = Some "/r/b.mro" /\
  SearchPaths diamond "c.mro" [Dir "/r/top.mro"] = Some "/r/c.mro" /\
  SearchPaths diamond "d.mro" [Dir "/r/b.mro"] = Some "/r/d.mro" /\
  SearchPaths diamond "d.mro" [Dir "/r/c.mro"] = Some "/r/d.mro" /\
  exists ast processed,
    parse diamond 10 "/r/top.mro" = Some (Some ast, [], processed) /\
    duplicateErrors [] = 0.
Proof.
  repeat (split; [reflexivity|]).
  eexists _, _. split; [vm_compute; reflexivity|reflexivity].
Qed.

(** C3 (witness). In [twice] the top file names [b] in two directives: the
    parser returns, and the duplicate-include errors it reports are that
    of the second directive. *)
Lemma duplicate_include_witness :
  (exists ast err processed' new,
     parse twice 6 "/r/top.mro" = Some (ast, err, processed') /\
     registered {["/r/top.mro" := mkSourceFile "/r/top.mro" "/r/top.mro" []]}
       processed' new /\
     duplicates err ≡ₚ
       duplicateError <$>
         (sourceRepeated Includes (SearchPaths twice) Abs Dir (yaccParse twice)
            [] "/r/top.mro" "/r/top.mro" ++
          mjoin (fileRepeated Includes (SearchPaths twice) Abs Dir
                   (ReadFile twice) (yaccParse twice) [] <$> new))) /\
  (forall recParse fuel' srcFile srcFullPath paths st inc ifpath iSrcFile st',
     SearchPaths twice (Value inc) paths = Some ifpath ->
     Abs ifpath <> srcFullPath ->
     processedIncludes st !! Abs ifpath = Some iSrcFile ->
     includeStep merge (SearchPaths twice) Abs (ReadFile twice) recParse fuel'
       srcFile srcFullPath paths st inc = Some st' ->
     (forall recParse',
        includeStep merge (SearchPaths twice) Abs (ReadFile twice) recParse'
          fuel' srcFile srcFullPath paths st inc = Some st') /\
     iasts st' = iasts st /\
     dom (processedIncludes st') = dom (processedIncludes st) /\
     exists cycles,
       Forall (fun e => e = IncludeCycle (Abs ifpath) (Loc inc)) cycles /\
       errs st' =
         errs st ++
         (if decide (Abs ifpath ∈ seen st) then [duplicateError inc] else []) ++
         cycles).
Proof.
  apply (duplicate_include_once_per_repeated_listing Includes merge
           (SearchPaths twice) Abs Dir Base (ReadFile twice) (yaccParse twice)
           [] rank 6 "/r/top.mro" "/r/top.mro").
  - apply yaccParse_located.
  - apply twice_ranked.
  - intros ast inc ifpath. by apply twice_ranked.
  - vm_compute. lia.
Defined.

(** What the parser reports in [twice]: the duplicate-include error of
    the directive at line 2 of the top file, with its name. *)
Example twice_reports_second_directive :
  exists ast processed,
    parse twice 6 "/r/top.mro" =
      Some (ast,
            [IncludedMultipleTimes "b.mro" (mkSourceLoc 2 "/r/top.mro")],
            processed).
Proof. eexists _, _. vm_compute. reflexivity. Qed.

End WorldFacts.


(* ===================================================================== *)
(** ** Package syntax: the declarations the runtime reads                 *)
(* ===================================================================== *)

(** Modelled from the spec: the declarations of the tree's node types are
    not among the sources.  The records below have the fields that
    [wrapStageAsPipeline] and [NewPipestance] read or set; a reference is
    "to another call's output (kind = call, call id + output id) or to a
    pipeline input (kind = self)". *)
Inductive ExpKind : Type :=
| KindSelf
| KindCall.

Record AstNode : Type := mkAstNode {
  AstNode_Loc : SourceLoc
}.

Record RefExp : Type := mkRefExp {
  RefExp_Kind : ExpKind;
  RefExp_Id : string;
  RefExp_OutputId : string
}.

Inductive Exp : Type :=
| ExpRef (ref : RefExp)
| ExpValue (value : string).

Record Param : Type := mkParam {
  Param_Id : string;
  Param_Tname : string
}.

Record BindStm : Type := mkBindStm {
  BindStm_Id : string;
  BindStm_Tname : string;
  BindStm_Exp : Exp
}.

Record BindStms : Type := mkBindStms {
  BindStms_List : list BindStm;
  BindStms_Table : gmap string BindStm
}.

Record ReturnStm : Type := mkReturnStm {
  ReturnStm_Bindings : BindStms
}.

Record CallStm : Type := mkCallStm {
  CallStm_Id : string;
  CallStm_DecId : string;
  CallStm_Bindings : BindStms
}.

Record Stage : Type := mkStage {
  Stage_Node : AstNode;
  Stage_Id : string;
  Stage_OutParams : list Param
}.

Record Pipeline : Type := mkPipeline {
  Pipeline_Node : AstNode;
  Pipeline_Calls : list CallStm;
  Pipeline_Ret : ReturnStm
}.

(** The dynamic type of a [Callable]. *)
Inductive Callable : Type :=
| CallablePipeline (p : Pipeline)
| CallableStage (s : Stage)
| CallableOther.

Record Callables : Type := mkCallables {
  Callables_Table : gmap string Callable
}.

End Syntax.


(* ===================================================================== *)
(** ** Package core: pipestance management                                *)
(* ===================================================================== *)

Module Core.

(** Modelled from the spec: the declaration of [MetadataState] is not
    among the sources; "each node has one state drawn from the closed set
    Waiting, Ready, Queued, Running, Complete, Failed, DisabledState,
    ForkWaiting". *)
Inductive MetadataState : Type :=
| Waiting
| Ready
| Queued
| Running
| Complete
| Failed
| DisabledState
| ForkWaiting.

#[global] Instance MetadataState_eq_dec : EqDecision MetadataState.
Proof. solve_decision. Defined.

(** Modelled from the spec: the declaration of [MetadataFileName] is not
    among the sources; the names below are the ones the pipestance code
    uses, out of the "fixed vocabulary" of well-known files. *)
Inductive MetadataFileName : Type :=
| JobId
| JobModeFile
| Lock
| TimestampFile
| VersionsFile
| Perf
| FinalState
| MetadataZip
| UiPort
| UuidFile.

#[global] Instance MetadataFileName_eq_dec : EqDecision MetadataFileName.
Proof. solve_decision. Defined.

#[global] Instance MetadataFileName_countable : Countable MetadataFileName.
Proof.
  refine (inj_countable'
    (fun n => match n with
              | JobId => 0 | JobModeFile => 1 | Lock => 2 | TimestampFile => 3
              | VersionsFile => 4 | Perf => 5 | FinalState => 6
              | MetadataZip => 7 | UiPort => 8 | UuidFile => 9
              end)
    (fun i => match i with
              | 0 => JobId | 1 => JobModeFile | 2 => Lock | 3 => TimestampFile
              | 4 => VersionsFile | 5 => Perf | 6 => FinalState
              | 7 => MetadataZip | 8 => UiPort | _ => UuidFile
              end) _).
  by intros [].
Defined.

(** A [*Node] is an index into the nodes of the pipestance, a
    [*Metadata] of a node an index into their metadata objects. *)
Abbreviation NodePtr := nat (only parsing).
Abbreviation MetadataPtr := nat (only parsing).

(** What the pipestance code reads of a [Node].  [metadatas] is what
    [collectMetadatas] returns and [errPaths] the error paths that
    [getFatalError] returns; both methods are not among the sources. *)
Record Node : Type := mkNode {
  fqname : string;
  state : MetadataState;
  local : bool;
  metadatas : list MetadataPtr;
  errPaths : list string
}.

(** Modelled from the spec: [Metadata] and its methods are not among the
    sources; it is "a handle to a directory and an in-memory cache" with
    an "existence test", writes, "remove" and a "read cache with explicit
    invalidation".  The directory is shared by every handle on it; the
    cache of the names present belongs to one handle, [loadCache] fills it
    from the directory, [exists] consults it, and a write or a removal
    through the handle updates both. *)
Record Metadata : Type := mkMetadata {
  contents : gset MetadataFileName
}.

Definition Directory : Type := gset MetadataFileName.

Definition loadCache (dir : Directory) (m : Metadata) : Metadata :=
  mkMetadata dir.

Definition exists_ (m : Metadata) (name : MetadataFileName) : bool :=
  bool_decide (name ∈ contents m).

Definition write (dir : Directory) (m : Metadata) (name : MetadataFileName)
  : Directory * Metadata :=
  ({[name]} ∪ dir, mkMetadata ({[name]} ∪ contents m)).

Definition remove (dir : Directory) (m : Metadata) (name : MetadataFileName)
  : Directory * Metadata :=
  (dir ∖ {[name]}, mkMetadata (contents m ∖ {[name]})).

(** Modelled from the spec: the metadata object of a node, fork or chunk,
    as far as [queryQueue] reads and writes it: the state its files stand
    for ([getState], [None] when there is none), the [JobId] file and its
    content, and the "not running" marker, with the job id it was written
    for. *)
Record NodeMetadata : Type := mkNodeMetadata {
  md_state : option MetadataState;
  md_JobId : option string;
  md_notRunning : option string
}.

(** The settings of [rt.Config] that the code at hand reads. *)
Record Config : Type := mkConfig {
  OnFinishHandler : string;
  Zip : bool;
  JobMode : string
}.

(** The pipestance, with the parts of its nodes and of the runtime that
    the code at hand reads.  [name] and [path] are those of [self.node];
    [parentName] and [parentPath] those of [self.node.parent], the top
    node, whose name is the pipestance id; [frontierNodes] is what
    [self.node.getFrontierNodes()] returns and [tree] what
    [self.node.allNodes()] returns; [hasQueueCheck] is [None] when the
    node, its runtime or the job manager is nil. *)
Record Pipestance : Type := mkPipestance {
  name : string;
  path : string;
  parentName : string;
  parentPath : string;
  config : Config;
  hasQueueCheck : option bool;
  nodes : list Node;
  nodeMetadata : list NodeMetadata;
  frontierNodes : list NodePtr;
  tree : list NodePtr;
  allNodesCache : option (list NodePtr);
  metadata : Metadata;
  directory : Directory;
  queueCheckActive : bool;
  lastQueueCheck : Z
}.

Definition setAllNodesCache (c : option (list NodePtr)) (ps : Pipestance)
  : Pipestance :=
  mkPipestance (name ps) (path ps) (parentName ps) (parentPath ps) (config ps)
    (hasQueueCheck ps) (nodes ps) (nodeMetadata ps) (frontierNodes ps)
    (tree ps) c (metadata ps) (directory ps) (queueCheckActive ps)
    (lastQueueCheck ps).

Definition setNodeMetadata (ms : list NodeMetadata) (ps : Pipestance)
  : Pipestance :=
  mkPipestance (name ps) (path ps) (parentName ps) (parentPath ps) (config ps)
    (hasQueueCheck ps) (nodes ps) ms (frontierNodes ps) (tree ps)
    (allNodesCache ps) (metadata ps) (directory ps) (queueCheckActive ps)
    (lastQueueCheck ps).

Definition setMetadata (dir : Directory) (m : Metadata) (ps : Pipestance)
  : Pipestance :=
  mkPipestance (name ps) (path ps) (parentName ps) (parentPath ps) (config ps)
    (hasQueueCheck ps) (nodes ps) (nodeMetadata ps) (frontierNodes ps)
    (tree ps) (allNodesCache ps) m dir (queueCheckActive ps)
    (lastQueueCheck ps).

Definition setQueueCheck (active : bool) (last : Z) (ps : Pipestance)
  : Pipestance :=
  mkPipestance (name ps) (path ps) (parentName ps) (parentPath ps) (config ps)
    (hasQueueCheck ps) (nodes ps) (nodeMetadata ps) (frontierNodes ps)
    (tree ps) (allNodesCache ps) (metadata ps) (directory ps) active last.

(** The nodes a list of pointers points at. *)
Definition deref (ps : Pipestance) (ptrs : list NodePtr) : list Node :=
  omap (fun p => nodes ps !! p) ptrs.

Definition getFrontierNodes (ps : Pipestance) : list Node :=
  deref ps (frontierNodes ps).

Definition GetPname (ps : Pipestance) : string := name ps.
Definition GetPsid (ps : Pipestance) : string := parentName ps.
Definition GetPath (ps : Pipestance) : string := parentPath ps.

Definition readOnly (ps : Pipestance) : bool :=
  negb (exists_ (metadata ps) Lock).

(** [allNodes] fills the cache on its first call. *)
Definition allNodes (ps : Pipestance) : list NodePtr * Pipestance :=
  match allNodesCache ps with
  | None => (tree ps, setAllNodesCache (Some (tree ps)) ps)
  | Some cached => (cached, ps)
  end.

(** [for _, node := range nodes { if node.state == s { return ... } }]:
    whether the loop returns. *)
Fixpoint findState (s : MetadataState) (ns : list Node) : bool :=
  match ns with
  | [] => false
  | node :: rest =>
      if decide (state node = s) then true else findState s rest
  end.

(** [every := true; for ... { if !ok(node.state) { every = false; break } }]:
    the value of [every] after the loop. *)
Fixpoint everyState (ok : MetadataState -> bool) (ns : list Node) : bool :=
  match ns with
  | [] => true
  | node :: rest => if ok (state node) then everyState ok rest else false
  end.

Definition GetState (ps : Pipestance) : MetadataState * Pipestance :=
  let nodes := getFrontierNodes ps in
  if findState Failed nodes then (Failed, ps)
  else if findState Running nodes then (Running, ps)
  else
    let '(all, ps1) := allNodes ps in
    if everyState (fun s => bool_decide (s = DisabledState)) (deref ps1 all)
    then (DisabledState, ps1)
    else
      let '(all, ps2) := allNodes ps1 in
      if everyState (fun s => bool_decide (s = Complete) ||
                              bool_decide (s = DisabledState))
           (deref ps2 all)
      then (Complete, ps2)
      else (ForkWaiting, ps2).

(** The nodes [GetState] ranges over in its last two loops. *)
Definition everyNode (ps : Pipestance) : list Node :=
  deref ps (allNodes ps).1.

Lemma findState_spec s ns :
  findState s ns = true <-> exists node, node ∈ ns /\ state node = s.
Proof.
  induction ns as [|n ns IH]; simpl.
  - split; [done|]. by intros (? & ?%elem_of_nil & _).
  - case_decide as Hs.
    + split; [|done]. intros _. exists n. split; [by left|done].
    + rewrite IH. split.
      * intros (m & Hin & Hm). exists m. split; [by right|done].
      * intros (m & [->|Hin]%elem_of_cons & Hm); [done|]. by exists m.
Qed.

Lemma everyState_spec ok ns :
  everyState ok ns = true <-> forall node, node ∈ ns -> ok (state node) = true.
Proof.
  induction ns as [|n ns IH]; simpl.
  - split; [|done]. by intros _ ? ?%elem_of_nil.
  - destruct (ok (state n)) eqn:Hn.
    + rewrite IH. split.
      * intros H m [->|Hin]%elem_of_cons; [done|by apply H].
      * intros H m Hin. apply H. by right.
    + split; [done|]. intros H. rewrite <- Hn. apply H. by left.
Qed.

Lemma allNodes_twice ps :
  (allNodes (allNodes ps).2).1 = (allNodes ps).1.
Proof.
  unfold allNodes. destruct (allNodesCache ps) eqn:E; simpl; [|done].
  by rewrite E.
Qed.

Lemma deref_allNodes ps ptrs :
  deref (allNodes ps).2 ptrs = deref ps ptrs.
Proof. unfold allNodes. by destruct (allNodesCache ps). Qed.

(** C1. [GetState] returns the aggregate of the rules: Failed if a
    frontier node is Failed; otherwise Running if a frontier node is
    Running; otherwise DisabledState if every node is DisabledState;
    otherwise Complete if every node is Complete or DisabledState;
    otherwise ForkWaiting. *)
Theorem GetState_aggregate (ps : Pipestance) :
  let anyFrontier s := exists node, node ∈ getFrontierNodes ps /\ state node = s in
  let everyIs (P : MetadataState -> Prop) :=
    forall node, node ∈ everyNode ps -> P (state node) in
  let r := (GetState ps).1 in
  (anyFrontier Failed -> r = Failed) /\
  (~ anyFrontier Failed -> anyFrontier Running -> r = Running) /\
  (~ anyFrontier Failed -> ~ anyFrontier Running ->
   everyIs (fun s => s = DisabledState) -> r = DisabledState) /\
  (~ anyFrontier Failed -> ~ anyFrontier Running ->
   ~ everyIs (fun s => s = DisabledState) ->
   everyIs (fun s => s = Complete \/ s = DisabledState) -> r = Complete) /\
  (~ anyFrontier Failed -> ~ anyFrontier Running ->
   ~ everyIs (fun s => s = DisabledState) ->
   ~ everyIs (fun s => s = Complete \/ s = DisabledState) ->
   r = ForkWaiting).
Proof.
  cbv zeta. unfold GetState, everyNode.
  rewrite <- !findState_spec.
  destruct (findState Failed (getFrontierNodes ps)) eqn:HF.
  { simpl. intuition congruence. }
  destruct (findState Running (getFrontierNodes ps)) eqn:HR.
  { simpl. intuition congruence. }
  rewrite (surjective_pairing (allNodes ps)).
  rewrite (surjective_pairing (allNodes (allNodes ps).2)).
  rewrite allNodes_twice, !deref_allNodes.
  set (all := deref ps (allNodes ps).1).
  assert (HD : everyState (fun s => bool_decide (s = DisabledState)) all = true
               <-> forall node, node ∈ all -> state node = DisabledState).
  { rewrite everyState_spec. apply forall_proper; intros n.
    by rewrite bool_decide_eq_true. }
  assert (HC : everyState (fun s => bool_decide (s = Complete) ||
                                    bool_decide (s = DisabledState)) all = true
               <-> forall node, node ∈ all ->
                     state node = Complete \/ state node = DisabledState).
  { rewrite everyState_spec. apply forall_proper; intros n.
    by rewrite orb_true_iff, !bool_decide_eq_true. }
  destruct (everyState (fun s => bool_decide (s = DisabledState)) all) eqn:ED.
  { assert (HD' := proj1 HD eq_refl). unfold all in *. simpl.
    intuition congruence. }
  assert (HD' : ~ forall node, node ∈ all -> state node = DisabledState).
  { intros H. apply HD in H. discriminate H. }
  destruct (everyState (fun s => bool_decide (s = Complete) ||
                                  bool_decide (s = DisabledState)) all) eqn:EC.
  { assert (HC' := proj1 HC eq_refl). unfold all in *. simpl.
    intuition congruence. }
  assert (HC' : ~ forall node, node ∈ all ->
                  state node = Complete \/ state node = DisabledState).
  { intros H. apply HC in H. discriminate H. }
  unfold all in *. simpl. intuition congruence.
Qed.

(** *** Construction: the pipeline of a top-level call *)

Import Syntax.

(** One iteration of [for _, param := range stage.OutParams.List]. *)
Definition wrapStageAsPipeline_step (stage : Stage) (returns : BindStms)
    (param : Param) : BindStms :=
  let binding :=
    mkBindStm (Param_Id param) (Param_Tname param)
      (ExpRef (mkRefExp KindCall (Stage_Id stage) (Param_Id param))) in
  mkBindStms (BindStms_List returns ++ [binding])
    (<[Param_Id param := binding]> (BindStms_Table returns)).

Definition wrapStageAsPipeline (call : CallStm) (stage : Stage) : Pipeline :=
  let returns :=
    foldl (wrapStageAsPipeline_step stage) (mkBindStms [] ∅)
      (Stage_OutParams stage) in
  mkPipeline (Stage_Node stage) [call] (mkReturnStm returns).

Inductive RuntimeError : Type :=
| NotDeclared (decId : string)
| NotStageOrPipeline (decId : string)
| ReadOnlyMode.

(** The head of [NewPipestance], "build subcall tree": the pipeline whose
    calls become the subnodes. *)
Definition NewPipestance_pipeline (callStm : CallStm) (callables : Callables)
  : RuntimeError + Pipeline :=
  match Callables_Table callables !! CallStm_DecId callStm with
  | None => inl (NotDeclared (CallStm_DecId callStm))
  | Some (CallablePipeline p) => inr p
  | Some (CallableStage s) => inr (wrapStageAsPipeline callStm s)
  | Some CallableOther => inl (NotStageOrPipeline (CallStm_DecId callStm))
  end.

(** The binding that forwards the output [param] of [stage]. *)
Definition forwards (stage : Stage) (param : Param) (binding : BindStm)
  : Prop :=
  BindStm_Id binding = Param_Id param /\
  BindStm_Exp binding =
    ExpRef (mkRefExp KindCall (Stage_Id stage) (Param_Id param)).

Lemma wrapStageAsPipeline_fold stage params returns :
  let returns' := foldl (wrapStageAsPipeline_step stage) returns params in
  (exists new, BindStms_List returns' = BindStms_List returns ++ new /\
               Forall2 (forwards stage) params new) /\
  (forall param, param ∈ params ->
     exists binding, BindStms_Table returns' !! Param_Id param = Some binding /\
                     binding ∈ BindStms_List returns' /\
                     BindStm_Exp binding =
                       ExpRef (mkRefExp KindCall (Stage_Id stage)
                                 (Param_Id param))) /\
  (forall id binding, BindStms_Table returns !! id = Some binding ->
     (forall param, param ∈ params -> Param_Id param <> id) ->
     BindStms_Table returns' !! id = Some binding).
Proof.
  revert returns. induction params as [|param params IH]; intros returns; simpl.
  - split; [|split].
    + exists []. by rewrite app_nil_r.
    + by intros ? ?%elem_of_nil.
    + done.
  - destruct (IH (wrapStageAsPipeline_step stage returns param))
      as ((new & Hlist & Hnew) & Htable & Hkeep).
    set (binding := mkBindStm (Param_Id param) (Param_Tname param)
           (ExpRef (mkRefExp KindCall (Stage_Id stage) (Param_Id param)))).
    split; [|split].
    + exists (binding :: new). split.
      * rewrite Hlist. simpl. by rewrite <- app_assoc.
      * constructor; [done|exact Hnew].
    + intros q [->|Hq]%elem_of_cons; [|by apply Htable].
      destruct (decide (Param_Id param ∈ Param_Id <$> params))
        as [(q & Hid & Hq)%list_elem_of_fmap|Hfresh].
      * destruct (Htable q Hq) as (b & Hb & Hin & Hexp).
        exists b. by rewrite Hid.
      * exists binding. split; [|split; [|done]].
        -- apply Hkeep; [simpl; by rewrite lookup_insert_eq|].
           intros q Hq Hid. apply Hfresh. apply list_elem_of_fmap.
           by exists q.
        -- rewrite Hlist. simpl. set_solver.
    + intros id b Hb Hne. apply Hkeep.
      * simpl. rewrite lookup_insert_ne; [done|]. apply Hne. by left.
      * intros q Hq. apply Hne. by right.
Qed.

(** C5. When the callee of the top-level call is a declared stage, the
    pipeline that construction builds its subnodes from is the synthetic
    one: its calls are that one call, its return bindings are, in order,
    one per output parameter of the stage, each a reference of kind call
    that names the id of the stage and the id of that output, and the
    table of the bindings maps every output id to such a binding. *)
Theorem stage_call_wrapped_in_pipeline
    (callStm : CallStm) (callables : Callables) (stage : Stage) :
  Callables_Table callables !! CallStm_DecId callStm
    = Some (CallableStage stage) ->
  exists pipeline,
    NewPipestance_pipeline callStm callables = inr pipeline /\
    pipeline = wrapStageAsPipeline callStm stage /\
    Pipeline_Calls pipeline = [callStm] /\
    Forall2 (forwards stage) (Stage_OutParams stage)
      (BindStms_List (ReturnStm_Bindings (Pipeline_Ret pipeline))) /\
    forall param, param ∈ Stage_OutParams stage ->
      exists binding,
        BindStms_Table (ReturnStm_Bindings (Pipeline_Ret pipeline))
          !! Param_Id param = Some binding /\
        binding ∈ BindStms_List (ReturnStm_Bindings (Pipeline_Ret pipeline)) /\
        BindStm_Exp binding =
          ExpRef (mkRefExp KindCall (Stage_Id stage) (Param_Id param)).
Proof.
  intros Hstage. exists (wrapStageAsPipeline callStm stage).
  unfold NewPipestance_pipeline. rewrite Hstage.
  split; [done|]. split; [done|]. split; [done|].
  unfold wrapStageAsPipeline. simpl.
  destruct (wrapStageAsPipeline_fold stage (Stage_OutParams stage)
              (mkBindStms [] ∅)) as ((new & Hlist & Hnew) & Htable & _).
  simpl in Hlist. split; [by rewrite Hlist|exact Htable].
Qed.

(** A stage with two outputs, called at top level. *)
Definition exampleStage : Stage :=
  mkStage (mkAstNode (mkSourceLoc 1 "/r/top.mro")) "SUM"
    [mkParam "total" "int"; mkParam "log" "file"].

Definition exampleCall : CallStm :=
  mkCallStm "SUM" "SUM" (mkBindStms [] ∅).

Definition exampleCallables : Callables :=
  mkCallables {["SUM" := CallableStage exampleStage]}.

Lemma stage_call_wrapped_witness :
  exists pipeline,
    NewPipestance_pipeline exampleCall exampleCallables = inr pipeline /\
    pipeline = wrapStageAsPipeline exampleCall exampleStage /\
    Pipeline_Calls pipeline = [exampleCall] /\
    Forall2 (forwards exampleStage) (Stage_OutParams exampleStage)
      (BindStms_List (ReturnStm_Bindings (Pipeline_Ret pipeline))) /\
    forall param, param ∈ Stage_OutParams exampleStage ->
      exists binding,
        BindStms_Table (ReturnStm_Bindings (Pipeline_Ret pipeline))
          !! Param_Id param = Some binding /\
        binding ∈ BindStms_List (ReturnStm_Bindings (Pipeline_Ret pipeline)) /\
        BindStm_Exp binding =
          ExpRef (mkRefExp KindCall (Stage_Id exampleStage) (Param_Id param)).
Proof.
  apply (stage_call_wrapped_in_pipeline exampleCall exampleCallables
           exampleStage).
  reflexivity.
Defined.


(** *** The onfinish hook *)

(** The value of [GetState] as a function of the nodes it reads. *)
Definition aggregate (frontier every : list Node) : MetadataState :=
  if findState Failed frontier then Failed
  else if findState Running frontier then Running
  else if everyState (fun s => bool_decide (s = DisabledState)) every
  then DisabledState
  else if everyState (fun s => bool_decide (s = Complete) ||
                               bool_decide (s = DisabledState)) every
  then Complete
  else ForkWaiting.

Lemma GetState_value ps :
  (GetState ps).1 = aggregate (getFrontierNodes ps) (everyNode ps).
Proof.
  unfold GetState, aggregate, everyNode.
  destruct (findState Failed _); [done|].
  destruct (findState Running _); [done|].
  rewrite (surjective_pairing (allNodes ps)).
  rewrite (surjective_pairing (allNodes (allNodes ps).2)).
  rewrite allNodes_twice, !deref_allNodes.
  destruct (everyState _ _); [done|]. by destruct (everyState _ _).
Qed.

Lemma allNodes_again ps : (allNodes (allNodes ps).2).2 = (allNodes ps).2.
Proof.
  unfold allNodes. destruct (allNodesCache ps) eqn:E; simpl; [|done].
  by rewrite E.
Qed.

Lemma GetState_pipestance ps :
  (GetState ps).2 = ps \/ (GetState ps).2 = (allNodes ps).2.
Proof.
  unfold GetState.
  destruct (findState Failed _); [by left|].
  destruct (findState Running _); [by left|].
  rewrite (surjective_pairing (allNodes ps)).
  rewrite (surjective_pairing (allNodes (allNodes ps).2)).
  rewrite allNodes_again.
  destruct (everyState _ _); [by right|]. destruct (everyState _ _); by right.
Qed.

Lemma allNodes_frame ps :
  getFrontierNodes (allNodes ps).2 = getFrontierNodes ps /\
  everyNode (allNodes ps).2 = everyNode ps /\
  GetPath (allNodes ps).2 = GetPath ps /\
  name (allNodes ps).2 = name ps.
Proof.
  unfold everyNode. rewrite allNodes_twice, deref_allNodes.
  unfold allNodes. by destruct (allNodesCache ps).
Qed.

Lemma GetState_frame ps :
  getFrontierNodes (GetState ps).2 = getFrontierNodes ps /\
  everyNode (GetState ps).2 = everyNode ps /\
  GetPath (GetState ps).2 = GetPath ps /\
  name (GetState ps).2 = name ps.
Proof.
  destruct (GetState_pipestance ps) as [-> | ->]; [done|].
  apply allNodes_frame.
Qed.

Lemma GetState_again ps : (GetState (GetState ps).2).1 = (GetState ps).1.
Proof.
  rewrite !GetState_value.
  destruct (GetState_frame ps) as (-> & -> & _). reflexivity.
Qed.

(** The error paths, last of the six results of [node.getFatalError()],
    of the first frontier node that is Failed. *)
Fixpoint firstFatalError (ns : list Node) : list string :=
  match ns with
  | [] => []
  | node :: rest =>
      if decide (state node = Failed) then errPaths node
      else firstFatalError rest
  end.

Definition GetFatalError (ps : Pipestance) : list string :=
  firstFatalError (getFrontierNodes ps).

(** A run of the handler: [exec.CommandContext(ctx, real_path, args...)]. *)
Record Command : Type := mkCommand {
  real_path : string;
  args : list string
}.

Section OnFinish.

(** [string(state)], [filepath.Rel] (its error dropped), [filepath.Dir]
    and [exec.LookPath] ([None] when it fails). *)
Variable stateString : MetadataState -> string.
Variable Rel : string -> string -> string.
Variable Dir : string -> string.
Variable LookPath : string -> option string.

(** The command that [OnFinishHook] runs, if any. *)
Definition OnFinishHook (ps : Pipestance) : option Command * Pipestance :=
  let exec_path := OnFinishHandler (config ps) in
  if decide (exec_path <> "") then
    let '(st, ps1) := GetState ps in
    let args := [GetPath ps; stateString st; name ps1] in
    let '(st', ps2) := GetState ps1 in
    let args :=
      if decide (st' = Failed) then
        match GetFatalError ps2 with
        | first :: _ => args ++ [Rel (Dir (GetPath ps2)) first]
        | [] => args
        end
      else args in
    match LookPath exec_path with
    | None => (None, ps2)
    | Some real_path => (Some (mkCommand real_path args), ps2)
    end
  else (None, ps).

(** C8 (amended). When an onfinish handler is configured and [LookPath]
    finds it, the hook runs the program found with the pipestance path
    first, the string of the pipestance state second, a third argument,
    and a fourth argument exactly when the state is Failed and the first
    failed frontier node has an error path: that node's first error path
    relative to the directory of the pipestance path.  When [LookPath]
    does not find the handler the hook runs nothing. *)
Theorem OnFinishHook_arguments (ps : Pipestance) :
  OnFinishHandler (config ps) <> "" ->
  match LookPath (OnFinishHandler (config ps)) with
  | None => (OnFinishHook ps).1 = None
  | Some found =>
      exists third fourth,
        (OnFinishHook ps).1 =
          Some (mkCommand found
                  ([GetPath ps; stateString (GetState ps).1; third] ++ fourth)) /\
        (((GetState ps).1 = Failed /\
          exists first rest, GetFatalError ps = first :: rest /\
            fourth = [Rel (Dir (GetPath ps)) first]) \/
         (~ ((GetState ps).1 = Failed /\ GetFatalError ps <> []) /\
          fourth = []))
  end.
Proof.
  intros Hcfg. unfold OnFinishHook.
  destruct (decide (OnFinishHandler (config ps) <> "")) as [_|]; [|done].
  rewrite (surjective_pairing (GetState ps)).
  rewrite (surjective_pairing (GetState (GetState ps).2)).
  rewrite GetState_again.
  unfold GetFatalError.
  destruct (GetState_frame (GetState ps).2) as (-> & _ & -> & _).
  destruct (GetState_frame ps) as (-> & _ & -> & _).
  destruct (LookPath _) as [found|]; [|done]. simpl.
  exists (name (GetState ps).2).
  destruct (decide ((GetState ps).1 = Failed)) as [HF|HF].
  - destruct (firstFatalError (getFrontierNodes ps)) as [|first rest] eqn:HE.
    + exists []. split; [done|]. right. split; [|done]. by intros [_ ?].
    + exists [Rel (Dir (GetPath ps)) first]. split; [done|]. left.
      split; [done|]. by exists first, rest.
  - exists []. split; [done|]. right. split; [|done]. by intros [? _].
Qed.

End OnFinish.


(** *** Stepping, killing and resetting *)

(** What [CheckMinimalSpace] returns: nil, a [*DiskSpaceError] with its
    message, or another error. *)
Inductive SpaceCheck : Type :=
| SpaceOk
| DiskSpaceError (message : string)
| SpaceCheckFailed.

Section Stepping.

(** The methods of [Node] and of the job managers that the pipestance
    calls, none of them among the sources.  Each acts on the pipestance
    and on everything the node can reach from it. *)
Variable node_step : NodePtr -> Pipestance -> bool * Pipestance.
Variable node_kill : string -> NodePtr -> Pipestance -> Pipestance.
Variable node_reset : NodePtr -> Pipestance -> option string * Pipestance.
Variable clearReadCache : MetadataPtr -> Pipestance -> Pipestance.
Variable CheckMinimalSpace : string -> SpaceCheck.
Variable refreshLocalResources : Pipestance -> Pipestance.
Variable refreshClusterResources : Pipestance -> Pipestance.

(** Whether [rt.LocalJobManager != rt.JobManager]. *)
Variable clusterJobManager : bool.

Definition KillWithMessage (message : string) (ps : Pipestance) : Pipestance :=
  if readOnly ps then ps
  else foldl (fun ps node => node_kill message node ps) ps (frontierNodes ps).

Definition StepNodes (ps : Pipestance) : bool * Pipestance :=
  if readOnly ps then (false, ps)
  else
    match CheckMinimalSpace (path ps) with
    | DiskSpaceError message => (false, KillWithMessage message ps)
    | _ =>
        let ps := refreshLocalResources ps in
        let ps := if clusterJobManager then refreshClusterResources ps
                  else ps in
        let '(hadProgress, ps) :=
          foldl (fun '(hadProgress, ps) node =>
                   let '(progress, ps) := node_step node ps in
                   (progress || hadProgress, ps))
                (false, ps) (frontierNodes ps) in
        let '(all, ps) := allNodes ps in
        let ps :=
          foldl (fun ps node =>
                   match nodes ps !! node with
                   | Some n => foldl (fun ps m => clearReadCache m ps) ps
                                 (metadatas n)
                   | None => ps
                   end) ps all in
        (hadProgress, ps)
    end.

(** The loop of [Reset] over the nodes that remain: it stops at the first
    reset that returns an error. *)
Fixpoint resetFailed (all : list NodePtr) (ps : Pipestance)
  : option string * Pipestance :=
  match all with
  | [] => (None, ps)
  | node :: rest =>
      match nodes ps !! node with
      | Some n =>
          if decide (state n = Failed) then
            match node_reset node ps with
            | (Some err, ps) => (Some err, ps)
            | (None, ps) => resetFailed rest ps
            end
          else resetFailed rest ps
      | None => resetFailed rest ps
      end
  end.

(** The error is nil, the [RuntimeError] "Pipestance is in read only
    mode.", or what a reset returned. *)
Definition Reset (ps : Pipestance)
  : option (RuntimeError + string) * Pipestance :=
  if readOnly ps then (Some (inl ReadOnlyMode), ps)
  else
    let '(all, ps) := allNodes ps in
    let '(err, ps) := resetFailed all ps in
    (inr <$> err, ps).

(** C10. On a pipestance whose Lock file does not exist the operations
    that change it do nothing, whatever stepping, killing and resetting a
    node would do: [StepNodes] returns false, [KillWithMessage] returns,
    [Reset] returns the read-only [RuntimeError], and each leaves the
    pipestance, its nodes and its directory as they were. *)
Theorem readOnly_operations_inert (ps : Pipestance) (message : string) :
  exists_ (metadata ps) Lock = false ->
  readOnly ps = true /\
  StepNodes ps = (false, ps) /\
  KillWithMessage message ps = ps /\
  Reset ps = (Some (inl ReadOnlyMode), ps).
Proof.
  intros Hlock.
  assert (Hro : readOnly ps = true) by (unfold readOnly; by rewrite Hlock).
  unfold StepNodes, KillWithMessage, Reset. by rewrite Hro.
Qed.

End Stepping.


(** *** A failed pipestance and an environment, for the examples *)

Module Example.

Definition stateString (s : MetadataState) : string :=
  match s with
  | Waiting => "waiting"
  | Ready => "ready"
  | Queued => "queued"
  | Running => "running"
  | Complete => "complete"
  | Failed => "failed"
  | DisabledState => "disabled"
  | ForkWaiting => "forkwaiting"
  end.

(** [target] without the prefix [base/], when it has that prefix. *)
Definition Rel (base target : string) : string :=
  if String.prefix (base +:+ "/") target
  then String.substring (String.length base + 1)
         (String.length target - (String.length base + 1)) target
  else "".

Definition Dir (path : string) : string := "/data".

Definition found (exec_path : string) : option string :=
  Some ("/usr/bin/" +:+ exec_path).

Definition notFound (exec_path : string) : option string := None.

(** The pipestance [HCC] of the pipeline [ANALYZER] under [/data/HCC]: one
    stage complete, one failed with an error file, both on the frontier. *)
Definition failed (lock : gset MetadataFileName) : Pipestance :=
  mkPipestance "ANALYZER" "/data/HCC/ANALYZER" "HCC" "/data/HCC"
    (mkConfig "notify.sh" true "local") (Some true)
    [ mkNode "ID.HCC.ANALYZER" Failed false [] [];
      mkNode "ID.HCC.ANALYZER.SORT" Complete false [0] [];
      mkNode "ID.HCC.ANALYZER.CALL" Failed false [1]
        ["/data/HCC/ANALYZER/CALL/fork0/_errors"] ]
    [ mkNodeMetadata (Some Complete) (Some "17") None;
      mkNodeMetadata (Some Failed) (Some "18") None ]
    [1; 2] [0; 1; 2] None (mkMetadata lock) lock false 0.

End Example.

(** C8 (counterexample). A handler is configured.  When [LookPath] does
    not find it, the hook runs nothing; and when it is found, the third
    argument is the name of the pipeline node, [ANALYZER], where the
    pipestance id is [HCC]. *)
Lemma OnFinishHook_not_run_and_third_argument :
  OnFinishHandler (config (Example.failed ∅)) = "notify.sh" /\
  (OnFinishHook Example.stateString Example.Rel Example.Dir Example.notFound
     (Example.failed ∅)).1 = None /\
  (OnFinishHook Example.stateString Example.Rel Example.Dir Example.found
     (Example.failed ∅)).1 =
    Some (mkCommand "/usr/bin/notify.sh"
            ["/data/HCC"; "failed"; "ANALYZER";
             "HCC/ANALYZER/CALL/fork0/_errors"]) /\
  GetPsid (Example.failed ∅) = "HCC" /\
  GetPname (Example.failed ∅) = "ANALYZER".
Proof. repeat split; vm_compute; reflexivity. Qed.

Lemma OnFinishHook_arguments_witness :
  match Example.found (OnFinishHandler (config (Example.failed ∅))) with
  | None =>
      (OnFinishHook Example.stateString Example.Rel Example.Dir Example.found
         (Example.failed ∅)).1 = None
  | Some found =>
      exists third fourth,
        (OnFinishHook Example.stateString Example.Rel Example.Dir
           Example.found (Example.failed ∅)).1 =
          Some (mkCommand found
                  ([GetPath (Example.failed ∅);
                    Example.stateString (GetState (Example.failed ∅)).1;
                    third] ++ fourth)) /\
        (((GetState (Example.failed ∅)).1 = Failed /\
          exists first rest,
            GetFatalError (Example.failed ∅) = first :: rest /\
            fourth = [Example.Rel (Example.Dir (GetPath (Example.failed ∅)))
                        first]) \/
         (~ ((GetState (Example.failed ∅)).1 = Failed /\
             GetFatalError (Example.failed ∅) <> []) /\
          fourth = []))
  end.
Proof.
  apply (OnFinishHook_arguments Example.stateString Example.Rel Example.Dir
           Example.found (Example.failed ∅)).
  simpl. discriminate.
Defined.


(** C10 (witness).  Stepping marks the node Running, killing and resetting
    mark it Waiting: on the read-only pipestance no node changes. *)
Definition markNode (s : MetadataState) (node : NodePtr) (ps : Pipestance)
  : Pipestance :=
  mkPipestance (name ps) (path ps) (parentName ps) (parentPath ps) (config ps)
    (hasQueueCheck ps)
    (alter (fun n => mkNode (fqname n) s (local n) (metadatas n) (errPaths n))
       node (nodes ps))
    (nodeMetadata ps) (frontierNodes ps) (tree ps) (allNodesCache ps)
    (metadata ps) (directory ps) (queueCheckActive ps) (lastQueueCheck ps).

Lemma readOnly_operations_inert_witness :
  let step node ps := (true, markNode Running node ps) in
  let kill (message : string) node ps := markNode Waiting node ps in
  let reset node ps := (@None string, markNode Waiting node ps) in
  let clear (m : MetadataPtr) (ps : Pipestance) := ps in
  let space (path : string) := SpaceOk in
  let refresh (ps : Pipestance) := ps in
  readOnly (Example.failed ∅) = true /\
  StepNodes step kill clear space refresh refresh false (Example.failed ∅)
    = (false, Example.failed ∅) /\
  KillWithMessage kill "Job was killed by Martian." (Example.failed ∅)
    = Example.failed ∅ /\
  Reset reset (Example.failed ∅)
    = (Some (inl ReadOnlyMode), Example.failed ∅).
Proof.
  cbv zeta.
  apply (readOnly_operations_inert
           (fun node ps => (true, markNode Running node ps))
           (fun _ node ps => markNode Waiting node ps)
           (fun node ps => (None, markNode Waiting node ps))
           (fun _ ps => ps) (fun _ => SpaceOk) (fun ps => ps) (fun ps => ps)
           false (Example.failed ∅) "Job was killed by Martian.").
  reflexivity.
Defined.


End Core.

(* ===================================================================== *)
(** ** Package core: the artifacts of a finished pipestance                *)
(* ===================================================================== *)

Module Artifacts.

Import Core.

(** What [Immortalize] does to the pipestance directory: a metadata file
    written, the zip created, or a zip that [CreateZip] failed to create
    (and that is removed again). *)
Inductive Effect : Type :=
| Wrote (name : MetadataFileName)
| ZipFailed.

#[global] Instance Effect_eq_dec : EqDecision Effect.
Proof. solve_decision. Defined.

Section Immortalize.

(** [util.CreateZip]: whether it succeeds, given the pipestance whose
    files it zips.  [removeMetadata] is what removing the zipped files and
    [node.removeMetadata()] leave of the metadata of the nodes; the files
    of the nodes lie below the pipestance directory, not in it. *)
Variable CreateZip : Pipestance -> bool.
Variable removeMetadata : list NodeMetadata -> list NodeMetadata.

Definition ZipMetadata (ps : Pipestance)
  : option string * list Effect * Pipestance :=
  if negb (Zip (config ps)) then (None, [], ps)
  else
    let '(_, ps) := allNodes ps in
    if CreateZip ps then
      let ps := setMetadata ({[MetadataZip]} ∪ directory ps) (metadata ps) ps in
      (None, [Wrote MetadataZip],
       setNodeMetadata (removeMetadata (nodeMetadata ps)) ps)
    else (Some "Failed to zip metadata", [ZipFailed], ps).

(** [self.metadata.Write(name, self.Serialize(name))]; serializing reads
    [self.allNodes()]. *)
Definition writeSerialized (name : MetadataFileName) (ps : Pipestance)
  : Pipestance :=
  let '(_, ps) := allNodes ps in
  let '(dir, m) := write (directory ps) (metadata ps) name in
  setMetadata dir m ps.

Definition Immortalize (force : bool) (ps : Pipestance)
  : option (RuntimeError + string) * list Effect * Pipestance :=
  if negb force && readOnly ps then (Some (inl ReadOnlyMode), [], ps)
  else
    let ps := setMetadata (directory ps)
                (loadCache (directory ps) (metadata ps)) ps in
    let '(log1, ps) :=
      if negb (exists_ (metadata ps) Perf)
      then ([Wrote Perf], writeSerialized Perf ps) else ([], ps) in
    let '(log2, ps) :=
      if negb (exists_ (metadata ps) FinalState)
      then ([Wrote FinalState], writeSerialized FinalState ps)
      else ([], ps) in
    if negb (exists_ (metadata ps) MetadataZip) then
      match ZipMetadata ps with
      | (Some err, log3, ps) =>
          (Some (inr err), log1 ++ log2 ++ log3,
           setMetadata (directory ps ∖ {[MetadataZip]}) (metadata ps) ps)
      | (None, log3, ps) => (None, log1 ++ log2 ++ log3, ps)
      end
    else (None, log1 ++ log2, ps).

(** How often [log] writes the artifact [name]. *)
Definition writes (name : MetadataFileName) (log : list Effect) : nat :=
  length (filter (fun e => e = Wrote name) log).

Lemma writes_app name log1 log2 :
  writes name (log1 ++ log2) = writes name log1 + writes name log2.
Proof. unfold writes. by rewrite filter_app, length_app. Qed.

Lemma writes_cons name e log :
  writes name (e :: log) =
  (if decide (e = Wrote name) then 1 else 0) + writes name log.
Proof. unfold writes. rewrite filter_cons. by case_decide. Qed.

Lemma writes_nil name : writes name [] = 0.
Proof. reflexivity. Qed.

Lemma allNodes_directory ps :
  directory (allNodes ps).2 = directory ps /\
  metadata (allNodes ps).2 = metadata ps /\
  config (allNodes ps).2 = config ps.
Proof. unfold allNodes. by destruct (allNodesCache ps). Qed.

Lemma writeSerialized_frame name ps :
  directory (writeSerialized name ps) = {[name]} ∪ directory ps /\
  contents (metadata (writeSerialized name ps))
    = {[name]} ∪ contents (metadata ps) /\
  config (writeSerialized name ps) = config ps.
Proof.
  unfold writeSerialized, write. destruct (allNodes_directory ps) as (Hd & Hm & Hc).
  destruct (allNodes ps) as [all ps']. simpl in *. by rewrite Hd, Hm, Hc.
Qed.

(** What one guarded write does: it writes [artifact] at most once, only
    when its file was missing, the file is there afterwards, and nothing
    leaves the directory. *)
Definition writesOnly (artifact : MetadataFileName) (log : list Effect)
    (dir dir' : Directory) : Prop :=
  dir ⊆ dir' /\
  forall name,
    writes name log <= 1 /\
    (0 < writes name log ->
     name = artifact /\ (artifact ∉ dir) /\ (artifact ∈ dir')).

Lemma writesOnly_skip artifact dir : writesOnly artifact [] dir dir.
Proof. split; [done|]. intros name. rewrite writes_nil. split; lia. Qed.

Lemma writesOnly_failed artifact dir : writesOnly artifact [ZipFailed] dir dir.
Proof.
  split; [done|]. intros name. rewrite writes_cons, writes_nil.
  case_decide; [done|]. split; lia.
Qed.

Lemma writesOnly_write artifact dir :
  artifact ∉ dir ->
  writesOnly artifact [Wrote artifact] dir ({[artifact]} ∪ dir).
Proof.
  intros Hnew. split; [set_solver|]. intros name.
  rewrite writes_cons, writes_nil. case_decide as Hname.
  - injection Hname as <-. split; [lia|]. intros _. set_solver.
  - split; lia.
Qed.

Lemma guarded_write name ps :
  contents (metadata ps) = directory ps ->
  let r := if negb (exists_ (metadata ps) name)
           then ([Wrote name], writeSerialized name ps) else ([], ps) in
  contents (metadata r.2) = directory r.2 /\
  config r.2 = config ps /\
  writesOnly name r.1 (directory ps) (directory r.2).
Proof.
  intros Hsync. cbv zeta. unfold exists_. rewrite Hsync.
  case_bool_decide as Hin; simpl.
  - split; [done|]. split; [done|]. apply writesOnly_skip.
  - destruct (writeSerialized_frame name ps) as (-> & -> & ->).
    rewrite Hsync. split; [done|]. split; [done|]. by apply writesOnly_write.
Qed.

Lemma ZipMetadata_frame ps :
  MetadataZip ∉ directory ps ->
  writesOnly MetadataZip (ZipMetadata ps).1.2 (directory ps)
    (directory (ZipMetadata ps).2) /\
  ((ZipMetadata ps).1.1 <> None ->
   directory (ZipMetadata ps).2 = directory ps).
Proof.
  intros Hzip. unfold ZipMetadata.
  destruct (Zip (config ps)); simpl; [|split; [apply writesOnly_skip|done]].
  destruct (allNodes_directory ps) as (Hd & Hm & Hc).
  destruct (allNodes ps) as [all ps']. simpl in *.
  destruct (CreateZip ps'); simpl; rewrite Hd.
  - split; [by apply writesOnly_write|done].
  - split; [apply writesOnly_failed|done].
Qed.

(** Three guarded writes of different artifacts in a row. *)
Lemma writesOnly_three a1 a2 a3 log1 log2 log3 d0 d1 d2 d3 name :
  a1 <> a2 -> a1 <> a3 -> a2 <> a3 ->
  writesOnly a1 log1 d0 d1 -> writesOnly a2 log2 d1 d2 ->
  writesOnly a3 log3 d2 d3 ->
  writes name (log1 ++ log2 ++ log3) <= 1 /\
  (name ∈ d0 -> writes name (log1 ++ log2 ++ log3) = 0) /\
  (0 < writes name (log1 ++ log2 ++ log3) -> name ∈ d3) /\
  (name ∈ d0 -> name ∈ d3).
Proof.
  intros H12 H13 H23 [Hs1 H1] [Hs2 H2] [Hs3 H3].
  rewrite !writes_app.
  destruct (H1 name) as [Hle1 Hw1], (H2 name) as [Hle2 Hw2],
    (H3 name) as [Hle3 Hw3].
  assert (Hx1 : writes name log1 = 0 \/ 0 < writes name log1) by lia.
  assert (Hx2 : writes name log2 = 0 \/ 0 < writes name log2) by lia.
  assert (Hx3 : writes name log3 = 0 \/ 0 < writes name log3) by lia.
  destruct Hx1 as [E1|P1]; [|destruct (Hw1 P1) as (-> & Hn1 & Hi1)];
    (destruct Hx2 as [E2|P2]; [|destruct (Hw2 P2) as (-> & Hn2 & Hi2)]);
    (destruct Hx3 as [E3|P3]; [|destruct (Hw3 P3) as (-> & Hn3 & Hi3)]);
    try congruence;
    (split; [lia|]);
    (split; [intros Hin; first [lia | exfalso; set_solver]|]);
    (split; [intros ?; first [lia | set_solver]|]);
    intros Hin; set_solver.
Qed.

(** One call: an artifact is written at most once, never when its file
    is in the directory, and a written artifact is in the directory
    afterwards; nothing leaves the directory. *)
Lemma Immortalize_once force ps name :
  writes name (Immortalize force ps).1.2 <= 1 /\
  (name ∈ directory ps -> writes name (Immortalize force ps).1.2 = 0) /\
  (0 < writes name (Immortalize force ps).1.2 ->
   name ∈ directory (Immortalize force ps).2) /\
  (name ∈ directory ps -> name ∈ directory (Immortalize force ps).2).
Proof.
  unfold Immortalize.
  destruct (negb force && readOnly ps);
    [simpl; rewrite writes_nil; auto with lia|].
  set (ps0 := setMetadata _ _ ps).
  assert (Hs0 : contents (metadata ps0) = directory ps0) by reflexivity.
  change (directory ps) with (directory ps0). clearbody ps0.
  destruct (guarded_write Perf ps0 Hs0) as (Hs1 & _ & Hw1).
  destruct (if negb (exists_ (metadata ps0) Perf) then _ else _)
    as [log1 ps1]. simpl in Hs1, Hw1.
  destruct (guarded_write FinalState ps1 Hs1) as (Hs2 & _ & Hw2).
  destruct (if negb (exists_ (metadata ps1) FinalState) then _ else _)
    as [log2 ps2]. simpl in Hs2, Hw2.
  unfold exists_. rewrite Hs2. case_bool_decide as Hz; simpl.
  - rewrite <- (app_nil_r log2).
    apply (writesOnly_three Perf FinalState MetadataZip log1 log2 []
             (directory ps0) (directory ps1) (directory ps2) (directory ps2));
      try done. apply writesOnly_skip.
  - destruct (ZipMetadata_frame ps2 Hz) as (Hw3 & Hfail).
    destruct (ZipMetadata ps2) as [[[err|] log3] ps3]; simpl in *.
    + rewrite Hfail in * by done.
      replace (directory ps2 ∖ {[MetadataZip]}) with (directory ps2)
        by set_solver.
      by apply (writesOnly_three Perf FinalState MetadataZip log1 log2 log3
                  (directory ps0) (directory ps1) (directory ps2)
                  (directory ps2)).
    + by apply (writesOnly_three Perf FinalState MetadataZip log1 log2 log3
                  (directory ps0) (directory ps1) (directory ps2)
                  (directory ps3)).
Qed.

(** A zip that could not be created shows in the error of the call, and
    is tried only when no zip is in the directory. *)
Lemma Immortalize_ZipFailed force ps :
  ZipFailed ∈ (Immortalize force ps).1.2 ->
  (exists msg, (Immortalize force ps).1.1 = Some (inr msg)) /\
  MetadataZip ∉ directory ps.
Proof.
  unfold Immortalize.
  destruct (negb force && readOnly ps); [by intros ?%elem_of_nil|].
  set (ps0 := setMetadata _ _ ps).
  assert (Hs0 : contents (metadata ps0) = directory ps0) by reflexivity.
  change (directory ps) with (directory ps0). clearbody ps0.
  destruct (guarded_write Perf ps0 Hs0) as (Hs1 & _ & Hsub1 & _).
  assert (Hlog1 : ZipFailed ∉
            (if negb (exists_ (metadata ps0) Perf)
             then ([Wrote Perf], writeSerialized Perf ps0) else ([], ps0)).1).
  { destruct (negb _); simpl; set_solver. }
  destruct (if negb (exists_ (metadata ps0) Perf) then _ else _)
    as [log1 ps1]. simpl in Hs1, Hsub1, Hlog1.
  destruct (guarded_write FinalState ps1 Hs1) as (Hs2 & _ & Hsub2 & _).
  assert (Hlog2 : ZipFailed ∉
            (if negb (exists_ (metadata ps1) FinalState)
             then ([Wrote FinalState], writeSerialized FinalState ps1)
             else ([], ps1)).1).
  { destruct (negb _); simpl; set_solver. }
  destruct (if negb (exists_ (metadata ps1) FinalState) then _ else _)
    as [log2 ps2]. simpl in Hs2, Hsub2, Hlog2.
  unfold exists_. rewrite Hs2. case_bool_decide as Hz; simpl.
  - rewrite elem_of_app. tauto.
  - assert (Hlog3 : ZipFailed ∈ (ZipMetadata ps2).1.2 ->
                    exists msg, (ZipMetadata ps2).1.1 = Some msg).
    { unfold ZipMetadata. destruct (Zip (config ps2)); simpl;
        [|by intros ?%elem_of_nil].
      destruct (allNodes ps2) as [all ps']. destruct (CreateZip ps'); simpl.
      - intros Hin. set_solver.
      - intros _. by eexists. }
    destruct (ZipMetadata ps2) as [[[err|] log3] ps3]; simpl in *.
    + intros _. split; [by eexists|]. set_solver.
    + rewrite !elem_of_app. intros [?|[?|Hin]]; try done.
      by destruct (Hlog3 Hin).
Qed.

(** C6. Two calls of [Immortalize] in a row, whatever [force] is in each
    and whether or not zipping succeeds, write each artifact (the
    performance summary, the final state, the zip of the metadata) at most
    once in total, and the second call neither writes nor tries to write
    an artifact whose file is in the directory when it starts.  (A zip
    that cannot be created is removed again and makes the call return the
    error; it does not count as written.) *)
Theorem Immortalize_twice_writes_once
    (force1 force2 : bool) (ps : Pipestance) (name : MetadataFileName) :
  let first := Immortalize force1 ps in
  let second := Immortalize force2 first.2 in
  writes name (first.1.2 ++ second.1.2) <= 1 /\
  (name ∈ directory first.2 ->
   writes name second.1.2 = 0 /\
   (name = MetadataZip -> ZipFailed ∉ second.1.2)) /\
  (ZipFailed ∈ first.1.2 -> exists msg, first.1.1 = Some (inr msg)) /\
  (ZipFailed ∈ second.1.2 -> exists msg, second.1.1 = Some (inr msg)).
Proof.
  cbv zeta. rewrite writes_app.
  destruct (Immortalize_once force1 ps name) as (Hle1 & _ & Hin1 & _).
  destruct (Immortalize_once force2 (Immortalize force1 ps).2 name)
    as (Hle2 & Hskip2 & _ & _).
  split; [|split; [|split]].
  - destruct (decide (0 < writes name (Immortalize force1 ps).1.2)) as [Hw|Hw].
    + rewrite (Hskip2 (Hin1 Hw)). lia.
    + lia.
  - intros Hin. split; [by apply Hskip2|]. intros -> Hfailed.
    by apply Immortalize_ZipFailed in Hfailed as [_ []].
  - intros Hfailed. by apply Immortalize_ZipFailed in Hfailed as [? _].
  - intros Hfailed. by apply Immortalize_ZipFailed in Hfailed as [? _].
Qed.

End Immortalize.



End Artifacts.

(* ===================================================================== *)
(** ** Package core: the lock of a pipestance directory                   *)
(* ===================================================================== *)

Module Locking.

Import Core.

Inductive PipestanceLockedError : Type :=
| mkPipestanceLockedError (psid : string) (path : string).

(** [Pipestance.Lock].  (Registering the signal handler that removes the
    lock file leaves the pipestance and its directory as they are.) *)
Definition Pipestance_Lock (ps : Pipestance)
  : option PipestanceLockedError * Pipestance :=
  let m := loadCache (directory ps) (metadata ps) in
  if exists_ m Lock then
    (Some (mkPipestanceLockedError (parentName ps) (GetPath ps)),
     setMetadata (directory ps) m ps)
  else
    let '(dir, m) := write (directory ps) m Lock in
    (None, setMetadata dir m ps).

(** A controller that works on the directory [dir]: another process, with
    a pipestance object and a metadata cache of its own. *)
Definition attach (dir : Directory) (ps : Pipestance) : Pipestance :=
  setMetadata dir (metadata ps) ps.

(** Two attempts, the second one made after the first one has returned. *)
Definition lockInSequence (first second : Pipestance)
  : option PipestanceLockedError * option PipestanceLockedError * Directory :=
  let '(err1, first') := Pipestance_Lock first in
  let '(err2, second') := Pipestance_Lock (attach (directory first') second) in
  (err1, err2, directory second').

(** *** Attempts that overlap

    [Pipestance.Lock] looks for the lock file and then writes it, in two
    operations on the directory.  A controller is before the test, between
    the test and the write, or has returned. *)
Inductive Progress : Type :=
| Entering
| Tested
| Returned (err : option PipestanceLockedError).

Record Controller : Type := mkController {
  pipestance : Pipestance;
  progress : Progress
}.

(** The next operation of a controller on the shared directory. *)
Definition advance (dir : Directory) (c : Controller) : Directory * Controller :=
  let ps := pipestance c in
  match progress c with
  | Entering =>
      let m := loadCache dir (metadata ps) in
      if exists_ m Lock then
        (dir, mkController (setMetadata dir m ps)
                (Returned (Some (mkPipestanceLockedError (parentName ps)
                                   (GetPath ps)))))
      else (dir, mkController (setMetadata dir m ps) Tested)
  | Tested =>
      let '(dir', m) := write dir (metadata ps) Lock in
      (dir', mkController (setMetadata dir' m ps) (Returned None))
  | Returned _ => (dir, c)
  end.

(** Two controllers under a schedule: [true] lets the first one advance,
    [false] the second. *)
Fixpoint interleave (schedule : list bool) (dir : Directory)
    (a b : Controller) : Directory * Controller * Controller :=
  match schedule with
  | [] => (dir, a, b)
  | true :: rest =>
      let '(dir', a') := advance dir a in interleave rest dir' a' b
  | false :: rest =>
      let '(dir', b') := advance dir b in interleave rest dir' a b'
  end.

(** Two operations of one controller in a row are [Pipestance.Lock]. *)
Lemma advance_twice ps :
  let '(dir1, c1) := advance (directory ps) (mkController ps Entering) in
  let '(dir2, c2) := advance dir1 c1 in
  progress c2 = Returned (Pipestance_Lock ps).1 /\
  pipestance c2 = (Pipestance_Lock ps).2 /\
  dir2 = directory (Pipestance_Lock ps).2.
Proof.
  unfold advance, Pipestance_Lock. simpl.
  destruct (exists_ (loadCache (directory ps) (metadata ps)) Lock); simpl; done.
Qed.

Lemma Pipestance_Lock_locked ps :
  (Pipestance_Lock ps).1 =
    Some (mkPipestanceLockedError (GetPsid ps) (GetPath ps)) <->
  Lock ∈ directory ps.
Proof.
  unfold Pipestance_Lock, exists_, loadCache. simpl.
  case_bool_decide; simpl; split; done.
Qed.

Lemma Pipestance_Lock_free ps :
  Lock ∉ directory ps ->
  (Pipestance_Lock ps).1 = None /\
  directory (Pipestance_Lock ps).2 = {[Lock]} ∪ directory ps.
Proof.
  intros Hfree. unfold Pipestance_Lock, exists_, loadCache. simpl.
  case_bool_decide; done.
Qed.

(** C7 (amended). [Lock] returns the locked error exactly when the lock
    file exists when it looks, and otherwise writes it and returns nil.
    So on a directory that holds no lock file, of two attempts made one
    after the other the first succeeds and writes the lock file and the
    second returns the locked error. *)
Theorem Lock_excludes_in_sequence (first second : Pipestance) :
  Lock ∉ directory first ->
  lockInSequence first second =
    (None, Some (mkPipestanceLockedError (GetPsid second) (GetPath second)),
     {[Lock]} ∪ directory first) /\
  forall ps,
    ((Pipestance_Lock ps).1 =
       Some (mkPipestanceLockedError (GetPsid ps) (GetPath ps)) <->
     Lock ∈ directory ps) /\
    ((Pipestance_Lock ps).1 = None <-> Lock ∉ directory ps) /\
    ((Pipestance_Lock ps).1 = None -> Lock ∈ directory (Pipestance_Lock ps).2).
Proof.
  intros Hfree. split.
  - unfold lockInSequence.
    destruct (Pipestance_Lock_free first Hfree) as [Herr Hdir].
    destruct (Pipestance_Lock first) as [err1 first']. simpl in *. subst err1.
    rewrite Hdir.
    assert (Hheld : Lock ∈ directory (attach ({[Lock]} ∪ directory first) second))
      by (simpl; set_solver).
    apply Pipestance_Lock_locked in Hheld.
    assert (Hdir2 : directory (Pipestance_Lock
                       (attach ({[Lock]} ∪ directory first) second)).2
                    = {[Lock]} ∪ directory first).
    { unfold Pipestance_Lock, exists_, loadCache. simpl.
      case_bool_decide as Hin; [done|]. destruct Hin. set_solver. }
    destruct (Pipestance_Lock _) as [err2 second']. simpl in *.
    by rewrite Hheld, Hdir2.
  - intros ps. split; [apply Pipestance_Lock_locked|]. split.
    + split.
      * intros Hnil Hin. apply Pipestance_Lock_locked in Hin. congruence.
      * intros Hfree'. by apply Pipestance_Lock_free.
    + unfold Pipestance_Lock, exists_, loadCache. simpl.
      case_bool_decide; simpl; [done|]. intros _. set_solver.
Qed.

Lemma Lock_excludes_in_sequence_witness :
  lockInSequence (Example.failed ∅) (Example.failed ∅) =
    (None,
     Some (mkPipestanceLockedError (GetPsid (Example.failed ∅))
             (GetPath (Example.failed ∅))),
     {[Lock]} ∪ directory (Example.failed ∅)) /\
  forall ps,
    ((Pipestance_Lock ps).1 =
       Some (mkPipestanceLockedError (GetPsid ps) (GetPath ps)) <->
     Lock ∈ directory ps) /\
    ((Pipestance_Lock ps).1 = None <-> Lock ∉ directory ps) /\
    ((Pipestance_Lock ps).1 = None -> Lock ∈ directory (Pipestance_Lock ps).2).
Proof.
  apply (Lock_excludes_in_sequence (Example.failed ∅) (Example.failed ∅)).
  simpl. apply not_elem_of_empty.
Defined.

(** C7 (counterexample). On a directory that already holds the lock file
    both of two attempts return the locked error and none succeeds; and
    when two controllers both look for the lock file before either writes
    it, both attempts succeed. *)
Lemma Lock_attempts_none_or_both_succeed :
  (exists e1 e2,
     (lockInSequence (Example.failed {[Lock]}) (Example.failed {[Lock]})).1
       = (Some e1, Some e2)) /\
  (let a := mkController (Example.failed ∅) Entering in
   let b := mkController (Example.failed ∅) Entering in
   let '(dir, a', b') := interleave [true; false; true; false] ∅ a b in
   progress a' = Returned None /\ progress b' = Returned None /\
   Lock ∈ dir).
Proof.
  split.
  - eexists _, _. vm_compute. reflexivity.
  - vm_compute. repeat split.
Qed.

End Locking.

(* ===================================================================== *)
(** ** Package core: the queue probe                                      *)
(* ===================================================================== *)

Module QueueCheck.

Import Core.

Open Scope Z_scope.

(** Times are readings of the monotonic clock and durations their
    differences, both in nanoseconds; a [time.Duration] is a 64-bit
    integer and [time.Since] saturates at its bounds. *)
Definition minDuration : Z := - 2 ^ 63.
Definition maxDuration : Z := 2 ^ 63 - 1.
Definition Minute : Z := 60 * 1000000000.
Definition QUEUE_CHECK_LIMIT : Z := 5 * Minute.

Definition Since (now t : Z) : Z :=
  Z.max minDuration (Z.min (now - t) maxDuration).

(** Modelled from the spec: [failNotRunning] is not among the sources;
    the probe "writes a not running marker into metadata, which is
    observed by the next step". *)
Definition failNotRunning (id : string) (m : NodeMetadata) : NodeMetadata :=
  mkNodeMetadata (md_state m) (md_JobId m) (Some id).

(** The variables of the loops that collect the job ids to query. *)
Record Collected : Type := mkCollected {
  metas : gset nat;
  needsQuery : gmap string nat
}.

(** The body of [for _, m := range node.collectMetadatas()]. *)
Definition collectMetadata (ps : Pipestance) (c : Collected) (m : nat)
  : Collected :=
  if decide (m ∈ metas c) then c
  else
    match nodeMetadata ps !! m with
    | Some md =>
        match md_state md, md_JobId md with
        | Some st, Some id =>
            if bool_decide (st = Queued) || bool_decide (st = Running) then
              mkCollected ({[m]} ∪ metas c)
                (if decide (id <> "") then <[id := m]> (needsQuery c)
                 else needsQuery c)
            else c
        | _, _ => c
        end
    | None => c
    end.

Definition collect (ps : Pipestance) : gmap string nat :=
  needsQuery
    (foldl (fun c node => foldl (collectMetadata ps) c (metadatas node))
       (mkCollected ∅ ∅) (getFrontierNodes ps)).

(** What the asynchronous task is started with. *)
Record Probe : Type := mkProbe {
  jobsIn : list string;
  probeNeedsQuery : gmap string nat
}.

(** [queryQueue] up to [go func]: the pipestance as the call leaves it
    and the task it starts, if any.  [now] is the reading of the clock
    under the mutex.  The calls come from the scheduling loop, one at a
    time; while one of them collects the job ids [queueCheckActive] is
    set, which any other caller would see as a probe under way. *)
Definition queryQueue (now : Z) (ps : Pipestance) : Pipestance * option Probe :=
  match hasQueueCheck ps with
  | Some true =>
      if queueCheckActive ps ||
         bool_decide (Since now (lastQueueCheck ps) < QUEUE_CHECK_LIMIT)
      then (ps, None)
      else
        let ps := setQueueCheck true (lastQueueCheck ps) ps in
        let needsQuery := collect ps in
        if decide (size needsQuery = 0%nat) then
          (setQueueCheck false (lastQueueCheck ps) ps, None)
        else
          (ps, Some (mkProbe (map_to_list needsQuery).*1 needsQuery))
  | _ => (ps, None)
  end.

(** The task up to the return of [checkQueue]: the jobs that the job
    manager does not report as queued. *)
Definition missing (queued : list string) (p : Probe) : gmap string nat :=
  foldl (fun needsQuery id => delete id needsQuery) (probeNeedsQuery p) queued.

(** [for id, m := range needsQuery { m.failNotRunning(id) }] *)
Definition failAll (needsQuery : gmap string nat) (mds : list NodeMetadata)
  : list NodeMetadata :=
  map_fold (fun id m mds => alter (failNotRunning id) m mds) mds needsQuery.

(** The task from the return of [checkQueue], which gave [queued], to its
    end; [now] is what [time.Now()] reads under the mutex. *)
Definition probeTask (queued : list string) (now : Z) (p : Probe)
    (ps : Pipestance) : Pipestance :=
  let needsQuery := missing queued p in
  let ps :=
    if negb (readOnly ps)
    then setNodeMetadata (failAll needsQuery (nodeMetadata ps)) ps
    else ps in
  setQueueCheck false now ps.

(** *** The controller and the task over time *)

(** A task that was started: it has yet to call [checkQueue], or the call
    is under way. *)
Inductive Task : Type :=
| Started (p : Probe)
| Checking (p : Probe).

(** What happens, with the reading of the clock when it does:
    [CheckHeartbeats] gets to [queryQueue]; the task at [i] calls
    [checkQueue]; the call of the task at [i] returns [queued] and the
    task runs to its end. *)
Inductive Event : Type :=
| Call (now : Z)
| ProbeCalls (i : nat) (now : Z)
| ProbeEnds (i : nat) (now : Z) (queued : list string).

Definition eventTime (e : Event) : Z :=
  match e with
  | Call now | ProbeCalls _ now | ProbeEnds _ now _ => now
  end.

(** The pipestance, the tasks in flight, the clock, and the times at
    which [checkQueue] was called, latest first. *)
Record System : Type := mkSystem {
  pipestance : Pipestance;
  tasks : list Task;
  clock : Z;
  checkQueueCalls : list Z
}.

(** One event; [None] when it cannot happen: the clock does not run
    backwards, and only a task in flight calls or ends. *)
Definition step (sys : System) (e : Event) : option System :=
  if bool_decide (eventTime e < clock sys) then None
  else
    match e with
    | Call now =>
        let '(ps, started) := queryQueue now (pipestance sys) in
        Some (mkSystem ps
                (match started with
                 | Some p => tasks sys ++ [Started p]
                 | None => tasks sys
                 end) now (checkQueueCalls sys))
    | ProbeCalls i now =>
        match tasks sys !! i with
        | Some (Started p) =>
            Some (mkSystem (pipestance sys) (<[i := Checking p]> (tasks sys))
                    now (now :: checkQueueCalls sys))
        | _ => None
        end
    | ProbeEnds i now queued =>
        match tasks sys !! i with
        | Some (Checking p) =>
            Some (mkSystem (probeTask queued now p (pipestance sys))
                    (delete i (tasks sys)) now (checkQueueCalls sys))
        | _ => None
        end
    end.

Fixpoint run (sys : System) (events : list Event) : option System :=
  match events with
  | [] => Some sys
  | e :: rest =>
      match step sys e with
      | Some sys' => run sys' rest
      | None => None
      end
  end.

(** A pipestance as construction leaves it: no task in flight, no call of
    [checkQueue] made. *)
Definition initial (ps : Pipestance) (now : Z) : System :=
  mkSystem ps [] now [].

(** *** The rate limit *)

(** Each call is five minutes or more after all earlier ones. *)
Fixpoint spaced (calls : list Z) : Prop :=
  match calls with
  | [] => True
  | t :: earlier =>
      (forall t', t' ∈ earlier -> t' + QUEUE_CHECK_LIMIT <= t) /\ spaced earlier
  end.

Definition invariant (sys : System) : Prop :=
  spaced (checkQueueCalls sys) /\
  (forall t, t ∈ checkQueueCalls sys -> t <= clock sys) /\
  match tasks sys with
  | [] =>
      queueCheckActive (pipestance sys) = false /\
      forall t, t ∈ checkQueueCalls sys -> t <= lastQueueCheck (pipestance sys)
  | [Started _] =>
      queueCheckActive (pipestance sys) = true /\
      forall t, t ∈ checkQueueCalls sys -> t + QUEUE_CHECK_LIMIT <= clock sys
  | [Checking _] => queueCheckActive (pipestance sys) = true
  | _ => False
  end.

Lemma Since_limit now t :
  Since now t < QUEUE_CHECK_LIMIT <-> now - t < QUEUE_CHECK_LIMIT.
Proof.
  unfold Since, QUEUE_CHECK_LIMIT, Minute, minDuration, maxDuration. lia.
Qed.

(** The three ways [queryQueue] ends. *)
Lemma queryQueue_cases now ps :
  (queryQueue now ps = (ps, None) /\
   (hasQueueCheck ps <> Some true \/ queueCheckActive ps = true \/
    now - lastQueueCheck ps < QUEUE_CHECK_LIMIT)) \/
  (queueCheckActive ps = false /\
   QUEUE_CHECK_LIMIT <= now - lastQueueCheck ps /\
   ((queryQueue now ps).2 = None /\
    queueCheckActive (queryQueue now ps).1 = false /\
    lastQueueCheck (queryQueue now ps).1 = lastQueueCheck ps) \/
   (queueCheckActive ps = false /\
    QUEUE_CHECK_LIMIT <= now - lastQueueCheck ps /\
    exists p, (queryQueue now ps).2 = Some p /\
    queueCheckActive (queryQueue now ps).1 = true)).
Proof.
  unfold queryQueue.
  destruct (hasQueueCheck ps) as [[|]|]; try (left; split; [done|by left]).
  destruct (queueCheckActive ps) eqn:Hactive; simpl.
  { left. split; [done|]. right. by left. }
  case_bool_decide as Hsince; simpl.
  { left. split; [done|]. right. right. by apply Since_limit. }
  assert (QUEUE_CHECK_LIMIT <= now - lastQueueCheck ps).
  { rewrite Since_limit in Hsince. lia. }
  right. case_decide; simpl.
  - left. done.
  - right. split; [done|]. split; [done|]. by eexists.
Qed.

Lemma queryQueue_skips now ps :
  queueCheckActive ps = true \/
  now - lastQueueCheck ps < QUEUE_CHECK_LIMIT ->
  queryQueue now ps = (ps, None).
Proof.
  intros Hskip. unfold queryQueue.
  destruct (hasQueueCheck ps) as [[|]|]; try done.
  destruct Hskip as [-> | Hsince]; [done|].
  apply Since_limit in Hsince. rewrite bool_decide_eq_true_2 by done.
  by rewrite orb_true_r.
Qed.

Lemma probeTask_queueCheck queued now p ps :
  queueCheckActive (probeTask queued now p ps) = false /\
  lastQueueCheck (probeTask queued now p ps) = now.
Proof. unfold probeTask. by destruct (negb (readOnly ps)). Qed.

Lemma spaced_lookup calls :
  spaced calls ->
  forall i j ti tj,
    calls !! i = Some ti -> calls !! j = Some tj -> (i < j)%nat ->
    tj + QUEUE_CHECK_LIMIT <= ti.
Proof.
  induction calls as [|t earlier IH]; intros Hsp i j ti tj Hi Hj Hlt.
  - done.
  - destruct Hsp as [Hgap Hsp]. destruct j as [|j]; [lia|].
    destruct i as [|i]; simpl in *.
    + injection Hi as <-. apply Hgap. by eapply list_elem_of_lookup_2.
    + apply (IH Hsp i j); [done|done|lia].
Qed.

Lemma step_invariant sys e sys' :
  invariant sys -> step sys e = Some sys' -> invariant sys'.
Proof.
  intros (Hsp & Hclock & Htasks). unfold step.
  case_bool_decide as Htime; [done|].
  destruct e as [now|i now|i now queued]; simpl in Htime.
  - (* a call of queryQueue *)
    destruct (queryQueue_cases now (pipestance sys))
      as [[Hq _]|[(Hact & Hlim & Hnone & Hact' & Hlast')
                 |(Hact & Hlim & p & Hsome & Hact')]].
    + rewrite Hq. intros [= <-]. split; [done|]. simpl.
      split; [intros t Ht; specialize (Hclock t Ht); lia|].
      destruct (tasks sys) as [|[p|p] [|]]; try done.
      destruct Htasks as [Hact Hgap]. split; [done|].
      intros t Ht. specialize (Hgap t Ht). lia.
    + destruct (queryQueue now (pipestance sys)) as [ps' started].
      simpl in *. subst started. intros [= <-]. split; [done|]. simpl.
      split; [intros t Ht; specialize (Hclock t Ht); lia|].
      assert (Hnil : tasks sys = []).
      { destruct (tasks sys) as [|[q|q] [|]]; try done;
          [destruct Htasks as [? _]|]; congruence. }
      rewrite Hnil in *. destruct Htasks as [_ Hlast]. split; [done|].
      intros t Ht. rewrite Hlast'. by apply Hlast.
    + destruct (queryQueue now (pipestance sys)) as [ps' started].
      simpl in *. subst started. intros [= <-]. split; [done|]. simpl.
      split; [intros t Ht; specialize (Hclock t Ht); lia|].
      assert (Hnil : tasks sys = []).
      { destruct (tasks sys) as [|[q|q] [|]]; try done;
          [destruct Htasks as [? _]|]; congruence. }
      rewrite Hnil in *. destruct Htasks as [_ Hlast]. simpl. split; [done|].
      intros t Ht. specialize (Hlast t Ht). lia.
  - (* the task calls checkQueue *)
    destruct (tasks sys) as [|[p|p] [|]] eqn:Ht; try done;
      destruct i as [|[|i]]; simpl; try done.
    intros [= <-]. simpl. destruct Htasks as [Hact Hgap].
    split; [|split; [|done]].
    + split; [|done]. intros t' Ht'. specialize (Hgap t' Ht'). lia.
    + simpl. intros t [->|Hin]%elem_of_cons; [simpl; lia|].
      specialize (Hclock t Hin). simpl. lia.
  - (* the task ends *)
    destruct (tasks sys) as [|[p|p] [|]] eqn:Ht; try done;
      destruct i as [|[|i]]; simpl; try done.
    intros [= <-].
    destruct (probeTask_queueCheck queued now p (pipestance sys)) as [Ha Hl].
    unfold invariant. cbn [pipestance tasks clock checkQueueCalls delete].
    rewrite Ha, Hl. simpl.
    split; [done|]. split; [intros t Hin; specialize (Hclock t Hin); lia|].
    split; [done|]. intros t Hin. specialize (Hclock t Hin). lia.
Qed.

Lemma run_invariant events sys sys' :
  invariant sys -> run sys events = Some sys' -> invariant sys'.
Proof.
  revert sys. induction events as [|e rest IH]; intros sys Hinv; simpl.
  - by intros [= <-].
  - destruct (step sys e) as [sys1|] eqn:Hstep; [|done].
    apply IH. by eapply step_invariant.
Qed.

(** C4. However often [queryQueue] is called, at most one probe task is in
    flight at any time, any two calls of [checkQueue] are five minutes or
    more apart, and a call of [queryQueue] made while a task is in flight,
    or less than five minutes after the last task ended, changes nothing
    and starts no task. *)
Theorem checkQueue_rate_limited
    (ps : Pipestance) (start : Z) (events : list Event) (sys : System) :
  queueCheckActive ps = false ->
  run (initial ps start) events = Some sys ->
  (length (tasks sys) <= 1)%nat /\
  (forall i j ti tj,
     checkQueueCalls sys !! i = Some ti -> checkQueueCalls sys !! j = Some tj ->
     (i < j)%nat -> tj + QUEUE_CHECK_LIMIT <= ti) /\
  (forall now,
     tasks sys <> [] \/
     now - lastQueueCheck (pipestance sys) < QUEUE_CHECK_LIMIT ->
     queryQueue now (pipestance sys) = (pipestance sys, None)).
Proof.
  intros Hidle Hrun.
  assert (Hinv : invariant sys).
  { eapply run_invariant; [|exact Hrun]. split; [done|]. split.
    - by intros t ?%elem_of_nil.
    - simpl. split; [done|]. by intros t ?%elem_of_nil. }
  destruct Hinv as (Hsp & Hclock & Htasks). split; [|split].
  - destruct (tasks sys) as [|[p|p] [|]]; simpl; try done; lia.
  - by apply spaced_lookup.
  - intros now [Hflight|Hrecent]; apply queryQueue_skips; [|by right].
    left. destruct (tasks sys) as [|[p|p] [|]]; try done. by destruct Htasks.
Qed.

(** Two jobs in the queue, as the scheduler left them. *)
Definition queued : Pipestance :=
  mkPipestance "ANALYZER" "/data/HCC/ANALYZER" "HCC" "/data/HCC"
    (mkConfig "" true "sge") (Some true)
    [ mkNode "ID.HCC.ANALYZER" Running false [] [];
      mkNode "ID.HCC.ANALYZER.SORT" Running false [0%nat] [];
      mkNode "ID.HCC.ANALYZER.CALL" Queued false [1%nat] [] ]
    [ mkNodeMetadata (Some Running) (Some "17") None;
      mkNodeMetadata (Some Queued) (Some "18") None ]
    [1; 2]%nat [0; 1; 2]%nat None (mkMetadata {[Lock]}) {[Lock]} false 0.

(** Calls of [queryQueue] one second apart, too early at first; the task
    that the third one starts calls [checkQueue] and ends, job 18 missing
    from the queue; a minute later, and again after five minutes. *)
Definition second : Z := 1000000000.

Definition heartbeats : list Event :=
  [ Call (1 * second); Call (2 * second); Call (300 * second);
    Call (301 * second); ProbeCalls 0 (302 * second); Call (303 * second);
    ProbeEnds 0 (304 * second) ["17"]; Call (364 * second);
    Call (604 * second); ProbeCalls 0 (605 * second) ].

Definition afterHeartbeats : System :=
  default (initial queued 0) (run (initial queued 0) heartbeats).

Lemma checkQueue_rate_limited_witness :
  (length (tasks afterHeartbeats) <= 1)%nat /\
  (forall i j ti tj,
     checkQueueCalls afterHeartbeats !! i = Some ti ->
     checkQueueCalls afterHeartbeats !! j = Some tj ->
     (i < j)%nat -> tj + QUEUE_CHECK_LIMIT <= ti) /\
  (forall now,
     tasks afterHeartbeats <> [] \/
     now - lastQueueCheck (pipestance afterHeartbeats) < QUEUE_CHECK_LIMIT ->
     queryQueue now (pipestance afterHeartbeats)
       = (pipestance afterHeartbeats, None)).
Proof.
  apply (checkQueue_rate_limited queued 0 heartbeats afterHeartbeats).
  - reflexivity.
  - vm_compute. reflexivity.
Defined.

Example afterHeartbeats_calls :
  checkQueueCalls afterHeartbeats = [605 * second; 302 * second] /\
  md_notRunning <$> nodeMetadata (pipestance afterHeartbeats)
    = [None; Some "18"] /\
  nodes (pipestance afterHeartbeats) = nodes queued.
Proof. vm_compute. done. Qed.

(** *** What the task changes *)

(** [md'] is [md] but for a "not running" marker written for one of the
    jobs of [needsQuery] that point at [m]. *)
Definition markedFrom (needsQuery : gmap string nat) (m : nat)
    (md md' : NodeMetadata) : Prop :=
  md_state md' = md_state md /\ md_JobId md' = md_JobId md /\
  (md_notRunning md' = md_notRunning md \/
   exists id, needsQuery !! id = Some m /\ md_notRunning md' = Some id).

Lemma failAll_frame (needsQuery : gmap string nat) (mds : list NodeMetadata) :
  length (failAll needsQuery mds) = length mds /\
  (forall m md, mds !! m = Some md ->
     exists md', failAll needsQuery mds !! m = Some md' /\
                 markedFrom needsQuery m md md') /\
  (forall id m md, needsQuery !! id = Some m -> mds !! m = Some md ->
     exists md' id', failAll needsQuery mds !! m = Some md' /\
                     needsQuery !! id' = Some m /\
                     md_notRunning md' = Some id').
Proof.
  unfold failAll.
  apply (map_fold_weak_ind
    (fun r nq =>
       length r = length mds /\
       (forall m md, mds !! m = Some md ->
          exists md', r !! m = Some md' /\ markedFrom nq m md md') /\
       (forall id m md, nq !! id = Some m -> mds !! m = Some md ->
          exists md' id', r !! m = Some md' /\ nq !! id' = Some m /\
                          md_notRunning md' = Some id'))).
  - split; [done|]. split.
    + intros m md Hm. exists md. split; [done|]. split; [done|]. split; [done|].
      by left.
    + intros id m md Hid. by rewrite lookup_empty in Hid.
  - intros i x nq r Hfresh (Hlen & Hframe & Hmarked). split; [|split].
    + by rewrite length_alter.
    + intros m md Hm. destruct (Hframe m md Hm) as (md' & Hr & Hs & Hj & Hn).
      destruct (decide (m = x)) as [->|Hne].
      * exists (failNotRunning i md'). split.
        -- rewrite list_lookup_alter_eq, Hr. done.
        -- split; [done|]. split; [done|]. right. exists i.
           by rewrite lookup_insert_eq.
      * exists md'. split.
        -- by rewrite list_lookup_alter_ne.
        -- split; [done|]. split; [done|].
           destruct Hn as [Hn|(id & Hid & Hn)]; [by left|].
           right. exists id. split; [|done].
           rewrite lookup_insert_ne; [done|]. by intros ->; rewrite Hfresh in Hid.
    + intros id m md Hid Hm.
      destruct (Hframe m md Hm) as (md' & Hr & _).
      destruct (decide (m = x)) as [->|Hne].
      * exists (failNotRunning i md'), i. split.
        -- rewrite list_lookup_alter_eq, Hr. done.
        -- by rewrite lookup_insert_eq.
      * rewrite lookup_insert in Hid. case_decide; [congruence|].
        destruct (Hmarked id m md Hid Hm) as (md'' & id' & Hr' & Hid' & Hn).
        exists md'', id'. split; [by rewrite list_lookup_alter_ne|].
        split; [|done]. rewrite lookup_insert_ne; [done|].
        by intros ->; rewrite Hfresh in Hid'.
Qed.

Lemma missing_lookup queued p id :
  missing queued p !! id =
  if decide (id ∈ queued) then None else probeNeedsQuery p !! id.
Proof.
  unfold missing. generalize (probeNeedsQuery p) as nq.
  induction queued as [|q queued IH]; intros nq; cbn [foldl].
  - destruct (decide (id ∈ [])) as [Hin|_]; [by apply elem_of_nil in Hin|done].
  - rewrite IH. destruct (decide (id = q)) as [->|Hne].
    + rewrite lookup_delete_eq.
      destruct (decide (q ∈ queued)), (decide (q ∈ q :: queued)); try done;
        exfalso; set_solver.
    + rewrite lookup_delete_ne by done.
      destruct (decide (id ∈ queued)), (decide (id ∈ q :: queued)); try done;
        exfalso; set_solver.
Qed.

(** C9. The probe task leaves every node as it is, state and all other
    attributes, as well as the frontier, the tree, the pipestance metadata
    and its directory.  It records that no probe is active and when it
    ended; and in the metadata of the nodes it changes nothing but the
    "not running" marker, which it writes, unless the pipestance is
    read-only, exactly into the metadata of the jobs that [checkQueue]
    did not report as queued. *)
Theorem probeTask_only_marks_metadata
    (queued : list string) (now : Z) (p : Probe) (ps : Pipestance) :
  let ps' := probeTask queued now p ps in
  nodes ps' = nodes ps /\
  frontierNodes ps' = frontierNodes ps /\ tree ps' = tree ps /\
  allNodesCache ps' = allNodesCache ps /\
  metadata ps' = metadata ps /\ directory ps' = directory ps /\
  (forall ptrs, deref ps' ptrs = deref ps ptrs) /\
  queueCheckActive ps' = false /\ lastQueueCheck ps' = now /\
  length (nodeMetadata ps') = length (nodeMetadata ps) /\
  (forall m md, nodeMetadata ps !! m = Some md ->
     exists md', nodeMetadata ps' !! m = Some md' /\
       md_state md' = md_state md /\ md_JobId md' = md_JobId md /\
       (md_notRunning md' = md_notRunning md \/
        exists id, probeNeedsQuery p !! id = Some m /\ (id ∉ queued) /\
                   readOnly ps = false /\ md_notRunning md' = Some id)) /\
  (forall id m md,
     probeNeedsQuery p !! id = Some m -> id ∉ queued ->
     readOnly ps = false -> nodeMetadata ps !! m = Some md ->
     exists md' id', nodeMetadata ps' !! m = Some md' /\
                     md_notRunning md' = Some id' /\ id' ∉ queued).
Proof.
  cbv zeta. unfold probeTask.
  destruct (failAll_frame (missing queued p) (nodeMetadata ps))
    as (Hlen & Hframe & Hmarked).
  destruct (readOnly ps) eqn:Hro; simpl.
  - repeat (split; [done|]). split.
    + intros m md Hm. exists md. repeat (split; [done|]). by left.
    + intros; congruence.
  - repeat (split; [done|]). split.
    + intros m md Hm. destruct (Hframe m md Hm) as (md' & Hr & Hs & Hj & Hn).
      exists md'. repeat (split; [done|]).
      destruct Hn as [Hn|(id & Hid & Hn)]; [by left|].
      right. exists id. rewrite missing_lookup in Hid.
      case_decide; [done|]. done.
    + intros id m md Hid Hq _ Hm.
      destruct (Hmarked id m md) as (md' & id' & Hr & Hid' & Hn); [|done|].
      { rewrite missing_lookup. by case_decide. }
      exists md', id'. split; [done|]. split; [done|].
      rewrite missing_lookup in Hid'. by case_decide.
Qed.

End QueueCheck.


(* ===================================================================== *)
(** ** Package syntax: the source paths of stages                         *)
(* ===================================================================== *)

Module SourcePaths.

Import Syntax.

(** The [Src] of a stage declaration: language tag, path and arguments. *)
Record SrcParam : Type := mkSrcParam {
  SrcParam_Lang : string;
  SrcParam_Path : string;
  SrcParam_Args : list string
}.

(** A stage of [global.Stages] with its [Src] field, which the record
    [Stage] above does not carry. *)
Record StageDec : Type := mkStageDec {
  StageDec_Stage : Stage;
  StageDec_Src : SrcParam
}.

(** [&AstError{global, nodable.getNode(), msg}], without the tree. *)
Record AstError : Type := mkAstError {
  AstError_Node : AstNode;
  AstError_Msg : string
}.

(** [strings.Join(elems, sep)] *)
Fixpoint Join (elems : list string) (sep : string) : string :=
  match elems with
  | [] => ""
  | [e] => e
  | e :: rest => e +:+ sep +:+ Join rest sep
  end.

Section CheckSrcPaths.

(** [util.SearchPaths] *)
Variable SearchPaths : string -> list string -> option string.

(** The error that [checkSrcPaths] appends for [stage]. *)
Definition SourcePathError (stagecodePaths : list string) (stage : StageDec)
  : AstError :=
  mkAstError (Stage_Node (StageDec_Stage stage))
    ("SourcePathError: searched (" +:+ Join stagecodePaths ", " +:+
     ") but stage source path not found '" +:+
     SrcParam_Path (StageDec_Src stage) +:+ "'").

(** The body of [for _, stage := range global.Stages]. *)
Definition checkSrcPaths_step (stagecodePaths : list string)
    (errs : list AstError) (stage : StageDec) : list AstError :=
  if bool_decide (SrcParam_Lang (StageDec_Src stage) <> "exec") &&
     bool_decide (SrcParam_Lang (StageDec_Src stage) <> "comp")
  then
    match SearchPaths (SrcParam_Path (StageDec_Src stage)) stagecodePaths with
    | Some _ => errs
    | None => errs ++ [SourcePathError stagecodePaths stage]
    end
  else errs.

(** [checkSrcPaths]; the error it returns is the list of the errors it
    collected, nil when there is none. *)
Definition checkSrcPaths (Stages : list StageDec) (stagecodePaths : list string)
  : list AstError :=
  foldl (checkSrcPaths_step stagecodePaths) [] Stages.

(** The stages whose source has to be on the search paths and is not. *)
Definition unresolved (stagecodePaths : list string) (stage : StageDec)
  : Prop :=
  SrcParam_Lang (StageDec_Src stage) <> "exec" /\
  SrcParam_Lang (StageDec_Src stage) <> "comp" /\
  SearchPaths (SrcParam_Path (StageDec_Src stage)) stagecodePaths = None.

#[local] Instance unresolved_dec paths stage : Decision (unresolved paths stage).
Proof. unfold unresolved. apply _. Defined.

Lemma checkSrcPaths_step_unresolved paths errs stage :
  checkSrcPaths_step paths errs stage =
  if decide (unresolved paths stage)
  then errs ++ [SourcePathError paths stage] else errs.
Proof.
  unfold checkSrcPaths_step.
  destruct (decide (unresolved paths stage)) as [(He & Hc & Hs)|Hn].
  - by rewrite (bool_decide_eq_true_2 _ He), (bool_decide_eq_true_2 _ Hc), Hs.
  - repeat case_bool_decide; simpl; try done.
    destruct (SearchPaths _ _) eqn:Hs; [done|]. by destruct Hn.
Qed.

Lemma checkSrcPaths_fold paths stages errs :
  foldl (checkSrcPaths_step paths) errs stages =
  errs ++ (SourcePathError paths <$> filter (unresolved paths) stages).
Proof.
  revert errs. induction stages as [|stage stages IH]; intros errs; simpl.
  - by rewrite app_nil_r.
  - rewrite IH, filter_cons, checkSrcPaths_step_unresolved.
    case_decide; [|done]. by rewrite <- app_assoc.
Qed.

(** X1. [checkSrcPaths] reports one error for each stage that is neither
    "exec" nor "comp" and whose source path is not on the search paths, in
    the order of the declarations and at the node of the stage, and no
    other error; it returns nil exactly when there is no such stage. *)
Theorem checkSrcPaths_reports_unresolved
    (Stages : list StageDec) (stagecodePaths : list string) :
  checkSrcPaths Stages stagecodePaths =
    (SourcePathError stagecodePaths <$>
     filter (unresolved stagecodePaths) Stages) /\
  (checkSrcPaths Stages stagecodePaths = [] <->
   forall stage, stage ∈ Stages ->
     SrcParam_Lang (StageDec_Src stage) = "exec" \/
     SrcParam_Lang (StageDec_Src stage) = "comp" \/
     is_Some (SearchPaths (SrcParam_Path (StageDec_Src stage)) stagecodePaths)).
Proof.
  unfold checkSrcPaths. rewrite checkSrcPaths_fold. simpl. split; [done|].
  split.
  - intros Hnil%fmap_nil_inv stage Hin.
    destruct (decide (SrcParam_Lang (StageDec_Src stage) = "exec")); [by left|].
    destruct (decide (SrcParam_Lang (StageDec_Src stage) = "comp"));
      [by right; left|].
    right; right.
    destruct (SearchPaths _ _) eqn:Hs; [done|].
    by destruct (filter_nil_not_elem_of _ _ stage Hnil).
  - intros Hall.
    destruct (filter (unresolved stagecodePaths) Stages) as [|stage rest] eqn:Hf;
      [done|].
    assert (Hin : stage ∈ filter (unresolved stagecodePaths) Stages)
      by (rewrite Hf; by left).
    apply list_elem_of_filter in Hin as [(He & Hc & Hs) Hin].
    destruct (Hall stage Hin) as [?|[?|[? Hfound]]]; congruence.
Qed.

End CheckSrcPaths.

Section StagecodePaths.

(** [filepath.Dir] *)
Variable Dir : string -> string.

(** The variables of the loop of [ParseSourceBytes] over [ast.Files]. *)
Record PathsState : Type := mkPathsState {
  stagecodePaths : list string;
  seenPaths : gset string
}.

(** The body of [for f := range ast.Files]. *)
Definition stagecodePaths_step (st : PathsState) (f : string) : PathsState :=
  let p := Dir f in
  if decide (p ∈ seenPaths st) then st
  else mkPathsState (stagecodePaths st ++ [p]) ({[p]} ∪ seenPaths st).

(** The search paths that [ParseSourceBytes] hands to [checkSrcPaths]:
    [PATH] is [filepath.SplitList(os.Getenv("PATH"))] and [Files] the keys
    of [ast.Files] in the order in which the loop meets them. *)
Definition ParseSourceBytes_stagecodePaths (PATH Files : list string)
  : list string :=
  stagecodePaths (foldl stagecodePaths_step (mkPathsState PATH ∅) Files).

Lemma stagecodePaths_fold Files st :
  exists dirs,
    stagecodePaths (foldl stagecodePaths_step st Files)
      = stagecodePaths st ++ dirs /\
    NoDup dirs /\
    (forall d, d ∈ dirs ->
       (d ∉ seenPaths st) /\ exists f, f ∈ Files /\ Dir f = d) /\
    (forall f, f ∈ Files -> Dir f ∈ seenPaths st \/ Dir f ∈ dirs).
Proof.
  revert st. induction Files as [|f Files IH]; intros st; simpl.
  - exists []. rewrite app_nil_r. split; [done|]. split; [constructor|].
    split; by intros ? ?%elem_of_nil.
  - destruct (IH (stagecodePaths_step st f)) as (dirs & Heq & Hnd & Hin & Hall).
    unfold stagecodePaths_step in *. case_decide as Hseen; simpl in *.
    + exists dirs. split; [done|]. split; [done|]. split.
      * intros d Hd. destruct (Hin d Hd) as (? & g & ? & ?).
        split; [done|]. exists g. split; [by right|done].
      * intros g [->|Hg]%elem_of_cons; [by left|by apply Hall].
    + exists (Dir f :: dirs). split; [by rewrite Heq, <- app_assoc|].
      split; [|split].
      * constructor; [|done]. intros Hd. destruct (Hin _ Hd) as [Hn _].
        set_solver.
      * intros d [->|Hd]%elem_of_cons.
        -- split; [done|]. exists f. split; [by left|done].
        -- destruct (Hin d Hd) as (Hn & g & ? & ?). split; [set_solver|].
           exists g. split; [by right|done].
      * intros g [->|Hg]%elem_of_cons; [right; by left|].
        destruct (Hall g Hg) as [Hs|Hd]; [|right; by right].
        apply elem_of_union in Hs as [->%elem_of_singleton|Hs];
          [right; by left|by left].
Qed.

(** X2. The search paths for stage sources are [PATH] followed by the
    directories of the parsed files, each directory once however many
    files lie in it; a directory that is already on [PATH] is appended
    all the same. *)
Theorem stagecodePaths_distinct_directories (PATH Files : list string) :
  exists dirs,
    ParseSourceBytes_stagecodePaths PATH Files = PATH ++ dirs /\
    NoDup dirs /\
    forall d, d ∈ dirs <-> exists f, f ∈ Files /\ Dir f = d.
Proof.
  unfold ParseSourceBytes_stagecodePaths.
  destruct (stagecodePaths_fold Files (mkPathsState PATH ∅))
    as (dirs & Heq & Hnd & Hin & Hall).
  exists dirs. split; [done|]. split; [done|]. intros d. split.
  - intros Hd. by destruct (Hin d Hd).
  - intros (f & Hf & <-). destruct (Hall f Hf) as [Hs|?]; [|done].
    by apply elem_of_empty in Hs.
Qed.

End StagecodePaths.

End SourcePaths.

(* ===================================================================== *)
(** ** Package syntax: include cycles                                     *)
(* ===================================================================== *)

Module IncludeCycles.

Import Syntax.

(** [includedFrom files src p]: the file [p] is [src] or one of the
    files that [src] is included from, directly or through others, as
    [IncludedFrom] records it. *)
Inductive includedFrom (files : gmap string SourceFile)
  : string -> string -> Prop :=
| includedFrom_here src sf :
    files !! src = Some sf -> includedFrom files src (FullPath sf)
| includedFrom_parent src sf loc p :
    files !! src = Some sf -> loc ∈ IncludedFrom sf ->
    includedFrom files (File loc) p -> includedFrom files src p.

(** What the loop of [checkIncludes] over the parents returns. *)
Lemma checkIncludes_parents fuel files fullPath inc parents acc out :
  foldl (fun acc parent =>
           errs ← acc;
           err ← checkIncludes fuel files (File parent) fullPath inc;
           Some (errs ++ err)) (Some acc) parents = Some out ->
  exists results,
    Forall2 (fun parent err =>
               checkIncludes fuel files (File parent) fullPath inc = Some err)
      parents results /\
    out = acc ++ mjoin results.
Proof.
  revert acc. induction parents as [|parent parents IH]; intros acc; simpl.
  - intros [= <-]. exists []. split; [constructor|]. by rewrite app_nil_r.
  - destruct (checkIncludes fuel files (File parent) fullPath inc)
      as [err|] eqn:Herr; simpl.
    + intros (results & Hall & ->)%IH. exists (err :: results).
      split; [by constructor|]. simpl. by rewrite <- app_assoc.
    + by rewrite foldl_checkIncludes_None.
Qed.

Lemma checkIncludes_cycles fuel files fullPath inc :
  forall src errs,
  checkIncludes fuel files src fullPath inc = Some errs ->
  (forall e, e ∈ errs -> e = IncludeCycle fullPath inc) /\
  (errs <> [] <-> includedFrom files src fullPath).
Proof.
  induction fuel as [|fuel IH]; intros src errs; simpl; [done|].
  destruct (files !! src) as [sf|] eqn:Hsf; simpl; [|done].
  case_decide as Hpath.
  - intros [= <-]. unfold If. split.
    + intros e ->%list_elem_of_singleton. by rewrite Hpath.
    + split; [|done]. intros _. rewrite Hpath. by constructor.
  - destruct (foldl _ _ _) as [out|] eqn:Hfold; simpl; [|done].
    intros [= <-]. unfold If.
    apply (checkIncludes_parents fuel files fullPath inc) in Hfold
      as (results & Hall & ->). simpl.
    split; [|split].
    + intros e (err & He & Herr)%list_elem_of_join.
      apply list_elem_of_lookup in Herr as [i Hi].
      destruct (Forall2_lookup_r _ _ _ _ _ Hall Hi) as (parent & _ & Hcheck).
      by apply (IH _ _ Hcheck).
    + intros Hne.
      destruct (mjoin results) as [|e rest] eqn:Hconcat; [done|].
      assert (He : e ∈ mjoin results) by (rewrite Hconcat; by left).
      apply list_elem_of_join in He as (err & He & Herr).
      apply list_elem_of_lookup in Herr as [i Hi].
      destruct (Forall2_lookup_r _ _ _ _ _ Hall Hi) as (parent & Hp & Hcheck).
      eapply includedFrom_parent; [done|by eapply list_elem_of_lookup_2|].
      apply (IH _ _ Hcheck). intros ->. by apply elem_of_nil in He.
    + intros Hfrom Hnil.
      inversion Hfrom as [src' sf' Hsf' Heq|src' sf' loc p Hsf' Hloc Hup];
        subst; rewrite Hsf in Hsf'; injection Hsf' as <-; [done|].
      apply list_elem_of_lookup in Hloc as [i Hi].
      destruct (Forall2_lookup_l _ _ _ _ _ Hall Hi) as (err & Herr & Hcheck).
      destruct (IH _ _ Hcheck) as [_ [_ Hne]]. apply (Hne Hup).
      destruct err as [|e rest]; [done|].
      assert (He : e ∈ mjoin results).
      { apply list_elem_of_join. exists (e :: rest).
        split; [by left|by eapply list_elem_of_lookup_2]. }
      rewrite Hnil in He. by apply elem_of_nil in He.
Qed.

(** X3. On files whose [IncludedFrom] chains rise in rank (no cycle among
    them), [checkIncludes] returns, every error it returns is the include
    cycle error for [fullPath] at [inc], and it returns an error exactly
    when [fullPath] is [src] or one of the files that [src] is included
    from. *)
Theorem checkIncludes_finds_including_files
    (rank : string -> nat) (R fuel : nat) (files : gmap string SourceFile)
    (src fullPath : string) (inc : SourceLoc) :
  ancestry rank R files -> src ∈ dom files -> R - rank src < fuel ->
  exists errs,
    checkIncludes fuel files src fullPath inc = Some errs /\
    (forall e, e ∈ errs -> e = IncludeCycle fullPath inc) /\
    (errs <> [] <-> includedFrom files src fullPath).
Proof.
  intros Hanc Hsrc Hfuel.
  destruct (checkIncludes_total rank R files fullPath inc Hanc fuel src Hsrc
              Hfuel) as [errs Herrs].
  exists errs. split; [done|]. exact (checkIncludes_cycles _ _ _ _ _ _ Herrs).
Qed.

(** [checkIncludes] returns as well when the chains rise in rank
    everywhere but at [fullPath], where the walk stops. *)
Lemma checkIncludes_total_but_target
    (rank : string -> nat) (R : nat) (files : gmap string SourceFile)
    (fullPath : string) (inc : SourceLoc) :
  keyed files ->
  (forall p sf loc, files !! p = Some sf -> p <> fullPath ->
     loc ∈ IncludedFrom sf ->
     File loc ∈ dom files /\ rank p < rank (File loc)) ->
  (forall p, p ∈ dom files -> rank p <= R) ->
  forall fuel src, src ∈ dom files -> R - rank src < fuel ->
  is_Some (checkIncludes fuel files src fullPath inc).
Proof.
  intros Hk Hanc HR. induction fuel as [|fuel IH]; intros src Hsrc Hfuel;
    [lia|].
  simpl. pose proof (HR _ Hsrc) as HRsrc.
  apply elem_of_dom in Hsrc as [sf Hsf]. rewrite Hsf. simpl.
  case_decide as Hpath; [done|].
  assert (Hne : src <> fullPath) by (rewrite <- (Hk _ _ Hsf); congruence).
  assert (Hfold : forall parents acc,
    (forall loc, loc ∈ parents -> loc ∈ IncludedFrom sf) ->
    is_Some (foldl (fun acc parent =>
                      errs ← acc;
                      err ← checkIncludes fuel files (File parent)
                              fullPath inc;
                      Some (errs ++ err)) (Some acc) parents)).
  { induction parents as [|x l IHl]; simpl; intros acc Hin; [done|].
    destruct (Hanc src sf x Hsf Hne) as [Hx Hlt]; [apply Hin; by left|].
    destruct (IH (File x) Hx) as [e He].
    { specialize (HR _ Hx). lia. }
    rewrite He. simpl. apply IHl. intros loc Hloc. apply Hin. by right. }
  destruct (Hfold (IncludedFrom sf) []) as [out Hout]; [done|].
  rewrite Hout. done.
Qed.

(** A new [IncludedFrom] entry keeps what was included from what. *)
Lemma includedFrom_insert files absPath iSrcFile loc src p :
  files !! absPath = Some iSrcFile ->
  includedFrom files src p ->
  includedFrom
    (<[absPath := mkSourceFile (FileName iSrcFile) (FullPath iSrcFile)
                    (IncludedFrom iSrcFile ++ [loc])]> files) src p.
Proof.
  intros Habs. induction 1 as [src sf Hsf|src sf l p Hsf Hl Hup IH].
  - destruct (decide (src = absPath)) as [->|Hne].
    + rewrite Habs in Hsf. injection Hsf as <-.
      change (FullPath iSrcFile) with
        (FullPath (mkSourceFile (FileName iSrcFile) (FullPath iSrcFile)
                     (IncludedFrom iSrcFile ++ [loc]))).
      constructor. by rewrite lookup_insert_eq.
    + constructor. by rewrite lookup_insert_ne.
  - destruct (decide (src = absPath)) as [->|Hne].
    + rewrite Habs in Hsf. injection Hsf as <-.
      eapply includedFrom_parent; [by rewrite lookup_insert_eq| |exact IH].
      simpl. apply elem_of_app. by left.
    + eapply includedFrom_parent; [by rewrite lookup_insert_ne|done|exact IH].
Qed.

Lemma includedFrom_registered files src p :
  keyed files -> includedFrom files src p -> is_Some (files !! p).
Proof.
  intros Hk. induction 1 as [src sf Hsf|]; [|done].
  rewrite (Hk _ _ Hsf). by eexists.
Qed.

Section Step.

Context {Ast : Type}.
Variable merge : Ast -> Ast -> Ast.
Variable SearchPaths : string -> list string -> option string.
Variable Abs : string -> string.
Variable ReadFile : string -> option string.
Variable recParse : string -> string -> list string ->
                    gmap string SourceFile -> option (@ParseResult Ast).

(** X4. As long as no cycle has been recorded among the registered
    files (every [IncludedFrom] entry points at a registered file of
    higher rank, so that the walk of [checkIncludes] comes back): when a
    directive of [srcFile] resolves to another file that [srcFile] is
    included from, directly or through others, the iteration of
    [getIncludes] for that directive returns, reports the include cycle
    at the directive, registers no file and adds no tree.  (The
    iteration records the cycle in [IncludedFrom]; nothing is claimed of
    the walks that come after.) *)
Theorem include_of_including_file_is_a_cycle
    (rank : string -> nat) (R fuel : nat) (srcFile ifpath : string)
    (incPaths : list string) (st : LoopState) (inc : Include) :
  ancestry rank R (processedIncludes st) ->
  srcFile ∈ dom (processedIncludes st) ->
  R - rank srcFile < fuel ->
  SearchPaths (Value inc) incPaths = Some ifpath ->
  Abs ifpath <> srcFile ->
  includedFrom (processedIncludes st) srcFile (Abs ifpath) ->
  exists st',
    includeStep merge SearchPaths Abs ReadFile recParse fuel srcFile srcFile
      incPaths st inc = Some st' /\
    IncludeCycle (Abs ifpath) (Loc inc) ∈ errs st' /\
    dom (processedIncludes st') = dom (processedIncludes st) /\
    iasts st' = iasts st.
Proof.
  intros (Hk & Hanc & HR) Hsrc Hfuel Hfound Hother Hfrom.
  unfold includeStep. rewrite Hfound. cbv zeta.
  set (absPath := Abs ifpath) in *.
  set (errs1 := if decide (absPath ∈ seen st) then _ else _). clearbody errs1.
  destruct (decide (absPath = srcFile)) as [|_]; [done|].
  destruct (includedFrom_registered _ _ _ Hk Hfrom) as [iSrcFile Hlook].
  rewrite Hlook.
  set (processed1 := <[absPath := _]> (processedIncludes st)).
  assert (Hdom : dom processed1 = dom (processedIncludes st)).
  { subst processed1. rewrite dom_insert_L. apply elem_of_dom_2 in Hlook.
    set_solver. }
  assert (Hk1 : keyed processed1).
  { apply keyed_insert; [done|]. simpl. by apply Hk. }
  destruct (checkIncludes_total_but_target rank R processed1 absPath (Loc inc)
              Hk1) with (fuel := fuel) (src := srcFile) as [err Herr].
  - intros p sf loc Hp Hne. subst processed1.
    rewrite lookup_insert_ne in Hp by done. rewrite Hdom. by apply Hanc.
  - intros p. rewrite Hdom. apply HR.
  - by rewrite Hdom.
  - done.
  - rewrite Herr. simpl. eexists. split; [reflexivity|]. simpl.
    split; [|done].
    destruct (checkIncludes_cycles _ _ _ _ _ _ Herr) as [Hall Hiff].
    assert (Hne : err <> []).
    { apply Hiff. by apply includedFrom_insert. }
    destruct err as [|e rest]; [done|].
    rewrite <- (Hall e) by (by left). apply elem_of_app. right. by left.
Qed.

End Step.

(** *** A file included by another: [b] from line 1 of [top] *)

Definition topFile : string := "/r/top.mro".
Definition bFile : string := "/r/b.mro".

Definition included : gmap string SourceFile :=
  <[bFile := mkSourceFile "b.mro" bFile [mkSourceLoc 1 topFile]]>
    {[topFile := mkSourceFile "top.mro" topFile []]}.

Definition rank (path : string) : nat :=
  if decide (path = topFile) then 1 else 0.

Lemma included_ancestry : ancestry rank 1 included.
Proof.
  unfold included. split; [|split].
  - apply keyed_insert; [|done]. by apply keyed_singleton.
  - intros p sf loc. rewrite lookup_insert. case_decide as Hb.
    + intros [= <-]. simpl. intros ->%list_elem_of_singleton. subst p.
      split; [|vm_compute; lia]. rewrite dom_insert, dom_singleton. simpl.
      set_solver.
    + rewrite lookup_singleton. case_decide; [|done]. intros [= <-]. simpl.
      by intros ?%elem_of_nil.
  - intros p. rewrite dom_insert, dom_singleton.
    intros [->%elem_of_singleton| ->%elem_of_singleton]%elem_of_union;
      vm_compute; lia.
Qed.

Lemma included_b_from_top : includedFrom included bFile topFile.
Proof.
  eapply includedFrom_parent; [reflexivity|by left|].
  simpl. change topFile with (FullPath (mkSourceFile "top.mro" topFile [])).
  by constructor.
Qed.

Lemma checkIncludes_finds_including_files_witness :
  exists errs,
    checkIncludes 2 included bFile topFile (mkSourceLoc 1 bFile) = Some errs /\
    (forall e, e ∈ errs -> e = IncludeCycle topFile (mkSourceLoc 1 bFile)) /\
    (errs <> [] <-> includedFrom included bFile topFile).
Proof.
  apply (checkIncludes_finds_including_files rank 1 2 included bFile topFile
           (mkSourceLoc 1 bFile)).
  - exact included_ancestry.
  - unfold included. rewrite dom_insert. set_solver.
  - vm_compute. lia.
Defined.

(** [b] includes [top] in turn. *)
Lemma include_of_including_file_witness :
  let merge (x y : list Include) := y ++ x in
  let SearchPaths (name : string) (paths : list string) :=
    Some ("/r/" +:+ name) in
  let Abs (path : string) := path in
  let ReadFile (path : string) := @None string in
  let recParse (src srcFile : string) (paths : list string)
        (processed : gmap string SourceFile) :=
    @None (@ParseResult (list Include)) in
  let st := mkLoopState [] None ∅ included in
  let inc := mkInclude "top.mro" (mkSourceLoc 1 bFile) in
  exists st',
    includeStep merge SearchPaths Abs ReadFile recParse 2 bFile bFile ["/r"]
      st inc = Some st' /\
    IncludeCycle (Abs "/r/top.mro") (Loc inc) ∈ errs st' /\
    dom (processedIncludes st') = dom (processedIncludes st) /\
    iasts st' = iasts st.
Proof.
  cbv zeta.
  apply (include_of_including_file_is_a_cycle
           (fun x y : list Include => y ++ x)
           (fun name _ => Some ("/r/" +:+ name)) (fun path => path)
           (fun _ => None) (fun _ _ _ _ => None) rank 1 2 bFile "/r/top.mro"
           ["/r"] (mkLoopState [] None ∅ included)
           (mkInclude "top.mro" (mkSourceLoc 1 bFile))).
  - exact included_ancestry.
  - simpl. unfold included. rewrite dom_insert. set_solver.
  - vm_compute. lia.
  - reflexivity.
  - done.
  - exact included_b_from_top.
Defined.

End IncludeCycles.

(* ===================================================================== *)
(** ** Package syntax: includes that cannot be found                      *)
(* ===================================================================== *)

Module MissingIncludes.

Import Syntax.

Section Loop.

Context {Ast : Type}.
Variable Includes : Ast -> list Include.
Variable merge : Ast -> Ast -> Ast.
Variable SearchPaths : string -> list string -> option string.
Variable Abs : string -> string.
Variable Dir : string -> string.
Variable Base : string -> string.
Variable ReadFile : string -> option string.
Variable yaccParse : string -> string -> option Ast.





End Loop.


Import World WorldFacts.



End MissingIncludes.


(* ===================================================================== *)
(** ** Package core: what a pipestance reports                            *)
(* ===================================================================== *)

Module Reports.

Import Core.

(** [GetFailedNodes]: the frontier nodes that are Failed, in the order of
    the frontier. *)
Definition GetFailedNodes (ps : Pipestance) : list Node :=
  foldl (fun failedNodes node =>
           if decide (state node = Failed) then failedNodes ++ [node]
           else failedNodes)
        [] (getFrontierNodes ps).

(** The frontier is a map, and every call that ranges over it does so in
    an order of its own: the pipestance as a call finds it, ranging in
    the order [order]. *)
Definition ranged (order : list NodePtr) (ps : Pipestance) : Pipestance :=
  mkPipestance (name ps) (path ps) (parentName ps) (parentPath ps) (config ps)
    (hasQueueCheck ps) (nodes ps) (nodeMetadata ps) order (tree ps)
    (allNodesCache ps) (metadata ps) (directory ps) (queueCheckActive ps)
    (lastQueueCheck ps).

Lemma GetFailedNodes_fold ns acc :
  foldl (fun failedNodes node =>
           if decide (state node = Failed) then failedNodes ++ [node]
           else failedNodes) acc ns
  = acc ++ filter (fun node => state node = Failed) ns.
Proof.
  revert acc. induction ns as [|n ns IH]; intros acc; simpl.
  - by rewrite app_nil_r.
  - rewrite IH, filter_cons. case_decide; [|done]. by rewrite <- app_assoc.
Qed.

Lemma firstFatalError_filter ns :
  firstFatalError ns =
  match filter (fun node => state node = Failed) ns with
  | [] => []
  | node :: _ => errPaths node
  end.
Proof.
  induction ns as [|n ns IH]; simpl; [done|].
  rewrite filter_cons. by case_decide.
Qed.

Lemma findState_filter s ns :
  findState s ns = true <-> filter (fun node => state node = s) ns <> [].
Proof.
  induction ns as [|n ns IH]; simpl; [done|].
  rewrite filter_cons. case_decide; [done|]. exact IH.
Qed.

(** The nodes of the frontier are the same in whatever order it is
    ranged over. *)
Lemma ranged_frontier order ps node :
  order ≡ₚ frontierNodes ps ->
  node ∈ getFrontierNodes (ranged order ps) <-> node ∈ getFrontierNodes ps.
Proof.
  intros Horder. unfold getFrontierNodes, deref. simpl.
  rewrite !list_elem_of_omap. by setoid_rewrite Horder.
Qed.

Lemma findState_members s ns ns' :
  (forall node, node ∈ ns <-> node ∈ ns') -> findState s ns = findState s ns'.
Proof.
  intros Hsame. apply eq_true_iff_eq. rewrite !findState_spec.
  by setoid_rewrite Hsame.
Qed.

Lemma GetState_ranged order ps :
  order ≡ₚ frontierNodes ps -> (GetState (ranged order ps)).1 = (GetState ps).1.
Proof.
  intros Horder. rewrite !GetState_value. unfold aggregate.
  assert (everyNode (ranged order ps) = everyNode ps) as ->.
  { unfold everyNode, allNodes. simpl. by destruct (allNodesCache ps). }
  by rewrite !(findState_members _ (getFrontierNodes (ranged order ps))
                 (getFrontierNodes ps))
    by (intros node; by apply ranged_frontier).
Qed.

(** X6. The three reports on failure agree, in whatever order each of
    them ranges over the frontier: [GetState] is Failed exactly when
    [GetFailedNodes] returns some node; [GetFailedNodes] returns the
    frontier nodes that are Failed and no other; the error paths of
    [GetFatalError] are those of one of the nodes that [GetFailedNodes]
    returns, and none when it returns no node.  The state that [GetState]
    returns does not depend on the order. *)
Theorem failure_reports_agree (ps : Pipestance)
    (first second third : list NodePtr) :
  first ≡ₚ frontierNodes ps -> second ≡ₚ frontierNodes ps ->
  third ≡ₚ frontierNodes ps ->
  let state1 := (GetState (ranged first ps)).1 in
  let failedNodes := GetFailedNodes (ranged second ps) in
  let errPaths3 := GetFatalError (ranged third ps) in
  state1 = (GetState ps).1 /\
  (state1 = Failed <-> failedNodes <> []) /\
  (forall node, node ∈ failedNodes <->
     node ∈ getFrontierNodes ps /\ state node = Failed) /\
  (failedNodes = [] -> errPaths3 = []) /\
  (failedNodes <> [] ->
   exists node, node ∈ failedNodes /\ errPaths3 = errPaths node).
Proof.
  intros Hfirst Hsecond Hthird. cbv zeta.
  unfold GetFailedNodes, GetFatalError.
  rewrite GetFailedNodes_fold, firstFatalError_filter. simpl.
  assert (Hfailed : forall node,
            node ∈ filter (fun node => state node = Failed)
                     (getFrontierNodes (ranged second ps)) <->
            node ∈ getFrontierNodes ps /\ state node = Failed).
  { intros node. rewrite list_elem_of_filter, ranged_frontier by done. tauto. }
  assert (Hthird' : forall node,
            node ∈ filter (fun node => state node = Failed)
                     (getFrontierNodes (ranged third ps)) <->
            node ∈ getFrontierNodes ps /\ state node = Failed).
  { intros node. rewrite list_elem_of_filter, ranged_frontier by done. tauto. }
  assert (Hstate : (GetState ps).1 = Failed <->
            exists node, node ∈ getFrontierNodes ps /\ state node = Failed).
  { rewrite <- findState_spec, GetState_value. unfold aggregate.
    destruct (findState Failed _); [done|].
    destruct (findState Running _); [done|].
    destruct (everyState _ _); [done|]. by destruct (everyState _ _). }
  split; [by apply GetState_ranged|]. split; [|split; [done|split]].
  - rewrite GetState_ranged, Hstate by done. split.
    + intros (node & Hnode). apply Hfailed in Hnode. intros Hnil.
      rewrite Hnil in Hnode. by apply elem_of_nil in Hnode.
    + destruct (filter _ (getFrontierNodes (ranged second ps)))
        as [|node rest] eqn:Hf; [done|]. intros _. exists node.
      apply Hfailed. by left.
  - intros Hnil.
    destruct (filter _ (getFrontierNodes (ranged third ps)))
      as [|node rest] eqn:Hf; [done|].
    assert (Hnode : node ∈ @nil Node).
    { rewrite <- Hnil. apply Hfailed, Hthird'. by left. }
    by apply elem_of_nil in Hnode.
  - intros Hsome.
    destruct (filter _ (getFrontierNodes (ranged second ps)))
      as [|failed rest] eqn:Hf; [done|].
    assert (Hfirst' : failed ∈ filter (fun node => state node = Failed)
                        (getFrontierNodes (ranged third ps))).
    { apply Hthird', Hfailed. by left. }
    destruct (filter _ (getFrontierNodes (ranged third ps)))
      as [|node rest'] eqn:Hf3; [by apply elem_of_nil in Hfirst'|].
    exists node. split; [|done]. apply Hfailed, Hthird'. by left.
Qed.

(** Two failed stages on the frontier, each with an error file. *)
Definition twoFailed : Pipestance :=
  mkPipestance "ANALYZER" "/data/HCC/ANALYZER" "HCC" "/data/HCC"
    (mkConfig "" false "local") None
    [ mkNode "ID.HCC.ANALYZER" Failed false [] [];
      mkNode "ID.HCC.ANALYZER.SORT" Failed false []
        ["/data/HCC/ANALYZER/SORT/fork0/_errors"];
      mkNode "ID.HCC.ANALYZER.CALL" Failed false []
        ["/data/HCC/ANALYZER/CALL/fork0/_errors"] ]
    [] [1; 2] [0; 1; 2] None (mkMetadata ∅) ∅ false 0.

Lemma failure_reports_agree_witness :
  let state1 := (GetState (ranged [1; 2] twoFailed)).1 in
  let failedNodes := GetFailedNodes (ranged [2; 1] twoFailed) in
  let errPaths3 := GetFatalError (ranged [2; 1] twoFailed) in
  state1 = (GetState twoFailed).1 /\
  (state1 = Failed <-> failedNodes <> []) /\
  (forall node, node ∈ failedNodes <->
     node ∈ getFrontierNodes twoFailed /\ state node = Failed) /\
  (failedNodes = [] -> errPaths3 = []) /\
  (failedNodes <> [] ->
   exists node, node ∈ failedNodes /\ errPaths3 = errPaths node).
Proof.
  apply (failure_reports_agree twoFailed [1; 2] [2; 1] [2; 1]).
  - done.
  - apply Permutation_swap.
  - apply Permutation_swap.
Defined.

(** X7. [GetState] only reads: it leaves nodes, frontier, metadata and
    queue bookkeeping as they are and at most fills the cache of
    [allNodes]; asked again it gives the same state; and it never returns
    Waiting, Ready or Queued. *)
Theorem GetState_only_reads (ps : Pipestance) :
  let ps' := (GetState ps).2 in
  nodes ps' = nodes ps /\ nodeMetadata ps' = nodeMetadata ps /\
  frontierNodes ps' = frontierNodes ps /\ tree ps' = tree ps /\
  metadata ps' = metadata ps /\ directory ps' = directory ps /\
  queueCheckActive ps' = queueCheckActive ps /\
  lastQueueCheck ps' = lastQueueCheck ps /\
  (allNodesCache ps' = allNodesCache ps \/
   allNodesCache ps = None /\ allNodesCache ps' = Some (tree ps)) /\
  GetState ps' = ((GetState ps).1, ps') /\
  (GetState ps).1 <> Waiting /\ (GetState ps).1 <> Ready /\
  (GetState ps).1 <> Queued.
Proof.
  cbv zeta.
  assert (Hfill : (allNodes ps).2 = ps \/
            allNodesCache ps = None /\
            (allNodes ps).2 = setAllNodesCache (Some (tree ps)) ps).
  { unfold allNodes. destruct (allNodesCache ps); [by left|by right]. }
  assert (Hrange : (GetState ps).1 <> Waiting /\ (GetState ps).1 <> Ready /\
                   (GetState ps).1 <> Queued).
  { rewrite GetState_value. unfold aggregate.
    destruct (findState Failed _); [done|].
    destruct (findState Running _); [done|].
    destruct (everyState _ _); [done|]. by destruct (everyState _ _). }
  assert (Hagain : GetState (GetState ps).2 = ((GetState ps).1, (GetState ps).2)).
  { rewrite (surjective_pairing (GetState (GetState ps).2)).
    rewrite GetState_again. f_equal.
    destruct (GetState_pipestance ps) as [Hsame|Hfilled].
    - by rewrite Hsame at 1.
    - destruct (GetState_pipestance (GetState ps).2) as [Hsame2|Hfilled2];
        [done|].
      rewrite Hfilled2, Hfilled. apply allNodes_again. }
  destruct (GetState_pipestance ps) as [Hsame|Hfilled].
  - rewrite Hsame in *. repeat (split; [done|]). split; [by left|done].
  - rewrite Hfilled in *.
    destruct Hfill as [Hfill|[Hnone Hfill]]; rewrite Hfill in *.
    + repeat (split; [done|]). split; [by left|done].
    + repeat (split; [done|]). split; [by right|done].
Qed.

Section Transient.

(** [node.isErrorTransient()], defined elsewhere in the package: whether
    the error of the node is transient, and its log line. *)
Variable isErrorTransient : Node -> bool * string.

(** The loop of [IsErrorTransient] over the nodes that remain. *)
Fixpoint IsErrorTransient_loop (nodes : list Node) (firstLog : string)
  : bool * string :=
  match nodes with
  | [] => (true, firstLog)
  | node :: rest =>
      let '(transient, log) := isErrorTransient node in
      if negb transient then (false, log)
      else if decide (firstLog = "") then IsErrorTransient_loop rest log
      else IsErrorTransient_loop rest firstLog
  end.

Definition IsErrorTransient (ps : Pipestance) : bool * string :=
  IsErrorTransient_loop (getFrontierNodes ps) "".

(** The first log line that is not empty. *)
Definition firstLogOf (nodes : list Node) : string :=
  default "" (head (filter (fun log => log <> "")
                      ((fun node => (isErrorTransient node).2) <$> nodes))).

Lemma IsErrorTransient_loop_spec nodes firstLog :
  let r := IsErrorTransient_loop nodes firstLog in
  (r.1 = true ->
   (forall node, node ∈ nodes -> (isErrorTransient node).1 = true) /\
   r.2 = if decide (firstLog = "") then firstLogOf nodes else firstLog) /\
  (r.1 = false ->
   exists before node after,
     nodes = before ++ node :: after /\
     (forall n, n ∈ before -> (isErrorTransient n).1 = true) /\
     isErrorTransient node = (false, r.2)).
Proof.
  revert firstLog. induction nodes as [|node rest IH]; intros firstLog; simpl.
  - split; [|done]. intros _. split; [by intros ? ?%elem_of_nil|].
    by case_decide.
  - unfold firstLogOf. simpl.
    destruct (isErrorTransient node) as [[|] log] eqn:Hnode; simpl.
    + rewrite filter_cons.
      assert (Hstep : forall first,
        let r := IsErrorTransient_loop rest first in
        (r.1 = true ->
         (forall n, n ∈ node :: rest -> (isErrorTransient n).1 = true) /\
         r.2 = if decide (first = "") then firstLogOf rest else first) /\
        (r.1 = false ->
         exists before n after,
           node :: rest = before ++ n :: after /\
           (forall m, m ∈ before -> (isErrorTransient m).1 = true) /\
           isErrorTransient n = (false, r.2))).
      { intros first. cbv zeta. destruct (IH first) as [Ht Hf]. split.
        - intros Hr. destruct (Ht Hr) as [Hall Hlog]. split; [|done].
          intros n [->|Hn]%elem_of_cons; [by rewrite Hnode|by apply Hall].
        - intros Hr. destruct (Hf Hr) as (before & n & after & -> & Hb & Hn).
          exists (node :: before), n, after. split; [done|]. split; [|done].
          intros m [->|Hm]%elem_of_cons; [by rewrite Hnode|by apply Hb]. }
      destruct (decide (firstLog = "")) as [->|Hne].
      * destruct (Hstep log) as [Ht Hf]. split; [|done].
        intros Hr. destruct (Ht Hr) as [Hall Hlog]. split; [done|].
        rewrite Hlog. unfold firstLogOf.
        destruct (decide (log = "")) as [->|Hlogne].
        -- by rewrite decide_False by (intros H; by apply H).
        -- by rewrite decide_True by done.
      * destruct (Hstep firstLog) as [Ht Hf]. split; [|done].
        intros Hr. destruct (Ht Hr) as [Hall Hlog]. split; [done|].
        rewrite Hlog. by rewrite decide_False by done.
    + split; [done|]. intros _. exists [], node, rest.
      split; [done|]. split; [by intros ? ?%elem_of_nil|done].
Qed.

(** X8. [IsErrorTransient] returns true exactly when the error of every
    frontier node is transient, with the first log line that is not empty
    (none gives the empty string); otherwise it returns false with the log
    line of the first frontier node whose error is not transient. *)
Theorem IsErrorTransient_first_permanent (ps : Pipestance) :
  ((IsErrorTransient ps).1 = true <->
   forall node, node ∈ getFrontierNodes ps ->
     (isErrorTransient node).1 = true) /\
  ((IsErrorTransient ps).1 = true ->
   (IsErrorTransient ps).2 = firstLogOf (getFrontierNodes ps)) /\
  ((IsErrorTransient ps).1 = false ->
   exists before node after,
     getFrontierNodes ps = before ++ node :: after /\
     (forall n, n ∈ before -> (isErrorTransient n).1 = true) /\
     isErrorTransient node = (false, (IsErrorTransient ps).2)).
Proof.
  unfold IsErrorTransient.
  destruct (IsErrorTransient_loop_spec (getFrontierNodes ps) "") as [Ht Hf].
  split; [|split].
  - split; [by intros Hr; apply Ht|].
    intros Hall.
    destruct (IsErrorTransient_loop _ _).1 eqn:Hr; [done|].
    destruct (Hf eq_refl) as (before & node & after & Heq & _ & Hnode).
    specialize (Hall node). rewrite Hnode in Hall. simpl in Hall.
    exfalso. enough (false = true) by done.
    apply Hall. rewrite Heq. apply elem_of_app. right. by left.
  - intros Hr. by destruct (Ht Hr) as [_ ->].
  - exact Hf.
Qed.

End Transient.

End Reports.

(* ===================================================================== *)
(** ** Package core: restarting orphaned nodes                            *)
(* ===================================================================== *)

Module Restart.

Import Core.

Section RestartRunningNodes.

(** The methods of [Node] that [LoadMetadata] and [RestartRunningNodes]
    call, defined elsewhere in the package; each acts on the pipestance
    and on what the node can reach from it. *)
Variable node_loadMetadata : NodePtr -> Pipestance -> Pipestance.
Variable node_getState : NodePtr -> Pipestance -> MetadataState.
Variable node_mkdirs : NodePtr -> Pipestance -> Pipestance.
Variable node_reset : NodePtr -> Pipestance -> option string * Pipestance.

(** The body of the second loop of [LoadMetadata]. *)
Definition LoadMetadata_state (ps : Pipestance) (node : NodePtr) : Pipestance :=
  let ps := markNode (node_getState node ps) node ps in
  match nodes ps !! node with
  | Some n =>
      if bool_decide (state n = Running) && negb (readOnly ps)
      then node_mkdirs node ps else ps
  | None => ps
  end.

Definition LoadMetadata (ps : Pipestance) : Pipestance :=
  let '(all, ps) := allNodes ps in
  let ps := foldl (fun ps node => node_loadMetadata node ps) ps all in
  let '(all, ps) := allNodes ps in
  foldl LoadMetadata_state ps all.

(** Whether [RestartRunningNodes] resets the node at [node]. *)
Definition orphanedLocal (jobMode : string) (ps : Pipestance) (node : NodePtr)
  : Prop :=
  exists n, nodes ps !! node = Some n /\ state n = Running /\
            (jobMode = "local" \/ local n = true).

(** The first loop of [RestartRunningNodes]: the nodes to reset. *)
Definition localNodes (jobMode : string) (ps : Pipestance) : list NodePtr :=
  foldl (fun localNodes node =>
           match nodes ps !! node with
           | Some n =>
               if decide (state n = Running) then
                 if bool_decide (jobMode = "local") || local n
                 then localNodes ++ [node] else localNodes
               else localNodes
           | None => localNodes
           end) [] (frontierNodes ps).

(** The second loop: it stops at the first reset that returns an error. *)
Fixpoint resetAll (localNodes : list NodePtr) (ps : Pipestance)
  : option string * Pipestance :=
  match localNodes with
  | [] => (None, ps)
  | node :: rest =>
      match node_reset node ps with
      | (Some err, ps) => (Some err, ps)
      | (None, ps) => resetAll rest ps
      end
  end.

Definition RestartRunningNodes (jobMode : string) (ps : Pipestance)
  : option (RuntimeError + string) * Pipestance :=
  if readOnly ps then (Some (inl ReadOnlyMode), ps)
  else
    let ps := LoadMetadata ps in
    let '(err, ps) := resetAll (localNodes jobMode ps) ps in
    (inr <$> err, ps).

Lemma localNodes_fold jobMode ps ptrs acc :
  exists more,
    foldl (fun localNodes node =>
             match nodes ps !! node with
             | Some n =>
                 if decide (state n = Running) then
                   if bool_decide (jobMode = "local") || local n
                   then localNodes ++ [node] else localNodes
                 else localNodes
             | None => localNodes
             end) acc ptrs = acc ++ more /\
    forall node, node ∈ more <-> node ∈ ptrs /\ orphanedLocal jobMode ps node.
Proof.
  revert acc. induction ptrs as [|p ptrs IH]; intros acc; simpl.
  - exists []. rewrite app_nil_r. split; [done|]. intros node.
    split; [by intros ?%elem_of_nil|]. by intros [?%elem_of_nil _].
  - assert (Hskip : ~ orphanedLocal jobMode ps p ->
      forall acc', exists more,
        foldl (fun localNodes node =>
                 match nodes ps !! node with
                 | Some n =>
                     if decide (state n = Running) then
                       if bool_decide (jobMode = "local") || local n
                       then localNodes ++ [node] else localNodes
                     else localNodes
                 | None => localNodes
                 end) acc' ptrs = acc' ++ more /\
        forall node, node ∈ more <->
          node ∈ p :: ptrs /\ orphanedLocal jobMode ps node).
    { intros Hno acc'. destruct (IH acc') as (more & Heq & Hin).
      exists more. split; [done|]. intros node. rewrite Hin, elem_of_cons.
      split; [tauto|]. intros [[->|?] ?]; [done|tauto]. }
    destruct (nodes ps !! p) as [n|] eqn:Hn.
    2:{ apply Hskip. intros (n & ? & _). congruence. }
    destruct (decide (state n = Running)) as [Hrun|Hrun].
    2:{ apply Hskip. intros (n' & ? & ? & _). congruence. }
    destruct (bool_decide (jobMode = "local") || local n) eqn:Hlocal.
    2:{ apply Hskip. intros (n' & Hn' & _ & Hl).
        rewrite Hn in Hn'. injection Hn' as <-.
        apply orb_false_iff in Hlocal as [Hm Hl'].
        apply bool_decide_eq_false in Hm. destruct Hl; congruence. }
    destruct (IH (acc ++ [p])) as (more & Heq & Hin).
    exists (p :: more). split; [by rewrite Heq, <- app_assoc|].
    intros node. rewrite !elem_of_cons, Hin. split.
    + intros [->|[? ?]]; [|tauto]. split; [by left|].
      exists n. split; [done|]. split; [done|].
      apply orb_true_iff in Hlocal as [Hm|Hl];
        [left; by apply bool_decide_eq_true in Hm|by right].
    + intros [[->|?] ?]; [by left|tauto].
Qed.

(** The pipestance after the resets of the nodes of [l], one after the
    other. *)
Definition afterResets (l : list NodePtr) (ps : Pipestance) : Pipestance :=
  foldl (fun ps node => (node_reset node ps).2) ps l.

(** What the reset of the node at place [i] of [l] returns, once the
    nodes before it have been reset. *)
Definition resetReturns (l : list NodePtr) (ps : Pipestance) (i : nat)
    (node : NodePtr) : option string :=
  (node_reset node (afterResets (take i l) ps)).1.

Lemma resetAll_spec l : forall ps,
  exists k, k <= length l /\
    (resetAll l ps).2 = afterResets (take k l) ps /\
    (forall i node, l !! i = Some node -> S i < k ->
       resetReturns l ps i node = None) /\
    match (resetAll l ps).1 with
    | None =>
        k = length l /\
        forall i node, l !! i = Some node -> resetReturns l ps i node = None
    | Some err =>
        exists node, 0 < k /\ l !! (k - 1) = Some node /\
                     resetReturns l ps (k - 1) node = Some err
    end.
Proof.
  unfold resetReturns. induction l as [|n rest IH]; intros ps; simpl.
  - exists 0. split; [done|]. split; [done|]. split; [by intros i node ?|].
    split; [done|]. by intros i node ?.
  - destruct (node_reset n ps) as [[err|] ps1] eqn:Hreset; simpl.
    + exists 1. split; [lia|]. simpl. rewrite Hreset. split; [done|].
      split; [intros i node _ ?; lia|]. exists n. simpl.
      split; [lia|]. split; [done|]. by rewrite Hreset.
    + destruct (IH ps1) as (k & Hk & Hstate & Hbefore & Hlast).
      exists (S k). split; [lia|]. simpl. rewrite Hreset. simpl.
      split; [done|]. split.
      * intros [|i] node; simpl.
        -- intros [= <-] _. by rewrite Hreset.
        -- intros Hnode Hi. rewrite Hreset. simpl. apply Hbefore; [done|lia].
      * destruct (resetAll rest ps1).1 as [err|].
        -- destruct Hlast as (node & Hpos & Hnode & Herr). exists node.
           split; [lia|]. replace (k - 0) with (S (k - 1)) by lia.
           simpl. by rewrite Hreset.
        -- destruct Hlast as [-> Hall]. split; [done|].
           intros [|i] node; simpl.
           ++ intros [= <-]. by rewrite Hreset.
           ++ intros Hnode. rewrite Hreset. simpl. by apply Hall.
Qed.

(** X9. [RestartRunningNodes] on a read-only pipestance returns the
    read-only error and changes nothing, without loading metadata.
    Otherwise it loads the metadata, and the nodes it sets out to reset
    are the frontier nodes that are then Running and are local or run in
    job mode "local", and no other.  It resets them one after the other
    and stops at the first reset that returns an error: for some [k] the
    pipestance is left as the resets of the first [k] of them leave it,
    the resets before the [k]-th returned nil, and it returns the error
    of the [k]-th, or nil when all of them were reset and each reset
    returned nil. *)
Theorem RestartRunningNodes_resets_local_orphans
    (jobMode : string) (ps : Pipestance) :
  (readOnly ps = true ->
   RestartRunningNodes jobMode ps = (Some (inl ReadOnlyMode), ps)) /\
  (readOnly ps = false ->
   let loaded := LoadMetadata ps in
   let targets := localNodes jobMode loaded in
   let r := RestartRunningNodes jobMode ps in
   (forall node, node ∈ targets <->
      node ∈ frontierNodes loaded /\ orphanedLocal jobMode loaded node) /\
   exists k, k <= length targets /\
     r.2 = afterResets (take k targets) loaded /\
     (forall i node, targets !! i = Some node -> S i < k ->
        resetReturns targets loaded i node = None) /\
     match r.1 with
     | None =>
         k = length targets /\
         forall i node, targets !! i = Some node ->
                        resetReturns targets loaded i node = None
     | Some e =>
         exists node err,
           0 < k /\ targets !! (k - 1) = Some node /\
           resetReturns targets loaded (k - 1) node = Some err /\
           e = inr err
     end).
Proof.
  unfold RestartRunningNodes. split; [by intros ->|]. intros ->. cbv zeta.
  destruct (localNodes_fold jobMode (LoadMetadata ps)
              (frontierNodes (LoadMetadata ps)) []) as (more & Heq & Hin).
  fold (localNodes jobMode (LoadMetadata ps)) in Heq. simpl in Heq.
  rewrite Heq. split; [done|].
  destruct (resetAll_spec more (LoadMetadata ps))
    as (k & Hk & Hstate & Hbefore & Hlast).
  exists k. destruct (resetAll more (LoadMetadata ps)) as [err ps'].
  simpl in *. split; [done|]. split; [done|]. split; [done|].
  destruct err as [err|]; simpl; [|done].
  destruct Hlast as (node & ? & ? & ?). by exists node, err.
Qed.

End RestartRunningNodes.

End Restart.

(* ===================================================================== *)
(** ** Package core: what Immortalize leaves behind                       *)
(* ===================================================================== *)

Module Posterity.

Import Core Artifacts.

Section Outcome.

Variable CreateZip : Pipestance -> bool.
Variable removeMetadata : list NodeMetadata -> list NodeMetadata.

(** What the writes in the pipestance directory leave alone. *)
Definition sameNodes (ps ps' : Pipestance) : Prop :=
  nodes ps' = nodes ps /\ nodeMetadata ps' = nodeMetadata ps /\
  config ps' = config ps.

Lemma allNodes_sameNodes ps : sameNodes ps (allNodes ps).2.
Proof. unfold allNodes, sameNodes. by destruct (allNodesCache ps). Qed.

Lemma writeSerialized_sameNodes name ps :
  sameNodes ps (writeSerialized name ps).
Proof.
  unfold writeSerialized, write. destruct (allNodes_sameNodes ps) as (? & ? & ?).
  destruct (allNodes ps) as [all ps']. by simpl in *.
Qed.

(** A guarded write leaves the file in the directory. *)
Lemma guarded_write_present name ps :
  contents (metadata ps) = directory ps ->
  let r := if negb (exists_ (metadata ps) name)
           then ([Wrote name], writeSerialized name ps) else ([], ps) in
  sameNodes ps r.2 /\ contents (metadata r.2) = directory r.2 /\
  name ∈ directory r.2 /\ directory ps ⊆ directory r.2.
Proof.
  intros Hsync. cbv zeta. unfold exists_. rewrite Hsync.
  case_bool_decide as Hin; simpl.
  - done.
  - destruct (writeSerialized_frame name ps) as (-> & -> & _).
    rewrite Hsync. split; [apply writeSerialized_sameNodes|]. split; [done|].
    set_solver.
Qed.

Lemma ZipMetadata_outcome ps :
  let r := ZipMetadata CreateZip removeMetadata ps in
  nodes r.2 = nodes ps /\ config r.2 = config ps /\
  metadata r.2 = metadata ps /\
  match r.1.1 with
  | Some _ =>
      Zip (config ps) = true /\ directory r.2 = directory ps /\
      nodeMetadata r.2 = nodeMetadata ps
  | None =>
      if Zip (config ps) then
        directory r.2 = {[MetadataZip]} ∪ directory ps /\
        nodeMetadata r.2 = removeMetadata (nodeMetadata ps)
      else r.2 = ps
  end.
Proof.
  cbv zeta. unfold ZipMetadata. destruct (Zip (config ps)); simpl; [|done].
  destruct (allNodes_sameNodes ps) as (Hn & Hm & Hc).
  destruct (allNodes_directory ps) as (Hd & Hmeta & _).
  destruct (allNodes ps) as [all ps']. simpl in *.
  destruct (CreateZip ps'); simpl; by rewrite ?Hn, ?Hm, ?Hc, ?Hd, ?Hmeta.
Qed.

(** X10. [Immortalize] without [force] on a read-only pipestance returns
    the read-only error and does nothing.  Otherwise it never returns
    that error, leaves the nodes as they are, and leaves the performance
    summary and the final state in the directory even when zipping fails;
    when it returns nil and zipping is configured the zip is in the
    directory; when zipping fails no zip is left and no metadata of a node
    has been removed; and without zipping configured it returns nil and
    removes no metadata. *)
Theorem Immortalize_outcome (force : bool) (ps : Pipestance) :
  let r := Immortalize CreateZip removeMetadata force ps in
  (force = false -> readOnly ps = true ->
   r = (Some (inl ReadOnlyMode), [], ps)) /\
  (force = true \/ readOnly ps = false ->
   nodes r.2 = nodes ps /\
   Perf ∈ directory r.2 /\ FinalState ∈ directory r.2 /\
   r.1.1 <> Some (inl ReadOnlyMode) /\
   (r.1.1 = None -> Zip (config ps) = true -> MetadataZip ∈ directory r.2) /\
   (forall msg, r.1.1 = Some (inr msg) ->
      (MetadataZip ∉ directory r.2) /\ nodeMetadata r.2 = nodeMetadata ps) /\
   (Zip (config ps) = false ->
    r.1.1 = None /\ nodeMetadata r.2 = nodeMetadata ps)).
Proof.
  cbv zeta. unfold Immortalize. split.
  - by intros -> ->.
  - intros Hguard.
    assert (negb force && readOnly ps = false) as ->.
    { destruct Hguard as [->| ->]; [done|by rewrite andb_false_r]. }
    set (ps0 := setMetadata _ _ ps).
    assert (Hs0 : contents (metadata ps0) = directory ps0) by reflexivity.
    assert (Hn0 : sameNodes ps ps0) by done.
    clearbody ps0.
    destruct (guarded_write_present Perf ps0 Hs0) as (Hn1 & Hs1 & Hp1 & Hsub1).
    destruct (if negb (exists_ (metadata ps0) Perf) then _ else _)
      as [log1 ps1]. simpl in Hn1, Hs1, Hp1, Hsub1.
    destruct (guarded_write_present FinalState ps1 Hs1)
      as (Hn2 & Hs2 & Hp2 & Hsub2).
    destruct (if negb (exists_ (metadata ps1) FinalState) then _ else _)
      as [log2 ps2]. simpl in Hn2, Hs2, Hp2, Hsub2.
    destruct Hn0 as (Hn0 & Hm0 & Hc0), Hn1 as (Hn1 & Hm1 & Hc1),
      Hn2 as (Hn2 & Hm2 & Hc2).
    assert (Hnodes : nodes ps2 = nodes ps) by congruence.
    assert (Hmeta : nodeMetadata ps2 = nodeMetadata ps) by congruence.
    assert (Hconf : config ps2 = config ps) by congruence.
    assert (Hperf : Perf ∈ directory ps2) by set_solver.
    unfold exists_. rewrite Hs2. case_bool_decide as Hz; simpl.
    + split; [done|]. split; [done|]. split; [done|]. split; [done|].
      split; [done|]. split; [done|]. intros HZ.
      split; [done|]. done.
    + pose proof (ZipMetadata_outcome ps2) as Hzip. cbv zeta in Hzip.
      destruct (ZipMetadata CreateZip removeMetadata ps2)
        as [[[err|] log3] ps3]; simpl in *;
        destruct Hzip as (Hn3 & Hc3 & Hm3 & Hzip).
      * destruct Hzip as (HZ & Hd3 & Hnm3). rewrite Hd3.
        split; [congruence|]. split; [set_solver|]. split; [set_solver|].
        split; [done|]. split; [done|]. split.
        -- intros msg _. split; [set_solver|congruence].
        -- intros HZ'. congruence.
      * rewrite Hconf in Hzip. destruct (Zip (config ps)) eqn:HZ.
        -- destruct Hzip as [Hd3 Hnm3]. rewrite Hd3.
           split; [congruence|]. split; [set_solver|]. split; [set_solver|].
           split; [done|]. split; [intros _ _; set_solver|].
           split; [done|]. done.
        -- subst ps3. split; [done|]. split; [done|]. split; [done|].
           split; [done|]. split; [done|]. split; [done|]. done.
Qed.

End Outcome.

Lemma Immortalize_outcome_witness :
  let CreateZip (ps : Pipestance) := false in
  let removeMetadata (mds : list NodeMetadata) := @nil NodeMetadata in
  let ps := Example.failed ∅ in
  let r := Immortalize CreateZip removeMetadata true ps in
  (true = false -> readOnly ps = true ->
   r = (Some (inl ReadOnlyMode), [], ps)) /\
  (true = true \/ readOnly ps = false ->
   nodes r.2 = nodes ps /\
   Perf ∈ directory r.2 /\ FinalState ∈ directory r.2 /\
   r.1.1 <> Some (inl ReadOnlyMode) /\
   (r.1.1 = None -> Zip (config ps) = true -> MetadataZip ∈ directory r.2) /\
   (forall msg, r.1.1 = Some (inr msg) ->
      (MetadataZip ∉ directory r.2) /\ nodeMetadata r.2 = nodeMetadata ps) /\
   (Zip (config ps) = false ->
    r.1.1 = None /\ nodeMetadata r.2 = nodeMetadata ps)).
Proof.
  exact (Immortalize_outcome (fun _ => false) (fun _ => []) true
           (Example.failed ∅)).
Defined.

End Posterity.


(* ===================================================================== *)
(** ** Package core: releasing the lock                                   *)
(* ===================================================================== *)

Module Unlocking.

Import Core Locking.

(** [Pipestance.unlock], which is also all that [HandleSignal] does. *)
Definition unlock (ps : Pipestance) : Pipestance :=
  let '(dir, m) := remove (directory ps) (metadata ps) Lock in
  setMetadata dir m ps.

(** [Pipestance.Unlock].  (Unregistering the signal handler leaves the
    pipestance and its directory as they are.) *)
Definition Unlock (ps : Pipestance) : Pipestance := unlock ps.

Definition HandleSignal (ps : Pipestance) : Pipestance := unlock ps.

(** X11. [Lock] on a directory without a lock file and then [Unlock]
    leave the directory as it was, the pipestance is not read-only in
    between and is read-only afterwards.  [Unlock] does not look at who
    wrote the lock file: a controller whose [Lock] returned the locked
    error removes the file of the one that holds it, and a [Lock] by a
    third then succeeds. *)
Theorem Lock_Unlock_round_trip (holder other third : Pipestance) :
  Lock ∉ directory holder ->
  let held := (Pipestance_Lock holder).2 in
  let refused := Pipestance_Lock (attach (directory held) other) in
  readOnly held = false /\
  directory (Unlock held) = directory holder /\
  readOnly (Unlock held) = true /\
  refused.1 = Some (mkPipestanceLockedError (GetPsid other) (GetPath other)) /\
  directory (Unlock refused.2) = directory holder /\
  (Pipestance_Lock (attach (directory (Unlock refused.2)) third)).1 = None.
Proof.
  intros Hfree. cbv zeta.
  assert (Hheld : Lock ∈ {[Lock]} ∪ directory holder) by set_solver.
  assert (Hback : ({[Lock]} ∪ directory holder) ∖ {[Lock]} = directory holder)
    by set_solver.
  unfold Unlock, unlock, Pipestance_Lock, attach, readOnly, exists_, loadCache,
    write, remove. simpl.
  rewrite (bool_decide_eq_false_2 _ Hfree). simpl.
  rewrite !(bool_decide_eq_true_2 _ Hheld). simpl.
  rewrite !Hback, (bool_decide_eq_false_2 _ Hfree). simpl.
  rewrite bool_decide_eq_false_2 by set_solver. done.
Qed.

Lemma Lock_Unlock_round_trip_witness :
  let holder := Example.failed ∅ in
  let held := (Pipestance_Lock holder).2 in
  let refused := Pipestance_Lock (attach (directory held) holder) in
  readOnly held = false /\
  directory (Unlock held) = directory holder /\
  readOnly (Unlock held) = true /\
  refused.1 = Some (mkPipestanceLockedError (GetPsid holder) (GetPath holder)) /\
  directory (Unlock refused.2) = directory holder /\
  (Pipestance_Lock (attach (directory (Unlock refused.2)) holder)).1 = None.
Proof.
  apply (Lock_Unlock_round_trip (Example.failed ∅) (Example.failed ∅)
           (Example.failed ∅)).
  simpl. apply not_elem_of_empty.
Defined.

End Unlocking.

(* ===================================================================== *)
(** ** Package core: the jobs the queue probe asks about                  *)
(* ===================================================================== *)

Module QueueJobs.

Import Core QueueCheck.

(** The metadata object [m] stands for a job that is queued or running
    under the job id [id]. *)
Definition inQueue (ps : Pipestance) (m : nat) (id : string) : Prop :=
  exists md, nodeMetadata ps !! m = Some md /\
    (md_state md = Some Queued \/ md_state md = Some Running) /\
    md_JobId md = Some id.

(** [m] is among the metadata objects of a node on the frontier. *)
Definition onFrontier (ps : Pipestance) (m : nat) : Prop :=
  exists node, node ∈ getFrontierNodes ps /\ m ∈ metadatas node.

(** What holds of the variables of the loops once they have been through
    the metadata objects [seen]. *)
Definition collected (ps : Pipestance) (seen : list nat) (c : Collected)
  : Prop :=
  (forall m, m ∈ metas c -> m ∈ seen) /\
  (forall m id, m ∈ seen -> inQueue ps m id -> m ∈ metas c) /\
  (forall id m, needsQuery c !! id = Some m ->
     id <> "" /\ m ∈ seen /\ inQueue ps m id) /\
  (forall id m, id <> "" -> m ∈ seen -> inQueue ps m id ->
     is_Some (needsQuery c !! id)).

Lemma inQueue_id ps m id id' : inQueue ps m id -> inQueue ps m id' -> id = id'.
Proof. intros (md & ? & _ & ?) (md' & ? & _ & ?). congruence. Qed.

Lemma collectMetadata_collected ps seen c m :
  collected ps seen c ->
  collected ps (seen ++ [m]) (collectMetadata ps c m).
Proof.
  intros (Hmetas & Hseen & Hvalue & Hkey).
  assert (Hkeep : (forall id, ~ inQueue ps m id) \/ m ∈ metas c ->
                  collected ps (seen ++ [m]) c).
  { intros Hnot. split; [|split; [|split]].
    - intros m' Hin. apply elem_of_app. left. by apply Hmetas.
    - intros m' id [Hin|Hin%list_elem_of_singleton]%elem_of_app Hq.
      + by eapply Hseen.
      + subst m'. destruct Hnot as [Hnot|Hin]; [by destruct (Hnot id)|done].
    - intros id m' Hm. destruct (Hvalue id m' Hm) as (Hid & Hin & Hq).
      split; [done|]. split; [|done]. apply elem_of_app. by left.
    - intros id m' Hid [Hin|Hin%list_elem_of_singleton]%elem_of_app Hq.
      + by eapply Hkey.
      + subst m'. destruct Hnot as [Hnot|Hin]; [by destruct (Hnot id)|].
        eapply Hkey; [done| |done]. by apply Hmetas. }
  unfold collectMetadata.
  destruct (decide (m ∈ metas c)) as [Hin|Hnew]; [apply Hkeep; by right|].
  destruct (nodeMetadata ps !! m) as [md|] eqn:Hmd;
    [|apply Hkeep; left; intros id (md' & ? & _); congruence].
  destruct (md_state md) as [st|] eqn:Hst;
    [|apply Hkeep; left; intros id (md' & ? & [?|?] & _); congruence].
  destruct (md_JobId md) as [id|] eqn:Hid;
    [|apply Hkeep; left; intros id (md' & ? & _ & ?); congruence].
  destruct (bool_decide (st = Queued) || bool_decide (st = Running)) eqn:Hlive;
    [|apply Hkeep; left; intros id' (md' & ? & [?|?] & _);
      simplify_eq; rewrite ?bool_decide_eq_true_2 in Hlive by done;
      by rewrite ?orb_true_r in Hlive].
  assert (Hq : inQueue ps m id).
  { exists md. split; [done|]. split; [|done].
    apply orb_true_iff in Hlive
      as [->%bool_decide_eq_true| ->%bool_decide_eq_true]; [by left|by right]. }
  split; [|split; [|split]]; simpl.
  - intros m' [->%elem_of_singleton|Hin]%elem_of_union; apply elem_of_app.
    + right. by apply list_elem_of_singleton.
    + left. by apply Hmetas.
  - intros m' id' [Hin|Hin%list_elem_of_singleton]%elem_of_app Hq'.
    + apply elem_of_union. right. by eapply Hseen.
    + subst m'. apply elem_of_union. left. by apply elem_of_singleton.
  - intros id' m' Hm.
    assert (Hold : needsQuery c !! id' = Some m' ->
                   id' <> "" /\ m' ∈ seen ++ [m] /\ inQueue ps m' id').
    { intros Hc. destruct (Hvalue id' m' Hc) as (? & ? & ?).
      split; [done|]. split; [|done]. apply elem_of_app. by left. }
    destruct (decide (id <> "")) as [Hne|He]; [|by apply Hold].
    destruct (decide (id = id')) as [<-|Hother].
    + rewrite lookup_insert_eq in Hm. simplify_eq. split; [done|].
      split; [|done]. apply elem_of_app. right.
      by apply list_elem_of_singleton.
    + rewrite lookup_insert_ne in Hm by done. by apply Hold.
  - intros id' m' Hid' [Hin|Hin%list_elem_of_singleton]%elem_of_app Hq'.
    + destruct (decide (id <> "")) as [Hne|He]; [|by eapply Hkey].
      destruct (decide (id = id')) as [<-|Hother].
      * by rewrite lookup_insert_eq.
      * rewrite lookup_insert_ne by done. by eapply Hkey.
    + subst m'. rewrite <- (inQueue_id _ _ _ _ Hq Hq') in *.
      destruct (decide (id <> "")) as [Hne|He]; [|done].
      by rewrite lookup_insert_eq.
Qed.

Lemma foldl_collectMetadata ps ms : forall seen c,
  collected ps seen c ->
  collected ps (seen ++ ms) (foldl (collectMetadata ps) c ms).
Proof.
  induction ms as [|m ms IH]; intros seen c Hc; simpl.
  - by rewrite app_nil_r.
  - replace (seen ++ m :: ms) with ((seen ++ [m]) ++ ms)
      by (by rewrite <- app_assoc).
    apply IH. by apply collectMetadata_collected.
Qed.

Lemma foldl_nodes ps ns : forall seen c,
  collected ps seen c ->
  collected ps (seen ++ mjoin (metadatas <$> ns))
    (foldl (fun c node => foldl (collectMetadata ps) c (metadatas node)) c ns).
Proof.
  induction ns as [|n ns IH]; intros seen c Hc; simpl.
  - by rewrite app_nil_r.
  - rewrite app_assoc. apply IH. by apply foldl_collectMetadata.
Qed.

(** What the loops collect: a job id is a key exactly when it is not
    empty and a metadata object of a frontier node stands for a queued or
    running job of that id, and the value of a key is such an object. *)
Lemma collect_spec ps :
  (forall id, is_Some (collect ps !! id) <->
     id <> "" /\ exists m, onFrontier ps m /\ inQueue ps m id) /\
  (forall id m, collect ps !! id = Some m ->
     onFrontier ps m /\ inQueue ps m id).
Proof.
  assert (Hfront : forall m,
            m ∈ [] ++ mjoin (metadatas <$> getFrontierNodes ps) <->
            onFrontier ps m).
  { intros m. simpl. rewrite list_elem_of_join. unfold onFrontier. split.
    - intros (ms & Hm & (node & -> & Hnode)%list_elem_of_fmap). by exists node.
    - intros (node & Hnode & Hm). exists (metadatas node). split; [done|].
      apply list_elem_of_fmap. by exists node. }
  assert (Hc : collected ps []%list (mkCollected ∅ ∅)).
  { split; [|split; [|split]]; simpl.
    - set_solver.
    - by intros m id ?%elem_of_nil.
    - intros id m Hm. by rewrite lookup_empty in Hm.
    - by intros id m _ ?%elem_of_nil. }
  destruct (foldl_nodes ps (getFrontierNodes ps) _ _ Hc)
    as (_ & _ & Hvalue & Hkey).
  unfold collect. split.
  - intros id. split.
    + intros [m Hm]. destruct (Hvalue id m Hm) as (Hid & Hin & Hq).
      split; [done|]. exists m. split; [by apply Hfront|done].
    + intros (Hid & m & Hin & Hq). eapply Hkey; [done| |done]. by apply Hfront.
  - intros id m Hm. destruct (Hvalue id m Hm) as (Hid & Hin & Hq).
    split; [by apply Hfront|done].
Qed.

(** X12. The job ids that a probe is started with have no repeats, and a
    job id is among them exactly when it is not the empty string and a
    metadata object of a frontier node is in the state Queued or Running
    with that id in its JobId file.  Each id is paired with such an
    object; it is the only thing the probe may mark. *)
Theorem probe_asks_about_queued_and_running_jobs (now : Z)
    (ps ps' : Pipestance) (p : Probe) :
  queryQueue now ps = (ps', Some p) ->
  NoDup (jobsIn p) /\
  jobsIn p <> [] /\
  (forall id, id ∈ jobsIn p <->
     id <> "" /\ exists m, onFrontier ps m /\ inQueue ps m id) /\
  (forall id m, probeNeedsQuery p !! id = Some m ->
     id ∈ jobsIn p /\ onFrontier ps m /\ inQueue ps m id).
Proof.
  unfold queryQueue. intros Hcall.
  destruct (hasQueueCheck ps) as [[|]|]; try done.
  destruct (_ || _); [done|].
  set (ps1 := setQueueCheck true (lastQueueCheck ps) ps) in Hcall.
  destruct (decide (size (collect ps1) = 0%nat)) as [|Hsize]; [done|].
  injection Hcall as _ <-. simpl.
  destruct (collect_spec ps) as [Hkey Hvalue].
  change (collect ps1) with (collect ps) in *. clear ps1.
  split; [apply NoDup_fst_map_to_list|]. split.
  { intros Hnil%fmap_nil_inv%map_to_list_empty_iff.
    by rewrite Hnil, map_size_empty in Hsize. }
  assert (Hin : forall id, id ∈ (map_to_list (collect ps)).*1 <->
                           is_Some (collect ps !! id)).
  { intros id. rewrite list_elem_of_fmap. split.
    - intros ([id' m] & -> & Hm%elem_of_map_to_list). by exists m.
    - intros [m Hm]. exists (id, m). split; [done|].
      by apply elem_of_map_to_list. }
  split.
  - intros id. rewrite Hin. apply Hkey.
  - intros id m Hm. split; [apply Hin; by exists m|by apply Hvalue].
Qed.

Lemma probe_asks_about_queued_and_running_jobs_witness :
  let p := default (mkProbe [] ∅) (queryQueue (300 * second) queued).2 in
  NoDup (jobsIn p) /\
  jobsIn p <> [] /\
  (forall id, id ∈ jobsIn p <->
     id <> "" /\ exists m, onFrontier queued m /\ inQueue queued m id) /\
  (forall id m, probeNeedsQuery p !! id = Some m ->
     id ∈ jobsIn p /\ onFrontier queued m /\ inQueue queued m id).
Proof.
  apply (probe_asks_about_queued_and_running_jobs (300 * second) queued
           (queryQueue (300 * second) queued).1).
  vm_compute. reflexivity.
Defined.

(** X13. [queryQueue] starts a probe exactly when the job manager has a
    queue check, no probe is under way, the last one ended five minutes
    ago or more and there is a job to ask about; it then sets
    [queueCheckActive] and changes nothing else.  When it starts none it
    leaves the pipestance as it was: with no job to ask about the time of
    the last check is not moved, so that the next call looks again. *)
Theorem queryQueue_starts_probe_iff (now : Z) (ps : Pipestance) :
  let r := queryQueue now ps in
  (is_Some r.2 <->
     hasQueueCheck ps = Some true /\ queueCheckActive ps = false /\
     QUEUE_CHECK_LIMIT <= now - lastQueueCheck ps /\
     exists id m, id <> "" /\ onFrontier ps m /\ inQueue ps m id) /\
  (r.2 = None -> r.1 = ps) /\
  (is_Some r.2 -> r.1 = setQueueCheck true (lastQueueCheck ps) ps).
Proof.
  cbv zeta. unfold queryQueue.
  assert (Hnone : forall P : Prop, ~ P ->
            (is_Some (ps, @None Probe).2 <-> P) /\
            ((ps, @None Probe).2 = None -> (ps, @None Probe).1 = ps) /\
            (is_Some (ps, @None Probe).2 ->
             (ps, @None Probe).1 = setQueueCheck true (lastQueueCheck ps) ps)).
  { intros P HP. simpl. split; [split; [by intros []|done]|].
    split; [done|by intros []]. }
  destruct (hasQueueCheck ps) as [[|]|];
    try (apply Hnone; by intros (? & _)).
  destruct (queueCheckActive ps) eqn:Hactive; simpl.
  { split; [split; [by intros []|by intros (_ & ? & _)]|done]. }
  case_bool_decide as Hsince; simpl.
  { apply Since_limit in Hsince.
    split; [split; [by intros []|intros (_ & _ & ? & _); lia]|done]. }
  assert (Hlimit : QUEUE_CHECK_LIMIT <= now - lastQueueCheck ps).
  { destruct (Z.le_gt_cases QUEUE_CHECK_LIMIT (now - lastQueueCheck ps));
      [done|]. destruct Hsince. apply Since_limit. lia. }
  set (ps1 := setQueueCheck true (lastQueueCheck ps) ps).
  destruct (collect_spec ps) as [Hkey _].
  change (collect ps1) with (collect ps) in *.
  destruct (decide (size (collect ps) = 0%nat)) as [Hsize|Hsize]; simpl.
  - apply map_size_empty_iff in Hsize. split; [|split].
    + split; [by intros []|]. intros (_ & _ & _ & id & m & Hid & Hm).
      assert (Hsome : is_Some (collect ps !! id)) by (apply Hkey; eauto).
      rewrite Hsize, lookup_empty in Hsome. by destruct Hsome.
    + intros _. subst ps1. destruct ps. simpl in *. by subst.
    + by intros [].
  - split; [|done]. split; [|by eexists].
    intros _. split; [done|]. split; [done|]. split; [done|].
    destruct (map_choose (collect ps)) as (id & m & Hm).
    { intros Hnil. by rewrite Hnil, map_size_empty in Hsize. }
    exists id. assert (Hsome : is_Some (collect ps !! id)) by by exists m.
    apply Hkey in Hsome as (Hid & m' & Hm'). by exists m'.
Qed.

End QueueJobs.


(* ===================================================================== *)
(** ** Package core: the disk usage of a pipestance over time             *)
(* ===================================================================== *)

Module DiskUsage.

Import Core.

Open Scope Z_scope.

(** The value of an [int64] after an addition. *)
Definition wrap64 (z : Z) : Z := (z + 2 ^ 63) mod 2 ^ 64 - 2 ^ 63.

(** What [ComputeDiskUsage] reads of a [VdrEvent] and of a
    [StorageEvent], and what it writes of a [NodeByteStamp] and of a
    [NodePerfInfo]; times are readings of the clock.  [perfOf] stands for
    the fields of the [NodePerfInfo] that it leaves alone. *)
Record VdrEvent : Type := mkVdrEvent {
  Vdr_Timestamp : Z;
  DeltaBytes : Z
}.

Record StorageEvent : Type := mkStorageEvent {
  Timestamp : Z;
  Delta : Z;
  Name : string
}.

Record NodeByteStamp : Type := mkNodeByteStamp {
  Stamp_Timestamp : Z;
  Bytes : Z;
  Description : string
}.

Record NodePerfInfo : Type := mkNodePerfInfo {
  perfOf : string;
  MaxBytes : Z;
  BytesHist : list NodeByteStamp
}.

Section ComputeDiskUsage.

(** [node.serializePerf], [NewStorageEvent] and
    [StorageEventByTimestamp.Collapse], none of them among the sources. *)
Variable node_serializePerf : Node -> NodePerfInfo * list VdrEvent.
Variable NewStorageEvent : Z -> Z -> string -> StorageEvent.
Variable Collapse : list StorageEvent -> list StorageEvent.

(** The body of [for _, ev := range storageEvents]. *)
Definition storageEvent_step (node : Node) (all : list StorageEvent)
    (ev : VdrEvent) : list StorageEvent :=
  if decide (DeltaBytes ev <> 0) then
    all ++ [NewStorageEvent (Vdr_Timestamp ev) (DeltaBytes ev)
              (if bool_decide (0 < DeltaBytes ev)
               then fqname node +:+ " alloc"
               else fqname node +:+ " delete")]
  else all.

Definition allStorageEvents (ns : list Node) : list StorageEvent :=
  foldl (fun all node =>
           foldl (storageEvent_step node) all (node_serializePerf node).2)
    [] ns.

(** The variables of the last loop. *)
Record Marks : Type := mkMarks {
  highMark : Z;
  currentMark : Z;
  byteStamps : list NodeByteStamp
}.

(** The body of [for idx, se := range allStorageEvents]; [byteStamps]
    holds the entries below [idx]. *)
Definition mark_step (k : Marks) (se : StorageEvent) : Marks :=
  let currentMark := wrap64 (currentMark k + Delta se) in
  mkMarks (if bool_decide (highMark k < currentMark) then currentMark
           else highMark k)
    currentMark
    (byteStamps k ++ [mkNodeByteStamp (Timestamp se) currentMark (Name se)]).

Definition ComputeDiskUsage (nodePerf : NodePerfInfo) (ps : Pipestance)
  : NodePerfInfo * Pipestance :=
  let '(all, ps) := allNodes ps in
  let allStorageEvents := Collapse (allStorageEvents (deref ps all)) in
  let k := foldl mark_step (mkMarks 0 0 []) allStorageEvents in
  (mkNodePerfInfo (perfOf nodePerf) (highMark k) (byteStamps k), ps).

(** The storage events that [ComputeDiskUsage] accumulates. *)
Definition collapsedEvents (ps : Pipestance) : list StorageEvent :=
  Collapse (allStorageEvents (deref ps (allNodes ps).1)).

Lemma wrap64_range z : - 2 ^ 63 <= wrap64 z < 2 ^ 63.
Proof.
  unfold wrap64. pose proof (Z.mod_pos_bound (z + 2 ^ 63) (2 ^ 64)). lia.
Qed.

Lemma wrap64_add z d : wrap64 (wrap64 z + d) = wrap64 (z + d).
Proof.
  unfold wrap64. f_equal.
  replace ((z + 2 ^ 63) mod 2 ^ 64 - 2 ^ 63 + d + 2 ^ 63)
    with ((z + 2 ^ 63) mod 2 ^ 64 + d) by lia.
  rewrite Zplus_mod_idemp_l. f_equal. lia.
Qed.

Lemma wrap64_small z : - 2 ^ 63 <= z < 2 ^ 63 -> wrap64 z = z.
Proof. intros Hz. unfold wrap64. rewrite Z.mod_small; lia. Qed.

(** The sum of the deltas of [ses], and the running total after them. *)
Definition sumDelta (ses : list StorageEvent) : Z :=
  foldr (fun se z => Delta se + z) 0 ses.

Definition total (ses : list StorageEvent) : Z := wrap64 (sumDelta ses).

Lemma total_snoc ses se :
  total (ses ++ [se]) = wrap64 (total ses + Delta se).
Proof.
  unfold total. rewrite wrap64_add. f_equal. unfold sumDelta.
  induction ses as [|se' ses IH]; simpl; lia.
Qed.

(** What holds of the variables of the last loop once it has been through
    the events [ses]. *)
Definition marked (ses : list StorageEvent) (k : Marks) : Prop :=
  currentMark k = total ses /\
  0 <= highMark k /\
  (forall b, b ∈ byteStamps k -> Bytes b <= highMark k) /\
  (highMark k = 0 \/ exists b, b ∈ byteStamps k /\ Bytes b = highMark k) /\
  length (byteStamps k) = length ses /\
  (forall i b, byteStamps k !! i = Some b ->
     exists se, ses !! i = Some se /\
       Stamp_Timestamp b = Timestamp se /\ Description b = Name se /\
       Bytes b = total (take (S i) ses)).

Lemma mark_step_marked ses k se :
  marked ses k -> marked (ses ++ [se]) (mark_step k se).
Proof.
  intros (Hcur & Hpos & Hle & Hmax & Hlen & Hhist).
  unfold mark_step.
  set (cur := wrap64 (currentMark k + Delta se)).
  split; [|split; [|split; [|split; [|split]]]]; simpl.
  - by rewrite total_snoc, <- Hcur.
  - case_bool_decide; lia.
  - intros b [Hb|Hb%list_elem_of_singleton]%elem_of_app.
    + apply Hle in Hb. case_bool_decide; lia.
    + subst b. simpl. case_bool_decide; lia.
  - case_bool_decide as Hhigh.
    + right. eexists. split; [apply elem_of_app; right; by left|done].
    + destruct Hmax as [Hzero|(b & Hb & Hbytes)]; [by left|right].
      exists b. split; [|done]. apply elem_of_app. by left.
  - rewrite !length_app. simpl. lia.
  - intros i b Hb. apply lookup_app_Some in Hb as [Hb|[Hi Hb]].
    + destruct (Hhist i b Hb) as (se' & Hse' & Hts & Hname & Hbytes).
      exists se'. split; [by apply lookup_app_l_Some|].
      split; [done|]. split; [done|]. rewrite Hbytes. f_equal.
      apply lookup_lt_Some in Hse'. rewrite take_app_le by lia. done.
    + apply list_lookup_singleton_Some in Hb as [Hi' <-].
      assert (i = length ses) as -> by lia.
      exists se. split; [by apply list_lookup_middle|]. simpl.
      split; [done|]. split; [done|].
      rewrite firstn_all2 by (rewrite length_app; simpl; lia).
      subst cur. by rewrite total_snoc, Hcur.
Qed.

Lemma foldl_mark_step ses : forall seen k,
  marked seen k -> marked (seen ++ ses) (foldl mark_step k ses).
Proof.
  induction ses as [|se ses IH]; intros seen k Hk; simpl.
  - by rewrite app_nil_r.
  - replace (seen ++ se :: ses) with ((seen ++ [se]) ++ ses)
      by (by rewrite <- app_assoc).
    apply IH. by apply mark_step_marked.
Qed.

(** X14. [ComputeDiskUsage] writes one byte stamp for each collapsed
    storage event, with the time and the name of the event and the
    running total of the deltas up to it, as a 64-bit integer.
    [MaxBytes] is the high-water mark of those totals: it is not
    negative, no stamp is above it, and it is zero or the total of a
    stamp.  The rest of the record is left as it was. *)
Theorem ComputeDiskUsage_high_water_mark (nodePerf : NodePerfInfo)
    (ps : Pipestance) :
  let r := (ComputeDiskUsage nodePerf ps).1 in
  let events := collapsedEvents ps in
  perfOf r = perfOf nodePerf /\
  length (BytesHist r) = length events /\
  (forall i b, BytesHist r !! i = Some b ->
     exists se, events !! i = Some se /\
       Stamp_Timestamp b = Timestamp se /\ Description b = Name se /\
       Bytes b = total (take (S i) events)) /\
  0 <= MaxBytes r /\
  (forall b, b ∈ BytesHist r -> Bytes b <= MaxBytes r) /\
  (MaxBytes r = 0 \/ exists b, b ∈ BytesHist r /\ Bytes b = MaxBytes r).
Proof.
  cbv zeta. unfold ComputeDiskUsage, collapsedEvents.
  assert (Hall : deref (allNodes ps).2 (allNodes ps).1
                 = deref ps (allNodes ps).1).
  { unfold allNodes. by destruct (allNodesCache ps). }
  destruct (allNodes ps) as [all ps']. simpl in *. rewrite Hall.
  assert (H0 : marked [] (mkMarks 0 0 [])).
  { split; [done|]. split; [done|]. split; [by intros b ?%elem_of_nil|].
    split; [by left|]. split; [done|]. by intros i b ?. }
  destruct (foldl_mark_step (Collapse (allStorageEvents (deref ps all)))
              _ _ H0) as (_ & Hpos & Hle & Hmax & Hlen & Hhist).
  simpl in *. done.
Qed.

(** Where the sums stay within 64 bits the totals are the sums. *)
Lemma total_exact ses :
  (forall n, - 2 ^ 63 <= sumDelta (take n ses) < 2 ^ 63) ->
  forall n, total (take n ses) = sumDelta (take n ses).
Proof. intros Hfit n. apply wrap64_small, Hfit. Qed.

End ComputeDiskUsage.

End DiskUsage.


(* ===================================================================== *)
(** ** Package core: the retained outputs of a stage                      *)
(* ===================================================================== *)

Module Retain.

(** A [map[Nodable]struct{}] is an object on the heap, shared by all that
    hold it: the set of the nodes in it, [None] for the nil [Nodable].
    The heap is the list of those objects and a pointer an index into
    it. *)
Abbreviation ArgSet := (gset (option nat)) (only parsing).
Abbreviation Heap := (list ArgSet) (only parsing).

(** What the loop reads and writes of a [Fork]: [fileArgs], nil or a map
    from parameter ids to objects on the heap, nil among them. *)
Record Fork : Type := mkFork {
  fileArgs : option (gmap string (option nat))
}.

(** The body of [for _, fork := range self.node.forks] for the retained
    parameter [id]. *)
Definition retainFork (id : string) (heap : Heap) (fork : Fork)
  : Heap * Fork :=
  let fileArgs :=
    match fileArgs fork with
    | None => ∅
    | Some fileArgs => fileArgs
    end in
  match fileArgs !! id with
  | Some (Some arg) =>
      (alter (fun s => {[None]} ∪ s) arg heap, mkFork (Some fileArgs))
  | _ =>
      (heap ++ [{[None]}],
       mkFork (Some (<[id := Some (length heap)]> fileArgs)))
  end.

Fixpoint retainForks (id : string) (heap : Heap) (forks : list Fork)
  : Heap * list Fork :=
  match forks with
  | [] => (heap, [])
  | fork :: rest =>
      let '(heap, fork) := retainFork id heap fork in
      let '(heap, rest) := retainForks id heap rest in
      (heap, fork :: rest)
  end.

(** [if stage.Retain != nil { for _, param := range stage.Retain.Params
    ... }] of [NewStagestance]; [Retain] holds the ids of the parameters,
    and [forks] the forks that [buildForks] made. *)
Definition retain (Retain : option (list string)) (heap : Heap)
    (forks : list Fork) : Heap * list Fork :=
  match Retain with
  | None => (heap, forks)
  | Some Params =>
      foldl (fun '(heap, forks) id => retainForks id heap forks)
        (heap, forks) Params
  end.

(** The entries of a fork, none when [fileArgs] is nil. *)
Definition args (fork : Fork) : gmap string (option nat) :=
  default ∅ (fileArgs fork).

(** No pointer of the fork dangles. *)
Definition wfFork (heap : Heap) (fork : Fork) : Prop :=
  forall id p, args fork !! id = Some (Some p) -> p < length heap.

(** The nil node is among the consumers of the output [id] of the fork. *)
Definition retained (heap : Heap) (fork : Fork) (id : string) : Prop :=
  exists p s, args fork !! id = Some (Some p) /\ heap !! p = Some s /\
              None ∈ s.

(** Every object is still there, with the members it had and at most the
    nil node more. *)
Definition grows (heap heap' : Heap) : Prop :=
  length heap <= length heap' /\
  forall p s, heap !! p = Some s ->
    exists s', heap' !! p = Some s' /\ s ⊆ s' /\ s' ⊆ {[None]} ∪ s.

(** The entries that point at an object still do, and the entries of the
    parameters that are not among [ids] are as they were. *)
Definition keeps (ids : list string) (fork fork' : Fork) : Prop :=
  (forall id p, args fork !! id = Some (Some p) ->
                args fork' !! id = Some (Some p)) /\
  (forall id, id ∉ ids -> args fork' !! id = args fork !! id).

Lemma grows_refl heap : grows heap heap.
Proof.
  split; [done|]. intros p s Hs. exists s. split; [done|]. set_solver.
Qed.

Lemma grows_trans h1 h2 h3 : grows h1 h2 -> grows h2 h3 -> grows h1 h3.
Proof.
  intros [Hlen1 H1] [Hlen2 H2]. split; [lia|]. intros p s Hs.
  destruct (H1 p s Hs) as (s' & Hs' & ? & ?).
  destruct (H2 p s' Hs') as (s'' & Hs'' & ? & ?).
  exists s''. split; [done|]. set_solver.
Qed.

Lemma keeps_refl ids fork : keeps ids fork fork.
Proof. by split. Qed.

Lemma keeps_trans id ids f1 f2 f3 :
  keeps [id] f1 f2 -> keeps ids f2 f3 -> keeps (id :: ids) f1 f3.
Proof.
  intros [Hp1 Ho1] [Hp2 Ho2]. split.
  - intros id' p Hp. by apply Hp2, Hp1.
  - intros id' Hid. rewrite Ho2, Ho1; [done| |];
      intros Hin; apply Hid; set_solver.
Qed.

Lemma wfFork_grows heap heap' fork :
  grows heap heap' -> wfFork heap fork -> wfFork heap' fork.
Proof. intros [Hlen _] Hwf id p Hp. apply Hwf in Hp. lia. Qed.

Lemma retained_grows heap heap' ids fork fork' id :
  grows heap heap' -> keeps ids fork fork' ->
  retained heap fork id -> retained heap' fork' id.
Proof.
  intros [_ Hgrow] [Hkeep _] (p & s & Hp & Hs & Hnil).
  destruct (Hgrow p s Hs) as (s' & Hs' & Hsub & _).
  exists p, s'. split; [by apply Hkeep|]. split; [done|]. set_solver.
Qed.

Lemma args_mkFork m : args (mkFork (Some m)) = m.
Proof. done. Qed.

Lemma retainFork_spec id heap fork :
  wfFork heap fork ->
  grows heap (retainFork id heap fork).1 /\
  wfFork (retainFork id heap fork).1 (retainFork id heap fork).2 /\
  retained (retainFork id heap fork).1 (retainFork id heap fork).2 id /\
  keeps [id] fork (retainFork id heap fork).2.
Proof.
  intros Hwf. unfold retainFork.
  change (match fileArgs fork with None => ∅ | Some fa => fa end)
    with (args fork).
  destruct (args fork !! id) as [[p|]|] eqn:Hid; simpl.
  - pose proof (Hwf id p Hid) as Hp.
    destruct (lookup_lt_is_Some_2 heap p Hp) as [s Hs].
    assert (Hgrow : grows heap (alter (fun s => {[None]} ∪ s) p heap)).
    { split; [by rewrite length_alter|]. intros q t Ht.
      destruct (decide (q = p)) as [->|Hq].
      - rewrite list_lookup_alter_eq, Ht. simpl. eexists. split; [done|].
        set_solver.
      - rewrite list_lookup_alter_ne by done. exists t. split; [done|].
        set_solver. }
    split; [done|]. split; [|split].
    + intros id' q Hq. rewrite length_alter. by eapply Hwf.
    + exists p, ({[None]} ∪ s). split; [done|].
      rewrite list_lookup_alter_eq, Hs. split; [done|]. set_solver.
    + by split.
  - assert (Hgrow : grows heap (heap ++ [{[None]}])).
    { split; [rewrite length_app; lia|]. intros q t Ht. exists t.
      split; [by apply lookup_app_l_Some|]. set_solver. }
    split; [done|]. split; [|split].
    + intros id' q. unfold args. simpl. rewrite length_app. simpl.
      destruct (decide (id = id')) as [<-|Hother].
      * rewrite lookup_insert_eq. intros [= <-]. lia.
      * rewrite lookup_insert_ne by done. intros Hq%Hwf. lia.
    + exists (length heap), {[None]}. unfold args. simpl.
      rewrite lookup_insert_eq. split; [done|].
      split; [by apply list_lookup_middle|]. set_solver.
    + split; rewrite args_mkFork.
      * intros id' q Hq. destruct (decide (id = id')) as [<-|Hother];
          [congruence|]. by rewrite lookup_insert_ne.
      * intros id' Hid'. rewrite lookup_insert_ne; [done|]. set_solver.
  - assert (Hgrow : grows heap (heap ++ [{[None]}])).
    { split; [rewrite length_app; lia|]. intros q t Ht. exists t.
      split; [by apply lookup_app_l_Some|]. set_solver. }
    split; [done|]. split; [|split].
    + intros id' q. unfold args. simpl. rewrite length_app. simpl.
      destruct (decide (id = id')) as [<-|Hother].
      * rewrite lookup_insert_eq. intros [= <-]. lia.
      * rewrite lookup_insert_ne by done. intros Hq%Hwf. lia.
    + exists (length heap), {[None]}. unfold args. simpl.
      rewrite lookup_insert_eq. split; [done|].
      split; [by apply list_lookup_middle|]. set_solver.
    + split; rewrite args_mkFork.
      * intros id' q Hq. destruct (decide (id = id')) as [<-|Hother];
          [congruence|]. by rewrite lookup_insert_ne.
      * intros id' Hid'. rewrite lookup_insert_ne; [done|]. set_solver.
Qed.

Lemma retainForks_spec id forks : forall heap,
  Forall (wfFork heap) forks ->
  grows heap (retainForks id heap forks).1 /\
  Forall (wfFork (retainForks id heap forks).1) (retainForks id heap forks).2 /\
  Forall (fun fork => retained (retainForks id heap forks).1 fork id)
    (retainForks id heap forks).2 /\
  Forall2 (keeps [id]) forks (retainForks id heap forks).2.
Proof.
  induction forks as [|fork rest IH]; intros heap Hwf; simpl.
  - split; [apply grows_refl|]. by repeat constructor.
  - apply Forall_cons in Hwf as [Hfork Hrest].
    destruct (retainFork_spec id heap fork Hfork)
      as (Hgrow1 & Hwf1 & Hret1 & Hkeep1).
    destruct (retainFork id heap fork) as [heap1 fork1]. simpl in *.
    assert (Hrest1 : Forall (wfFork heap1) rest).
    { eapply Forall_impl; [exact Hrest|]. intros f. by apply wfFork_grows. }
    destruct (IH heap1 Hrest1) as (Hgrow2 & Hwf2 & Hret2 & Hkeep2).
    destruct (retainForks id heap1 rest) as [heap2 rest2]. simpl in *.
    split; [by eapply grows_trans|]. split; [|split].
    + constructor; [by eapply wfFork_grows|done].
    + constructor; [|done].
      by eapply (retained_grows heap1 heap2 [] fork1 fork1);
        [| apply keeps_refl |].
    + by constructor.
Qed.

Lemma retainParams_spec Params : forall heap forks,
  Forall (wfFork heap) forks ->
  let r := retain (Some Params) heap forks in
  grows heap r.1 /\
  Forall (wfFork r.1) r.2 /\
  Forall (fun fork => forall id, id ∈ Params -> retained r.1 fork id) r.2 /\
  Forall2 (keeps Params) forks r.2.
Proof.
  induction Params as [|id Params IH]; intros heap forks Hwf; simpl.
  - split; [apply grows_refl|]. split; [done|]. split.
    + apply Forall_forall. by intros fork _ id ?%elem_of_nil.
    + apply Forall2_same_length_lookup. split; [done|].
      intros i f f' Hf Hf'. simplify_eq. apply keeps_refl.
  - destruct (retainForks_spec id forks heap Hwf)
      as (Hgrow1 & Hwf1 & Hret1 & Hkeep1).
    destruct (retainForks id heap forks) as [heap1 forks1]. simpl in *.
    destruct (IH heap1 forks1 Hwf1) as (Hgrow2 & Hwf2 & Hret2 & Hkeep2).
    simpl in *.
    destruct (foldl _ (heap1, forks1) Params) as [heap2 forks2]. simpl in *.
    split; [by eapply grows_trans|]. split; [done|]. split.
    + apply Forall_lookup. intros i f2 Hf2 id' Hid'.
      destruct (Forall2_lookup_r _ _ _ _ _ Hkeep2 Hf2) as (f1 & Hf1 & Hk).
      apply elem_of_cons in Hid' as [->|Hid'].
      * eapply retained_grows; [done|done|].
        by eapply (Forall_lookup_1 _ _ _ _ Hret1).
      * by eapply (Forall_lookup_1 _ _ _ _ Hret2).
    + apply Forall2_same_length_lookup. split.
      { rewrite (Forall2_length _ _ _ Hkeep1). by eapply Forall2_length. }
      intros i f f2 Hf Hf2.
      destruct (Forall2_lookup_l _ _ _ _ _ Hkeep1 Hf) as (f1 & Hf1 & Hk1).
      destruct (Forall2_lookup_l _ _ _ _ _ Hkeep2 Hf1) as (f2' & Hf2' & Hk2).
      simplify_eq. by eapply keeps_trans.
Qed.

(** X15. After the retain loop of [NewStagestance] every fork of the
    stage has, for every retained parameter, an entry in [fileArgs] that
    points at a set with the nil node in it.  The loop removes nothing:
    every set that existed keeps its members and gains at most the nil
    node, an entry that pointed at a set still points at it, and the
    entries of the parameters that are not retained are untouched.
    Without a retain clause nothing changes. *)
Theorem retain_adds_nil_consumer (Retain : option (list string))
    (heap : Heap) (forks : list Fork) :
  Forall (wfFork heap) forks ->
  let r := retain Retain heap forks in
  (Retain = None -> r = (heap, forks)) /\
  grows heap r.1 /\
  forall Params, Retain = Some Params ->
    Forall (fun fork => forall id, id ∈ Params -> retained r.1 fork id) r.2 /\
    Forall2 (keeps Params) forks r.2.
Proof.
  intros Hwf. cbv zeta. destruct Retain as [Params|].
  - destruct (retainParams_spec Params heap forks Hwf)
      as (Hgrow & _ & Hret & Hkeep).
    split; [done|]. split; [done|]. by intros ? [= <-].
  - split; [done|]. split; [apply grows_refl|]. done.
Qed.

(** Two forks that share the set of the consumers of [summary]; [bam] and
    [summary] are retained. *)
Definition sharing : list Fork :=
  [ mkFork (Some {[ "summary" := Some 0 ]});
    mkFork (Some {[ "summary" := Some 0; "index" := None ]});
    mkFork None ].

Lemma retain_adds_nil_consumer_witness :
  let r := retain (Some ["bam"; "summary"]) [{[Some 7]}] sharing in
  (Some ["bam"; "summary"] = None -> r = ([{[Some 7]}], sharing)) /\
  grows [{[Some 7]}] r.1 /\
  forall Params, Some ["bam"; "summary"] = Some Params ->
    Forall (fun fork => forall id, id ∈ Params -> retained r.1 fork id) r.2 /\
    Forall2 (keeps Params) sharing r.2.
Proof.
  apply (retain_adds_nil_consumer (Some ["bam"; "summary"]) [{[Some 7]}]
           sharing).
  unfold sharing.
  apply Forall_cons_2; [|apply Forall_cons_2; [|apply Forall_cons_2;
    [|apply Forall_nil_2]]]; intros id p; unfold args; simpl.
  - intros [_ [= <-]]%lookup_singleton_Some. simpl. lia.
  - intros [[_ [= <-]]|[_ [_ [=]]%lookup_singleton_Some]]%lookup_insert_Some.
    simpl. lia.
  - by rewrite lookup_empty.
Defined.

End Retain.


(* ===================================================================== *)
(** ** Package core: the subnodes of a pipestance                         *)
(* ===================================================================== *)

Module Subcalls.

Import Syntax Core.

Section NewPipestance.

(** [NewNode] and [NewStagestance], whose node construction is not among
    the sources, and what is read of their results: the [*Node] that
    [NewNode] returns with its [preflight] flag, and the stagestance or
    the error that [NewStagestance] returns, with the flag of its node. *)
Variable TreeNode : Type.
Variable NewNode : TreeNode -> string -> CallStm -> Callables -> TreeNode.
Variable node_preflight : TreeNode -> bool.
Variable Stagestance : Type.
Variable StagestanceError : Type.
Variable NewStagestance :
  TreeNode -> CallStm -> Callables -> StagestanceError + Stagestance.
Variable stagestance_preflight : Stagestance -> bool.

#[local] Set Warnings "-register-all".

(** A subnode: a stagestance, or a pipestance with its own node, its
    subnodes by call id, and the calls [subnode.setPrenode(preflightNode)]
    that its construction made, each with the id of the subnode. *)
Inductive Nodable : Type :=
| OfStagestance (s : Stagestance)
| OfPipestance (node : TreeNode) (subnodes : gmap string Nodable)
    (setPrenode : list (string * Nodable)).

#[local] Set Warnings "register-all".

Definition getNode_preflight (n : Nodable) : bool :=
  match n with
  | OfStagestance s => stagestance_preflight s
  | OfPipestance node _ _ => node_preflight node
  end.

(** The errors of [NewPipestance]: a [RuntimeError], what
    [NewStagestance] returned, or "Unsupported callable type" with the
    callable that the table has for the call, nil when it has none. *)
Inductive ConstructionError : Type :=
| ErrRuntime (e : RuntimeError)
| ErrStagestance (e : StagestanceError)
| ErrUnsupportedCallable (callable : option Callable).

(** [for _, subcallStm := range pipeline.Calls]; [rec] is the recursive
    call of [NewPipestance], [None] when it does not return. *)
Fixpoint subcalls
    (rec : CallStm -> Callables -> option (ConstructionError + Nodable))
    (node : TreeNode) (callables : Callables) (calls : list CallStm)
    (subnodes : gmap string Nodable) (preflightNodes : list Nodable)
  : option (ConstructionError + gmap string Nodable * list Nodable) :=
  match calls with
  | [] => Some (inr (subnodes, preflightNodes))
  | subcallStm :: rest =>
      let callable := Callables_Table callables !! CallStm_DecId subcallStm in
      let made :=
        match callable with
        | Some (CallableStage _) =>
            match NewStagestance node subcallStm callables with
            | inl err => Some (inl (ErrStagestance err))
            | inr s => Some (inr (OfStagestance s))
            end
        | Some (CallablePipeline _) => rec subcallStm callables
        | _ => Some (inl (ErrUnsupportedCallable callable))
        end in
      match made with
      | None => None
      | Some (inl err) => Some (inl err)
      | Some (inr n) =>
          let subnodes := <[CallStm_Id subcallStm := n]> subnodes in
          subcalls rec node callables rest subnodes
            (if getNode_preflight n then preflightNodes ++ [n]
             else preflightNodes)
      end
  end.

(** "Add preflight dependencies if preflight stages exist": the calls of
    [setPrenode] that the two loops make. *)
Definition setPrenodes (subnodes : gmap string Nodable)
    (preflightNodes : list Nodable) : list (string * Nodable) :=
  foldl (fun calls preflightNode =>
           foldl (fun calls '(id, subnode) =>
                    if negb (getNode_preflight subnode)
                    then calls ++ [(id, preflightNode)] else calls)
             calls (map_to_list subnodes))
    [] preflightNodes.

(** [NewPipestance], as far as the subnodes and their preflight
    dependencies go (the return bindings and the retained references are
    left out).  The recursion follows the declarations, which the code
    does not bound; [fuel] bounds it here. *)
Fixpoint NewPipestance (fuel : nat) (parent : TreeNode) (callStm : CallStm)
    (callables : Callables) : option (ConstructionError + Nodable) :=
  match fuel with
  | 0 => None
  | S fuel =>
      let node := NewNode parent "pipeline" callStm callables in
      match NewPipestance_pipeline callStm callables with
      | inl err => Some (inl (ErrRuntime err))
      | inr pipeline =>
          match subcalls (NewPipestance fuel node) node callables
                  (Pipeline_Calls pipeline) ∅ [] with
          | None => None
          | Some (inl err) => Some (inl err)
          | Some (inr (subnodes, preflightNodes)) =>
              Some (inr (OfPipestance node subnodes
                           (setPrenodes subnodes preflightNodes)))
          end
      end
  end.

(** *** The preflight dependencies *)

Lemma setPrenodes_spec subnodes preflightNodes id pre :
  (id, pre) ∈ setPrenodes subnodes preflightNodes <->
  pre ∈ preflightNodes /\
  exists sub, subnodes !! id = Some sub /\ getNode_preflight sub = false.
Proof.
  unfold setPrenodes.
  set (inner := fun pn calls l =>
         foldl (fun (calls : list (string * Nodable)) '(id, subnode) =>
                  if negb (getNode_preflight subnode)
                  then calls ++ [(id, pn)] else calls) calls l).
  assert (Hinner : forall pn l calls,
            (id, pre) ∈ inner pn calls l <->
            (id, pre) ∈ calls \/
            pn = pre /\ exists sub, (id, sub) ∈ l /\
                                    getNode_preflight sub = false).
  { intros pn l. induction l as [|[id' sub'] l IH]; intros calls; simpl.
    - split; [by left|]. intros [?|(_ & sub & ?%elem_of_nil & _)]; done.
    - rewrite IH. destruct (getNode_preflight sub') eqn:Hpre; simpl.
      + split.
        * intros [?|(-> & sub & Hin & Hsub)]; [by left|right].
          split; [done|]. exists sub. split; [by right|done].
        * intros [?|(-> & sub & Hin & Hsub)]; [by left|right].
          split; [done|]. exists sub. split; [|done].
          apply elem_of_cons in Hin as [[= -> ->]|Hin]; [congruence|done].
      + rewrite elem_of_app, list_elem_of_singleton. split.
        * intros [[?|[= -> ->]]|(-> & sub & Hin & Hsub)].
          -- by left.
          -- right. split; [done|]. exists sub'. split; [by left|done].
          -- right. split; [done|]. exists sub. split; [by right|done].
        * intros [?|(-> & sub & Hin & Hsub)]; [left; by left|].
          apply elem_of_cons in Hin as [[= -> ->]|Hin].
          -- left. by right.
          -- right. split; [done|]. by exists sub. }
  assert (Houter : forall pns calls,
            (id, pre) ∈ foldl (fun calls pn =>
                                 inner pn calls (map_to_list subnodes))
                          calls pns <->
            (id, pre) ∈ calls \/
            pre ∈ pns /\ exists sub, (id, sub) ∈ map_to_list subnodes /\
                                     getNode_preflight sub = false).
  { induction pns as [|pn pns IH]; intros calls; simpl.
    - split; [by left|]. intros [?|[?%elem_of_nil _]]; done.
    - rewrite IH, Hinner. rewrite elem_of_cons. split.
      + intros [[?|[-> ?]]|[? ?]]; [by left|right|right]; split; auto.
      + intros [?|[[->|?] ?]]; [left; by left|left; right|right]; split; auto. }
  change (foldl _ [] preflightNodes)
    with (foldl (fun calls pn => inner pn calls (map_to_list subnodes))
            [] preflightNodes).
  rewrite Houter. split.
  - intros [?%elem_of_nil|[Hpre (sub & Hin%elem_of_map_to_list & Hsub)]];
      [done|]. split; [done|]. by exists sub.
  - intros [Hpre (sub & Hin & Hsub)]. right. split; [done|]. exists sub.
    split; [by apply elem_of_map_to_list|done].
Qed.

(** The ids below are those of [calls]. *)
Definition ids (calls : list CallStm) : list string := CallStm_Id <$> calls.

Lemma subcalls_spec rec node callables calls :
  forall subnodes preflightNodes subnodes' preflightNodes',
  subcalls rec node callables calls subnodes preflightNodes
    = Some (inr (subnodes', preflightNodes')) ->
  NoDup (ids calls) ->
  (forall id, id ∈ ids calls -> subnodes !! id = None) ->
  dom subnodes' = dom subnodes ∪ list_to_set (ids calls) /\
  (forall id n, subnodes !! id = Some n -> subnodes' !! id = Some n) /\
  (forall pre, pre ∈ preflightNodes' <->
     pre ∈ preflightNodes \/
     exists id, id ∈ ids calls /\ subnodes' !! id = Some pre /\
                getNode_preflight pre = true).
Proof.
  induction calls as [|c rest IH];
    intros subnodes preflightNodes subnodes' preflightNodes' Hrun Hnodup Hnew;
    simpl in Hrun.
  - injection Hrun as <- <-. split; [set_solver|]. split; [done|].
    intros pre. split; [by left|]. intros [?|(id & ?%elem_of_nil & _)]; done.
  - set (made := match Callables_Table callables !! CallStm_DecId c with
                 | Some (CallableStage _) => _
                 | Some (CallablePipeline _) => _
                 | _ => _
                 end) in Hrun.
    destruct made as [[err|n]|]; try done.
    apply NoDup_cons in Hnodup as [Hfresh Hnodup]. fold (ids rest) in *.
    destruct (IH _ _ _ _ Hrun Hnodup) as (Hdom & Hkeep & Hpre).
    { intros id Hid. rewrite lookup_insert_ne.
      - apply Hnew. by right.
      - intros <-. done. }
    assert (Hn : subnodes' !! CallStm_Id c = Some n).
    { apply Hkeep. by rewrite lookup_insert_eq. }
    split; [|split].
    + rewrite Hdom, dom_insert_L. simpl. set_solver.
    + intros id n' Hid. apply Hkeep. rewrite lookup_insert_ne; [done|].
      intros <-. rewrite Hnew in Hid; [done|by left].
    + intros pre. rewrite Hpre. simpl. split.
      * intros [Hin|(id & Hid & Hsub & Hflag)].
        -- destruct (getNode_preflight n) eqn:Hflag; [|by left].
           apply elem_of_app in Hin as [?| ->%list_elem_of_singleton];
             [by left|right].
           exists (CallStm_Id c). split; [by left|done].
        -- right. exists id. split; [by right|done].
      * intros [Hin|(id & [->|Hid]%elem_of_cons & Hsub & Hflag)].
        -- left. destruct (getNode_preflight n); [|done].
           apply elem_of_app. by left.
        -- left. assert (pre = n) as -> by congruence. rewrite Hflag.
           apply elem_of_app. right. by left.
        -- right. by exists id.
Qed.

(** X16. In a pipestance that [NewPipestance] returns, of a pipeline
    whose calls have distinct ids, the subnodes are keyed by exactly the
    ids of the calls, and [setPrenode] was called on a subnode with a node
    exactly when the subnode is not preflight and the node is a preflight
    subnode: every preflight subnode is made a prerequisite of every
    subnode that is not preflight, and of no other. *)
Theorem preflight_subnodes_gate_the_others (fuel : nat) (parent : TreeNode)
    (callStm : CallStm) (callables : Callables) (pipeline : Pipeline)
    (node : TreeNode) (subnodes : gmap string Nodable)
    (setPrenode : list (string * Nodable)) :
  NewPipestance_pipeline callStm callables = inr pipeline ->
  NoDup (ids (Pipeline_Calls pipeline)) ->
  NewPipestance fuel parent callStm callables
    = Some (inr (OfPipestance node subnodes setPrenode)) ->
  dom subnodes = list_to_set (ids (Pipeline_Calls pipeline)) /\
  forall id pre,
    (id, pre) ∈ setPrenode <->
    (exists sub, subnodes !! id = Some sub /\
                 getNode_preflight sub = false) /\
    (exists id', subnodes !! id' = Some pre /\
                 getNode_preflight pre = true).
Proof.
  intros Hpipeline Hnodup Hnew. destruct fuel as [|fuel]; [done|].
  simpl in Hnew. rewrite Hpipeline in Hnew.
  destruct (subcalls _ _ _ _ _ _) as [[err|[subs pres]]|] eqn:Hsub; try done.
  injection Hnew as <- <- <-.
  destruct (subcalls_spec _ _ _ _ _ _ _ _ Hsub Hnodup) as (Hdom & _ & Hpre).
  { intros id _. apply lookup_empty. }
  split; [rewrite Hdom; set_solver|].
  intros id pre. rewrite setPrenodes_spec, Hpre. split.
  - intros [[?%elem_of_nil|(id' & _ & Hid' & Hflag)] Hsubnode]; [done|].
    split; [done|]. by exists id'.
  - intros [Hsubnode (id' & Hid' & Hflag)]. split; [|done]. right.
    exists id'. split; [|done].
    assert (Hin : id' ∈ dom subs) by (apply elem_of_dom; by eexists).
    rewrite Hdom in Hin. set_solver.
Qed.

(** X17. When the callee of the call is a declared stage, [NewPipestance]
    makes one subnode, under the id of the call: the stagestance that
    [NewStagestance] makes for that same call below the node of the
    pipestance, and it calls [setPrenode] on nothing.  When
    [NewStagestance] fails it returns that error. *)
Theorem stage_call_has_one_stagestance (fuel : nat) (parent : TreeNode)
    (callStm : CallStm) (callables : Callables) (stage : Stage) :
  Callables_Table callables !! CallStm_DecId callStm
    = Some (CallableStage stage) ->
  let node := NewNode parent "pipeline" callStm callables in
  NewPipestance (S fuel) parent callStm callables =
    match NewStagestance node callStm callables with
    | inl err => Some (inl (ErrStagestance err))
    | inr s =>
        Some (inr (OfPipestance node
                     {[ CallStm_Id callStm := OfStagestance s ]} []))
    end.
Proof.
  intros Hstage. cbv zeta. unfold NewPipestance, NewPipestance_pipeline.
  rewrite Hstage. simpl. rewrite Hstage.
  destruct (NewStagestance _ callStm callables) as [err|s]; [done|].
  simpl. do 3 f_equal. unfold setPrenodes.
  rewrite insert_empty, map_to_list_singleton.
  destruct (stagestance_preflight s) eqn:Hflag; simpl; [|done].
  by rewrite Hflag.
Qed.

End NewPipestance.

(** A pipeline of three stages, the first of them preflight.  The node
    of a call and the stagestance of a call are known by the id of the
    call. *)
Definition stageOf (id : string) : Callable :=
  CallableStage (mkStage (mkAstNode (mkSourceLoc 1 "/r/top.mro")) id []).

Definition callOf (id : string) : CallStm := mkCallStm id id (mkBindStms [] ∅).

Definition analyzer : Pipeline :=
  mkPipeline (mkAstNode (mkSourceLoc 9 "/r/top.mro"))
    [callOf "CHECK"; callOf "SORT"; callOf "CALL"]
    (mkReturnStm (mkBindStms [] ∅)).

Definition declared : Callables :=
  mkCallables {[ "ANALYZER" := CallablePipeline analyzer;
                 "CHECK" := stageOf "CHECK"; "SORT" := stageOf "SORT";
                 "CALL" := stageOf "CALL" ]}.

Definition nodeOf (parent : string) (kind : string) (callStm : CallStm)
    (callables : Callables) : string := CallStm_Id callStm.

Definition stagestanceOf (node : string) (callStm : CallStm)
    (callables : Callables) : string + string := inr (CallStm_Id callStm).

Definition isCheck (id : string) : bool := bool_decide (id = "CHECK").

Definition checkStage : Nodable string string := OfStagestance _ _ "CHECK".

Lemma preflight_subnodes_gate_the_others_witness :
  let subnodes : gmap string (Nodable string string) :=
    {[ "CHECK" := checkStage; "SORT" := OfStagestance _ _ "SORT";
       "CALL" := OfStagestance _ _ "CALL" ]} in
  dom subnodes = list_to_set (ids (Pipeline_Calls analyzer)) /\
  forall id pre,
    (id, pre) ∈ [("SORT", checkStage); ("CALL", checkStage)] <->
    (exists sub, subnodes !! id = Some sub /\
                 getNode_preflight string isCheck string isCheck sub = false) /\
    (exists id', subnodes !! id' = Some pre /\
                 getNode_preflight string isCheck string isCheck pre = true).
Proof.
  apply (preflight_subnodes_gate_the_others string nodeOf isCheck string
           string stagestanceOf isCheck 2 "HCC" (callOf "ANALYZER") declared
           analyzer "ANALYZER").
  - vm_compute. reflexivity.
  - apply (bool_decide_unpack _). vm_compute. exact I.
  - vm_compute. reflexivity.
Defined.

Lemma stage_call_has_one_stagestance_witness :
  NewPipestance string nodeOf isCheck string string stagestanceOf isCheck
    1 "HCC" (callOf "SORT") declared =
  match stagestanceOf (nodeOf "HCC" "pipeline" (callOf "SORT") declared)
          (callOf "SORT") declared with
  | inl err => Some (inl (ErrStagestance _ err))
  | inr s =>
      Some (inr (OfPipestance _ _
                   (nodeOf "HCC" "pipeline" (callOf "SORT") declared)
                   {[ CallStm_Id (callOf "SORT") := OfStagestance _ _ s ]} []))
  end.
Proof.
  apply (stage_call_has_one_stagestance string nodeOf isCheck string string
           stagestanceOf isCheck 0 "HCC" (callOf "SORT") declared
           (mkStage (mkAstNode (mkSourceLoc 1 "/r/top.mro")) "SORT" [])).
  vm_compute. reflexivity.
Defined.

End Subcalls.


(* ===================================================================== *)
(** ** The pipestance list of the web interface                           *)
(* ===================================================================== *)

Module WebUi.

Open Scope Z_scope.

(** The properties a pipestance is filtered by, [$scope.props]. *)
Inductive Property : Type :=
| PropName
| PropFcid
| PropPipeline
| PropPsid
| PropState.

Definition props : list Property :=
  [PropName; PropFcid; PropPipeline; PropPsid; PropState].

(** A pipestance as [/api/get-pipestances] reports it, as far as the
    controller reads it: the properties are strings. *)
Record Row : Type := mkRow {
  row_name : string;
  row_fcid : string;
  row_pipeline : string;
  row_psid : string;
  row_state : string
}.

Definition get (p : Row) (prop : Property) : string :=
  match prop with
  | PropName => row_name p
  | PropFcid => row_fcid p
  | PropPipeline => row_pipeline p
  | PropPsid => row_psid p
  | PropState => row_state p
  end.

(** The variables of [$scope] that listing and paging use.  [selected]
    gives [$scope[prop]], [None] for null.  The numbers are integers far
    below 2^53, on which the arithmetic of the code is exact.  [ptotal]
    is the number 0, which has no [length], until [filterPipestances]
    makes it an array: [None] stands for that. *)
Record Scope : Type := mkScope {
  selected : Property -> option string;
  pipestances : list Row;
  fpipestances : list Row;
  pmax : Z;
  pindex : Z;
  ptotal : option (list Z)
}.

(** The controller as it is created. *)
Definition created (state : option string) : Scope :=
  mkScope (fun prop => match prop with PropState => state | _ => None end)
    [] [] 50 0 None.

Definition setPindex (pindex : Z) (sc : Scope) : Scope :=
  mkScope (selected sc) (pipestances sc) (fpipestances sc) (pmax sc) pindex
    (ptotal sc).

(** A comparison with [ptotal.length - 1] is false when [ptotal] has no
    length. *)
Definition previousPage (sc : Scope) : Scope :=
  if bool_decide (0 < pindex sc) then setPindex (pindex sc - 1) sc else sc.

Definition setPage (pindex : Z) (sc : Scope) : Scope :=
  match ptotal sc with
  | Some ptotal =>
      if bool_decide (0 <= pindex) &&
         bool_decide (pindex <= Z.of_nat (length ptotal) - 1)
      then setPindex pindex sc else sc
  | None => sc
  end.

Definition nextPage (sc : Scope) : Scope :=
  match ptotal sc with
  | Some ptotal =>
      if bool_decide (pindex sc < Z.of_nat (length ptotal) - 1)
      then setPindex (pindex sc + 1) sc else sc
  | None => sc
  end.

(** Whether a value is true as a condition: a string is unless it is
    empty, null is not. *)
Definition truthy (v : option string) : bool :=
  match v with
  | Some s => negb (bool_decide (s = ""))
  | None => false
  end.

(** The inner loop of [filterPipestances]: the value of [filter] after
    it. *)
Definition keeps (sc : Scope) (p : Row) : bool :=
  foldl (fun filter prop =>
           if truthy (selected sc prop) &&
              negb (bool_decide (selected sc prop = Some (get p prop)))
           then false else filter)
    true props.

Definition filterPipestances (sc : Scope) : Scope :=
  let fpipestances :=
    foldl (fun fpipestances p =>
             if keeps sc p then fpipestances ++ [p] else fpipestances)
      [] (pipestances sc) in
  mkScope (selected sc) (pipestances sc) fpipestances (pmax sc) (pindex sc)
    (Some (seqZ 0 ((Z.of_nat (length fpipestances) + pmax sc - 1)
                   `div` pmax sc))).

(** The function given to [$scope.$watch] for each property. *)
Definition watch (sc : Scope) : Scope := filterPipestances (setPindex 0 sc).

(** [filterPage], called with the index of a row. *)
Definition filterPage (sc : Scope) (index : Z) : bool :=
  if bool_decide (index < pindex sc * pmax sc) ||
     bool_decide ((pindex sc + 1) * pmax sc <= index)
  then false else true.

(** *** Pages *)

Lemma filterPage_spec sc index :
  filterPage sc index = true <->
  pindex sc * pmax sc <= index < (pindex sc + 1) * pmax sc.
Proof.
  unfold filterPage. repeat case_bool_decide; simpl; split; try done; lia.
Qed.

(** The number of pages for [rows] rows. *)
Definition pageCount (pmax rows : Z) : Z := (rows + pmax - 1) `div` pmax.

Lemma pageCount_spec pmax rows page :
  0 < pmax -> (page < pageCount pmax rows <-> page * pmax < rows).
Proof.
  intros Hpmax. unfold pageCount.
  pose proof (Z.mul_div_le (rows + pmax - 1) pmax Hpmax).
  pose proof (Z.mul_succ_div_gt (rows + pmax - 1) pmax Hpmax).
  split; intros Hlt; nia.
Qed.

(** X18. [filterPipestances] makes one page number for every [pmax] rows
    or part of them, from 0 up: every row of the filtered list is on
    exactly one page, that page is among the page numbers, no page number
    is without a row, and the rows of a page are [pmax] or fewer, next to
    each other. *)
Theorem pages_partition_the_rows (sc : Scope) :
  0 < pmax sc ->
  let sc' := filterPipestances sc in
  let rows := Z.of_nat (length (fpipestances sc')) in
  exists pages,
    ptotal sc' = Some pages /\
    (forall page, page ∈ pages <-> 0 <= page /\ page * pmax sc < rows) /\
    NoDup pages /\
    (forall index, 0 <= index < rows ->
       exists page, page ∈ pages /\
         filterPage (setPindex page sc') index = true /\
         forall page', filterPage (setPindex page' sc') index = true ->
                       page' = page) /\
    (forall page, page ∈ pages ->
       exists index, 0 <= index < rows /\
                     filterPage (setPindex page sc') index = true) /\
    (forall page index index',
       filterPage (setPindex page sc') index = true ->
       filterPage (setPindex page sc') index' = true ->
       Z.abs (index - index') < pmax sc).
Proof.
  intros Hpmax. cbv zeta.
  set (sc' := filterPipestances sc).
  set (rows := Z.of_nat (length (fpipestances sc'))).
  assert (Hrows : 0 <= rows) by lia.
  set (count := pageCount (pmax sc) rows).
  assert (Hcount : forall page, page < count <-> page * pmax sc < rows).
  { intros page. by apply pageCount_spec. }
  exists (seqZ 0 count). split; [done|]. split; [|split; [|split; [|split]]].
  - intros page. rewrite elem_of_seqZ, <- Hcount. lia.
  - apply NoDup_seqZ.
  - intros index Hindex. exists (index `div` pmax sc).
    pose proof (Z.mul_div_le index (pmax sc) Hpmax) as Hlow.
    pose proof (Z.mul_succ_div_gt index (pmax sc) Hpmax) as Hhigh.
    split; [|split].
    + rewrite elem_of_seqZ.
      assert (0 <= index `div` pmax sc) by (apply Z.div_pos; lia).
      assert (index `div` pmax sc < count) by (apply Hcount; nia). lia.
    + apply filterPage_spec. simpl. nia.
    + intros page' Hpage'%filterPage_spec. simpl in Hpage'.
      apply Z.div_unique_pos with (r := index - page' * pmax sc); lia.
  - intros page [Hpos Hlt%Hcount]%elem_of_seqZ. exists (page * pmax sc).
    split; [nia|]. apply filterPage_spec. simpl. nia.
  - intros page index index' H1%filterPage_spec H2%filterPage_spec.
    simpl in *. lia.
Qed.

(** *** Rows *)

(** Every property that is selected, and not as the empty string, has
    that value in the row. *)
Definition matches (sc : Scope) (p : Row) : Prop :=
  forall prop s, selected sc prop = Some s -> s <> "" -> get p prop = s.

Lemma keeps_fold sc p (l : list Property) (filter : bool) :
  foldl (fun filter prop =>
           if truthy (selected sc prop) &&
              negb (bool_decide (selected sc prop = Some (get p prop)))
           then false else filter) filter l = true <->
  filter = true /\
  forall prop, prop ∈ l ->
    forall s, selected sc prop = Some s -> s <> "" -> get p prop = s.
Proof.
  revert filter. induction l as [|prop l IH]; intros filter; simpl.
  - split; [intros ->; split; [done|by intros ? ?%elem_of_nil]|by intros []].
  - rewrite IH. clear IH. unfold truthy.
    destruct (selected sc prop) as [s|] eqn:Hsel; simpl.
    + case_bool_decide as Hempty; simpl.
      * split; intros [Hf Hall]; (split; [done|]).
        -- intros prop' [->|Hin]%elem_of_cons; [|by apply Hall].
           intros s' Hs' Hne. congruence.
        -- intros prop' Hin. apply Hall. by right.
      * case_bool_decide as Heq; simpl.
        -- split; intros [Hf Hall]; (split; [done|]).
           ++ intros prop' [->|Hin]%elem_of_cons; [|by apply Hall].
              intros s' Hs' Hne. congruence.
           ++ intros prop' Hin. apply Hall. by right.
        -- split; [by intros []|]. intros [Hf Hall].
           destruct Heq. f_equal. symmetry. apply (Hall prop); [by left|done..].
    + split; intros [Hf Hall]; (split; [done|]).
      * intros prop' [->|Hin]%elem_of_cons; [|by apply Hall].
        intros s' Hs'. congruence.
      * intros prop' Hin. apply Hall. by right.
Qed.

Lemma keeps_spec sc p : keeps sc p = true <-> matches sc p.
Proof.
  unfold keeps, matches. rewrite keeps_fold. split.
  - intros [_ Hall] prop. apply Hall. destruct prop; set_solver.
  - intros Hall. split; [done|]. intros prop _. apply Hall.
Qed.

Lemma fpipestances_fold sc (l acc : list Row) :
  foldl (fun fpipestances p =>
           if keeps sc p then fpipestances ++ [p] else fpipestances) acc l
  = acc ++ filter (fun p => keeps sc p = true) l.
Proof.
  revert acc. induction l as [|p l IH]; intros acc; simpl.
  - by rewrite app_nil_r.
  - rewrite IH, filter_cons. destruct (keeps sc p) eqn:Hp.
    + rewrite decide_True by done. by rewrite <- app_assoc.
    + rewrite decide_False by done. done.
Qed.

(** X19. [filterPipestances] lists, in the order of the pipestances, the
    rows in which every selected property has the selected value; a
    property selected as null or as the empty string excludes no row.
    With nothing selected every row is listed.  The selection, the
    pipestances and the page shown are left as they are. *)
Theorem filterPipestances_lists_matching_rows (sc : Scope) :
  let sc' := filterPipestances sc in
  fpipestances sc' = filter (fun p => keeps sc p = true) (pipestances sc) /\
  (forall p, p ∈ fpipestances sc' <-> p ∈ pipestances sc /\ matches sc p) /\
  ((forall prop, selected sc prop = None \/ selected sc prop = Some "") ->
   fpipestances sc' = pipestances sc) /\
  selected sc' = selected sc /\ pipestances sc' = pipestances sc /\
  pindex sc' = pindex sc /\ pmax sc' = pmax sc.
Proof.
  cbv zeta. unfold filterPipestances. simpl. rewrite fpipestances_fold. simpl.
  split; [done|]. split; [|split; [|done]].
  - intros p. rewrite list_elem_of_filter, keeps_spec. tauto.
  - intros Hnone. induction (pipestances sc) as [|p l IH]; [done|].
    rewrite filter_cons, decide_True; [by rewrite IH|].
    apply keeps_spec. intros prop s Hs Hne.
    destruct (Hnone prop); congruence.
Qed.

(** *** Moving between pages *)

Inductive Action : Type :=
| PreviousPage
| NextPage
| SetPage (pindex : Z).

Definition act (sc : Scope) (a : Action) : Scope :=
  match a with
  | PreviousPage => previousPage sc
  | NextPage => nextPage sc
  | SetPage pindex => setPage pindex sc
  end.

(** The page shown is the first one or one of the page numbers. *)
Definition onPage (sc : Scope) : Prop :=
  0 <= pindex sc /\
  (pindex sc = 0 \/
   exists pages, ptotal sc = Some pages /\
                 pindex sc < Z.of_nat (length pages)).

Lemma act_onPage sc a :
  onPage sc ->
  onPage (act sc a) /\ ptotal (act sc a) = ptotal sc /\
  fpipestances (act sc a) = fpipestances sc /\ pmax (act sc a) = pmax sc /\
  pipestances (act sc a) = pipestances sc /\
  selected (act sc a) = selected sc.
Proof.
  intros Hon. pose proof Hon as [Hpos Hpage].
  destruct a as [| |i]; simpl;
    unfold previousPage, nextPage, setPage.
  - case_bool_decide; simpl; [|done]. split; [|done]. split; [simpl; lia|].
    simpl. destruct Hpage as [?|(pages & Hpages & Hlt)]; [lia|right].
    exists pages. split; [done|lia].
  - destruct (ptotal sc) as [pages|] eqn:Hpages; [|done].
    case_bool_decide; simpl; [|done]. split; [|done]. split; [simpl; lia|].
    right. exists pages. split; [done|simpl; lia].
  - destruct (ptotal sc) as [pages|] eqn:Hpages; [|done].
    repeat case_bool_decide; simpl; try done. split; [|done].
    split; [done|]. right. exists pages. split; [done|simpl; lia].
Qed.

(** X20. After a property changes, whatever pages are then asked for with
    [previousPage], [nextPage] and [setPage], the rows and the page
    numbers stay as the change left them and the page shown is one of the
    page numbers: when any row is listed, a row is on the page shown. *)
Theorem navigation_stays_on_a_page (sc : Scope) (actions : list Action) :
  0 < pmax sc ->
  let listed := watch sc in
  let sc' := foldl act listed actions in
  let rows := Z.of_nat (length (fpipestances listed)) in
  fpipestances sc' = fpipestances listed /\
  ptotal sc' = ptotal listed /\
  0 <= pindex sc' /\
  (0 < rows ->
   pindex sc' ∈ default [] (ptotal sc') /\
   exists index, 0 <= index < rows /\ filterPage sc' index = true) /\
  (rows = 0 -> pindex sc' = 0).
Proof.
  intros Hpmax. cbv zeta.
  set (listed := watch sc).
  assert (Hlisted : onPage listed) by (split; [done|by left]).
  assert (Hinv : onPage (foldl act listed actions) /\
                 ptotal (foldl act listed actions) = ptotal listed /\
                 fpipestances (foldl act listed actions)
                   = fpipestances listed /\
                 pmax (foldl act listed actions) = pmax listed).
  { induction actions as [|a actions IH] using rev_ind; [done|].
    rewrite foldl_app. simpl. destruct IH as (Hon & Hp & Hf & Hm).
    destruct (act_onPage _ a Hon) as (Hon' & Hp' & Hf' & Hm' & _).
    split; [done|]. split; [by rewrite Hp'|]. split; [by rewrite Hf'|].
    by rewrite Hm'. }
  destruct Hinv as ([Hpos Hpage] & Hptotal & Hrows & Hmax).
  set (sc' := foldl act listed actions) in *.
  set (rows := Z.of_nat (length (fpipestances listed))).
  assert (Hcount : ptotal listed
                   = Some (seqZ 0 (pageCount (pmax sc) rows))) by done.
  assert (Hpmax' : pmax sc' = pmax sc) by (by rewrite Hmax).
  split; [done|]. split; [done|]. split; [done|]. split.
  - intros Hsome. rewrite Hptotal, Hcount. simpl.
    assert (Hlt : pindex sc' < pageCount (pmax sc) rows).
    { destruct Hpage as [->|(pages & Hpages & Hlt)].
      - apply pageCount_spec; lia.
      - rewrite Hptotal, Hcount in Hpages. injection Hpages as <-.
        rewrite length_seqZ in Hlt.
        assert (0 <= pageCount (pmax sc) rows)
          by (apply Z.div_pos; lia). lia. }
    split; [apply elem_of_seqZ; lia|].
    apply pageCount_spec in Hlt; [|done].
    exists (pindex sc' * pmax sc). split; [nia|].
    apply filterPage_spec. rewrite Hpmax'. nia.
  - intros Hnone. destruct Hpage as [?|(pages & Hpages & Hlt)]; [done|].
    rewrite Hptotal, Hcount in Hpages. injection Hpages as <-.
    rewrite length_seqZ in Hlt. rewrite Hnone in Hlt.
    unfold pageCount in Hlt.
    rewrite Z.div_small in Hlt by lia. simpl in Hlt. lia.
Qed.

(** Four pipestances of two flowcells, the flowcell HCC selected and the
    state selected as the empty string, before the rows are filtered. *)
Definition listing : Scope :=
  mkScope (fun prop => match prop with
                       | PropFcid => Some "HCC"
                       | PropState => Some ""
                       | _ => None
                       end)
    [ mkRow "a" "HCC" "ANALYZER" "1" "complete";
      mkRow "b" "HAB" "ANALYZER" "2" "failed";
      mkRow "c" "HCC" "ANALYZER" "3" "running";
      mkRow "d" "HCC" "ANALYZER" "4" "running" ]
    [] 50 0 None.

Lemma pages_partition_the_rows_witness :
  let sc' := filterPipestances listing in
  let rows := Z.of_nat (length (fpipestances sc')) in
  exists pages,
    ptotal sc' = Some pages /\
    (forall page, page ∈ pages <-> 0 <= page /\ page * pmax listing < rows) /\
    NoDup pages /\
    (forall index, 0 <= index < rows ->
       exists page, page ∈ pages /\
         filterPage (setPindex page sc') index = true /\
         forall page', filterPage (setPindex page' sc') index = true ->
                       page' = page) /\
    (forall page, page ∈ pages ->
       exists index, 0 <= index < rows /\
                     filterPage (setPindex page sc') index = true) /\
    (forall page index index',
       filterPage (setPindex page sc') index = true ->
       filterPage (setPindex page sc') index' = true ->
       Z.abs (index - index') < pmax listing).
Proof. apply (pages_partition_the_rows listing). simpl. lia. Defined.

Lemma navigation_stays_on_a_page_witness :
  let actions := [NextPage; NextPage; SetPage 5; PreviousPage; SetPage 1] in
  let listed := watch listing in
  let sc' := foldl act listed actions in
  let rows := Z.of_nat (length (fpipestances listed)) in
  fpipestances sc' = fpipestances listed /\
  ptotal sc' = ptotal listed /\
  0 <= pindex sc' /\
  (0 < rows ->
   pindex sc' ∈ default [] (ptotal sc') /\
   exists index, 0 <= index < rows /\ filterPage sc' index = true) /\
  (rows = 0 -> pindex sc' = 0).
Proof.
  apply (navigation_stays_on_a_page listing
           [NextPage; NextPage; SetPage 5; PreviousPage; SetPage 1]).
  simpl. lia.
Defined.

End WebUi.
